(** * Categorical sampling kernel (tensorflow/core/kernels/multinomial_op.cc)

    A shallow embedding of the CPU sampling functor [MultinomialFunctor],
    of the validation and dispatch in [MultinomialOp::DoCompute] and of the
    stateful and stateless [Compute] entry points, followed by the
    properties of the sampler, of the counter arithmetic of its shards and
    of the validation order.

    The kernel is a template over the logit type [T]; the embedding is the
    [T = double] instantiation, so the cast of a logit to [double] is the
    identity.  Double arithmetic is an interface ([DoubleOps]) with two
    instances: IEEE binary64 (Rocq's primitive floats), the arithmetic of
    the kernel, and exact extended reals as a reference model.  The
    numeric theorems rest on a few laws of the arithmetic, proved for
    both instances; for binary64 the C library's [exp] stays a parameter
    with three assumed properties ([ExpLaws]). *)

From Stdlib Require Import ZArith List Bool String Lia Floats Reals Lra.
From stdpp Require Import base option list gmap.

Local Open Scope Z_scope.

(** ** Machine integers *)

(** [int] and [int64] arithmetic, with the two's complement wrap-around
    written out; [/] on C++ integers truncates toward zero ([Z.quot]). *)
Definition wrap_signed (bits : Z) (x : Z) : Z :=
  (x + 2 ^ (bits - 1)) mod 2 ^ bits - 2 ^ (bits - 1).

Definition int32 (x : Z) : Z := wrap_signed 32 x.
Definition int64 (x : Z) : Z := wrap_signed 64 x.
Definition uint64 (x : Z) : Z := x mod 2 ^ 64.

(** ** Counter-based generator *)

(** A Philox generator is a key and a 128-bit block counter. *)
Record PhiloxRandom := mkPhilox { key_ : Z; counter_ : Z }.

(** Modelled from the spec: random::PhiloxRandom (philox_random.h is not
    among the sources).  "generate(key, counter) -> fixed-width block of
    pseudorandom words, deterministic pure function of (key, counter)".
    A block holds [kResultElementCount] = 4 words of 32 bits: the kernel
    rounds sample counts up to multiples of 4 and divides by 4 to count
    the blocks to skip (the comment at the call of [Skip] says 128 bytes
    for what are 128 bits). *)
Definition kResultElementCount : Z := 4.

(** Modelled from the spec: "skip(counter, n) advances counter by n
    blocks in O(1)"; the argument is a [uint64]. *)
Definition Skip (g : PhiloxRandom) (count : Z) : PhiloxRandom :=
  mkPhilox (key_ g) ((counter_ g + uint64 count) mod 2 ^ 128).

(** Modelled from the spec: random::SingleSampleAdapter, the buffer
    through which random::SimplePhilox hands out one 32-bit word at a
    time: a fresh block is generated when the buffered one is used up. *)
Record SimplePhilox := mkSimplePhilox {
  generator_ : PhiloxRandom;
  unused_results_ : list Z;
  used_result_index_ : Z
}.

Definition SimplePhilox_new (gen : PhiloxRandom) : SimplePhilox :=
  mkSimplePhilox gen [] kResultElementCount.

(** Modelled from the spec: the block function of PhiloxRandom
    (philox_random.h is not among the sources), "generate(key, counter) ->
    fixed-width block of pseudorandom words": Philox4x32 with ten rounds,
    as published and as the library implements it.  The key is two words,
    the counter four, least significant word first. *)
Definition kPhiloxW32A : Z := 0x9E3779B9.
Definition kPhiloxW32B : Z := 0xBB67AE85.
Definition kPhiloxM4x32A : Z := 0xD2511F53.
Definition kPhiloxM4x32B : Z := 0xCD9E8D57.

(** The low and the high word of the 64-bit product of two words. *)
Definition MultiplyHighLow (a b : Z) : Z * Z :=
  let product := a * b in
  (product mod 2 ^ 32, (product / 2 ^ 32) mod 2 ^ 32).

Definition ComputeSingleRound (counter : list Z) (key : Z * Z) : list Z :=
  let c i := nth i counter 0 in
  let '(lo0, hi0) := MultiplyHighLow kPhiloxM4x32A (c 0%nat) in
  let '(lo1, hi1) := MultiplyHighLow kPhiloxM4x32B (c 2%nat) in
  [Z.lxor (Z.lxor hi1 (c 1%nat)) (fst key); lo1;
   Z.lxor (Z.lxor hi0 (c 3%nat)) (snd key); lo0].

Definition RaiseKey (key : Z * Z) : Z * Z :=
  ((fst key + kPhiloxW32A) mod 2 ^ 32, (snd key + kPhiloxW32B) mod 2 ^ 32).

(** [n] rounds, the key raised after each; the key left by the last round
    is not used. *)
Fixpoint philox_rounds (n : nat) (counter : list Z) (key : Z * Z) : list Z :=
  match n with
  | O => counter
  | S n' => philox_rounds n' (ComputeSingleRound counter key) (RaiseKey key)
  end.

(** The [n] 32-bit words of [x], least significant first. *)
Definition words (n : nat) (x : Z) : list Z :=
  map (fun i => (x / 2 ^ (32 * Z.of_nat i)) mod 2 ^ 32) (seq 0 n).

Definition philox4x32 (key counter : Z) : list Z :=
  philox_rounds 10 (words 4 counter)
    (key mod 2 ^ 32, (key / 2 ^ 32) mod 2 ^ 32).

(** ** Double arithmetic *)

(** The operations on [double] the kernel uses ([dzero] .. [dlowest]),
    the conversion of two generator words into a double of [0, 1)
    ([Uint64ToDouble], which SimplePhilox::RandDouble applies), and the
    constant, comparison and integer conversion in which the arithmetic
    laws are stated ([dunit], [dle], [dofZ]). *)
Record DoubleOps := mkDoubleOps {
  D :> Type;
  dzero : D;
  dunit : D;
  dofZ : Z -> D;
  dadd : D -> D -> D;
  dsub : D -> D -> D;
  dmul : D -> D -> D;
  dexp : D -> D;
  dlt : D -> D -> bool;
  dle : D -> D -> bool;
  disfinite : D -> bool;
  dlowest : D;
  Uint64ToDouble : Z -> Z -> D
}.

Section Sampler.

Context (A : DoubleOps).

(** The block function of the generator: four 32-bit words for a key and
    a counter. *)
Context (generate : Z -> Z -> list Z).

(** Modelled from the spec: PhiloxRandom::operator(), the block at the
    current counter; the counter moves to the next block. *)
Definition Philox_next (g : PhiloxRandom) : list Z * PhiloxRandom :=
  (generate (key_ g) (counter_ g),
   mkPhilox (key_ g) ((counter_ g + 1) mod 2 ^ 128)).

(** Modelled from the spec: SingleSampleAdapter::operator(), the next
    unused word, from a new block when the buffer is used up. *)
Definition single (s : SimplePhilox) : Z * SimplePhilox :=
  let s1 :=
    if used_result_index_ s =? kResultElementCount then
      let '(blk, g) := Philox_next (generator_ s) in
      mkSimplePhilox g blk 0
    else s in
  (nth (Z.to_nat (used_result_index_ s1)) (unused_results_ s1) 0,
   mkSimplePhilox (generator_ s1) (unused_results_ s1)
                  (used_result_index_ s1 + 1)).

(** Modelled from the spec: SimplePhilox::RandDouble (simple_philox.h
    is not among the sources), the "uniform value" of the row sampler:
    two words make one double ([DoCompute]: "CPU generates doubles = 2
    samples per number"). *)
Definition RandDouble (s : SimplePhilox) : A * SimplePhilox :=
  let '(x0, s1) := single s in
  let '(x1, s2) := single s1 in
  (Uint64ToDouble A x0 x1, s2).

(** *** One row *)

(** [std::max(a, b)]: [b] when [a < b], else [a]. *)
Definition std_max (a b : A) : A := if dlt A a b then b else a.

(** The along-class maximum over the finite logits, from
    [numeric_limits<T>::lowest()]. *)
Fixpoint max_loop (logits_row : list A) (max : A) : A :=
  match logits_row with
  | [] => max
  | x :: rest =>
      max_loop rest (if disfinite A x then std_max max x else max)
  end.

Definition row_max (logits_row : list A) : A :=
  max_loop logits_row (dlowest A).

(** [cdf = (logits.chip<0>(b).cast<double>() - max_logit).exp()]: every
    entry, finite or not, is exponentiated into the scratch buffer. *)
Definition cdf_exp (logits_row : list A) (max_logit : A) : list A :=
  map (fun x => dexp A (dsub A x max_logit)) logits_row.

(** The accumulation loop, in place on the scratch buffer: [cdf(j)] is
    read (only for a finite logit) and then overwritten with the running
    total.  [j] is the index of the head of [logits_row]. *)
Fixpoint cdf_loop (logits_row : list A) (j : nat) (cdf : list A)
    (running_total : A) : list A * A :=
  match logits_row with
  | [] => (cdf, running_total)
  | x :: rest =>
      let running_total' :=
        if disfinite A x
        then dadd A running_total (default (dzero A) (cdf !! j))
        else running_total in
      cdf_loop rest (S j) (<[j := running_total']> cdf) running_total'
  end.

Definition build_cdf (logits_row : list A) : list A * A :=
  cdf_loop logits_row 0 (cdf_exp logits_row (row_max logits_row)) (dzero A).

(** [std::upper_bound(cdf_begin, cdf_end, to_find)]: the binary search of
    the standard library, on the half-open range of [len] entries from
    [first]; the result is a position.  The range halves on every
    iteration, so [len] iterations are always enough. *)
Fixpoint upper_bound_loop (fuel : nat) (cdf : list A) (value : A)
    (first len : nat) : nat :=
  match fuel with
  | O => first
  | S fuel' =>
      if (len =? 0)%nat then first
      else
        let half := (len / 2)%nat in
        let mid := (first + half)%nat in
        if dlt A value (default (dzero A) (cdf !! mid))
        then upper_bound_loop fuel' cdf value first half
        else upper_bound_loop fuel' cdf value (S mid) (len - half - 1)%nat
  end.

Definition upper_bound (cdf : list A) (value : A) : nat :=
  upper_bound_loop (length cdf) cdf value 0 (length cdf).

(** The sample loop of one row [b]: [n] samples are left to draw and [j]
    is the next output column. *)
Fixpoint sample_loop (n : nat) (b j : Z) (cdf : list A) (running_total : A)
    (simple_philox : SimplePhilox) (output : gmap (Z * Z) Z)
    : SimplePhilox * gmap (Z * Z) Z :=
  match n with
  | O => (simple_philox, output)
  | S n' =>
      let '(r, sp) := RandDouble simple_philox in
      let to_find := dmul A r running_total in
      let found := Z.of_nat (upper_bound cdf to_find) in
      sample_loop n' b (j + 1) cdf running_total sp (<[(b, j) := found]> output)
  end.

(** *** One shard *)

(** The logits matrix is read through [logits(b, j)]; [num_classes] and
    [num_samples] are the [int] arguments of the functor and [gen] the
    generator it received. *)
Context (logits : Z -> Z -> A) (num_classes num_samples : Z)
        (gen : PhiloxRandom).

Definition logits_row (b : Z) : list A :=
  map (fun j => logits b (Z.of_nat j)) (seq 0 (Z.to_nat num_classes)).

(** The argument of [gen_copy.Skip] for a shard that starts at
    [start_row]: [start_row * (num_samples + 3) / 4], an [int64] product
    of [start_row] and the [int] sum, divided with truncation. *)
Definition skip_count (start_row : Z) : Z :=
  Z.quot (int64 (start_row * int32 (num_samples + 3))) 4.

(** The row loop [for (int64 b = start_row; b < limit_row; ++b)]; the
    generator state is carried from one row to the next. *)
Fixpoint rows_loop (n : nat) (b : Z) (simple_philox : SimplePhilox)
    (output : gmap (Z * Z) Z) : SimplePhilox * gmap (Z * Z) Z :=
  match n with
  | O => (simple_philox, output)
  | S n' =>
      let '(cdf, running_total) := build_cdf (logits_row b) in
      let '(sp, out) :=
        sample_loop (Z.to_nat num_samples) b 0 cdf running_total
                    simple_philox output in
      rows_loop n' (b + 1) sp out
  end.

(** The closure [DoWork], with the final state of its private generator
    next to the output it wrote.  The allocation of the scratch buffer is
    taken to succeed. *)
Definition DoWork_run (start_row limit_row : Z) (output : gmap (Z * Z) Z)
    : SimplePhilox * gmap (Z * Z) Z :=
  let gen_copy := Skip gen (skip_count start_row) in
  let simple_philox := SimplePhilox_new gen_copy in
  rows_loop (Z.to_nat (limit_row - start_row)) start_row simple_philox output.

Definition DoWork (start_row limit_row : Z) (output : gmap (Z * Z) Z)
    : gmap (Z * Z) Z :=
  snd (DoWork_run start_row limit_row output).

(** Modelled from the spec: Shard (work_sharder.h is not among the
    sources).  The runtime splits the rows into contiguous blocks and runs
    the closure on each; [plan] lists the blocks in the order in which
    they take effect on the shared output. *)
Definition Shard (plan : list (Z * Z))
    (work : Z -> Z -> gmap (Z * Z) Z -> gmap (Z * Z) Z)
    (output : gmap (Z * Z) Z) : gmap (Z * Z) Z :=
  fold_left (fun out blk => work (fst blk) (snd blk) out) plan output.

(** [MultinomialFunctor<CPUDevice, T, OutputType>::operator()]. *)
Definition MultinomialFunctor (plan : list (Z * Z))
    (output : gmap (Z * Z) Z) : gmap (Z * Z) Z :=
  Shard plan DoWork output.

End Sampler.

(** ** The op *)

(** The status an op leaves in its context; only the invalid-argument
    errors of the validation are raised by this kernel, each with the
    fixed part of its message. *)
Inductive Status :=
  | OK
  | InvalidArgument (msg : string).

(** A tensor: its shape and its flat, row-major buffer. *)
Record Tensor (V : Type) := mkTensor {
  shape : list Z;
  flat : Z -> V
}.
Arguments mkTensor {V} _ _.
Arguments shape {V} _.
Arguments flat {V} _.

Definition dims {V} (t : Tensor V) : Z := Z.of_nat (length (shape t)).
Definition dim_size {V} (t : Tensor V) (i : Z) : Z :=
  nth (Z.to_nat i) (shape t) 0.
Definition IsMatrix (sh : list Z) : bool := (length sh =? 2)%nat.
Definition IsScalar (sh : list Z) : bool := (length sh =? 0)%nat.
Definition NumElements (sh : list Z) : Z := fold_right Z.mul 1 sh.
Definition scalar {V} (t : Tensor V) : V := flat t 0.
Definition matrix {V} (t : Tensor V) (b j : Z) : V :=
  flat t (b * dim_size t 1 + j).

(** The calls an op makes on its collaborators, in order. *)
Inductive Event :=
  | AllocateOutput (sh : list Z)
  | ReserveOutputs (samples multiplier : Z)
  | RunFunctor (batch_size num_classes num_samples : Z).

(** The part of [OpKernelContext] the kernel touches: the status, the
    output tensor once allocated (its shape and the cells written so
    far; an allocated cell that was never written is absent from the
    map), the log of calls, and the blocks into which the worker pool of
    the device splits [total] rows of a given cost. *)
Record OpKernelContext := mkCtx {
  status : Status;
  output_shape : option (list Z);
  output_cells : gmap (Z * Z) Z;
  calls : list Event;
  worker_blocks : Z -> Z -> list (Z * Z)
}.

Definition CtxFailure (ctx : OpKernelContext) (s : Status) : OpKernelContext :=
  mkCtx s (output_shape ctx) (output_cells ctx) (calls ctx) (worker_blocks ctx).

Definition log_call (ctx : OpKernelContext) (e : Event) : OpKernelContext :=
  mkCtx (status ctx) (output_shape ctx) (output_cells ctx)
        (calls ctx ++ [e]) (worker_blocks ctx).

(** [ctx->allocate_output(0, shape, &samples_t)]. *)
Definition allocate_output (ctx : OpKernelContext) (sh : list Z)
    : OpKernelContext :=
  mkCtx (status ctx) (Some sh) ∅ (calls ctx ++ [AllocateOutput sh])
        (worker_blocks ctx).

(** Modelled from the spec: GuardedPhiloxRandom (guarded_philox_random.h
    is not among the sources): the generator owned by a kernel, "advanced
    per call": a reservation returns the current generator and moves the
    stored one past the reserved samples. *)
Record GuardedPhiloxRandom := mkGuarded { guarded_generator : PhiloxRandom }.

Definition ReserveRandomOutputs (g : GuardedPhiloxRandom)
    (output_count multiplier : Z) : PhiloxRandom * GuardedPhiloxRandom :=
  (guarded_generator g,
   mkGuarded (Skip (guarded_generator g) (int64 (output_count * multiplier)))).

(** [OP_REQUIRES(ctx, cond, err)] followed by the rest of the function:
    on a failed condition the status is set and the function returns. *)
Notation "'OP_REQUIRES' ctx , g , cond , err ;; rest" :=
  (if cond then rest else (CtxFailure ctx err, g))
  (at level 10, ctx at level 0, g at level 0, cond at level 99,
   err at level 99, rest at level 200, only parsing).

Section Op.

Context (A : DoubleOps) (generate : Z -> Z -> list Z).

(** The cost estimate handed to the sharder,
    [50 * (num_samples * log(num_classes) / log(2) + num_classes)], is
    computed in floating point and only steers the choice of blocks. *)
Context (DoWork_cost : Z -> Z -> Z).

(** [MultinomialOp<CPUDevice, T, OutputType>::DoCompute].  With the CPU
    device no GPU scratch is allocated and the rounded sample count is
    doubled; the allocation of the output is taken to succeed. *)
Definition DoCompute (ctx : OpKernelContext) (logits_t : Tensor A)
    (num_samples_t : Tensor Z) (generator : GuardedPhiloxRandom)
    : OpKernelContext * GuardedPhiloxRandom :=
  OP_REQUIRES ctx, generator, IsMatrix (shape logits_t),
    InvalidArgument "logits should be a matrix, got shape " ;;
  OP_REQUIRES ctx, generator, IsScalar (shape num_samples_t),
    InvalidArgument "num_samples should be a scalar, got shape " ;;
  let num_samples := scalar num_samples_t in
  OP_REQUIRES ctx, generator, 0 <=? num_samples,
    InvalidArgument "num_samples should be nonnegative, got " ;;
  OP_REQUIRES ctx, generator,
    forallb (fun i => int32 (dim_size logits_t i) =? dim_size logits_t i)
            [0; 1],
    InvalidArgument "logits.shape = <shape> too large for int" ;;
  let batch_size := int32 (dim_size logits_t 0) in
  let num_classes := int32 (dim_size logits_t 1) in
  OP_REQUIRES ctx, generator, 0 <? num_classes,
    InvalidArgument "num_classes should be positive, got " ;;
  let ctx := allocate_output ctx [batch_size; num_samples] in
  if 0 <? NumElements [batch_size; num_samples] then
    let num_samples_ceil_4 := int32 (Z.quot (int32 (num_samples + 3)) 4 * 4) in
    let num_samples_ceil_4 := int32 (num_samples_ceil_4 * 2) in
    let '(rng, generator) :=
      ReserveRandomOutputs generator
        (int32 (batch_size * num_samples_ceil_4)) 256 in
    let ctx :=
      log_call ctx (ReserveOutputs (int32 (batch_size * num_samples_ceil_4))
                                   256) in
    let ctx := log_call ctx (RunFunctor batch_size num_classes num_samples) in
    let plan :=
      worker_blocks ctx batch_size (DoWork_cost num_samples num_classes) in
    (mkCtx (status ctx) (output_shape ctx)
           (MultinomialFunctor A generate (matrix logits_t) num_classes
              num_samples rng plan (output_cells ctx))
           (calls ctx) (worker_blocks ctx),
     generator)
  else (ctx, generator).

(** [StatefulMultinomialOp::Compute]: the kernel owns [generator_]. *)
Definition StatefulCompute (generator_ : GuardedPhiloxRandom)
    (ctx : OpKernelContext) (logits_t : Tensor A) (num_samples_t : Tensor Z)
    : OpKernelContext * GuardedPhiloxRandom :=
  DoCompute ctx logits_t num_samples_t generator_.

(** Modelled from the spec: GenerateKey (stateless_random_ops.h is not
    among the sources): "derives (key, counter) purely from
    caller-supplied seed material"; a failure status of the derivation is
    not modelled. *)
Context (GenerateKey : Tensor Z -> Z * Z).

(** [StatelessMultinomialOp::Compute]: the generator handed to
    [DoCompute] is a local built from the seed; the member [generator_]
    of the kernel is returned as it came in. *)
Definition StatelessCompute (generator_ : GuardedPhiloxRandom)
    (ctx : OpKernelContext) (logits_t : Tensor A) (num_samples_t : Tensor Z)
    (seed_t : Tensor Z) : OpKernelContext * GuardedPhiloxRandom :=
  OP_REQUIRES ctx, generator_,
    (dims seed_t =? 1) && (dim_size seed_t 0 =? 2),
    InvalidArgument "seed must have shape [2], not " ;;
  let '(key, counter) := GenerateKey seed_t in
  let generator := mkGuarded (mkPhilox key counter) in
  (fst (DoCompute ctx logits_t num_samples_t generator), generator_).

End Op.

(** ** Notions the statements use *)

(** *** Validation *)

(** A dimension fits an [int]: the test [static_cast<int>(dim) == dim]. *)
Definition fits_int (d : Z) : Prop := - 2 ^ 31 <= d < 2 ^ 31.

(** The status is an invalid-argument error. *)
Definition is_invalid_argument (s : Status) : Prop :=
  exists msg, s = InvalidArgument msg.

(** The op left no trace on its collaborators: no output allocated, no
    call logged, no cell written, the generator where it was. *)
Definition untouched (ctx ctx' : OpKernelContext)
    (g g' : GuardedPhiloxRandom) : Prop :=
  output_shape ctx' = output_shape ctx /\ calls ctx' = calls ctx /\
  output_cells ctx' = output_cells ctx /\ g' = g.

(** Every dimension of a tensor shape is non-negative. *)
Definition tensor_wf {V} (t : Tensor V) : Prop :=
  Forall (fun d => 0 <= d) (shape t).

(** The validation failures of the spec's list: logits not rank-2,
    num_samples not a scalar or negative, no class. *)
Definition listed_failure {V} (logits_t : Tensor V) (num_samples_t : Tensor Z)
    : Prop :=
  length (shape logits_t) <> 2%nat \/
  length (shape num_samples_t) <> 0%nat \/
  scalar num_samples_t < 0 \/
  dim_size logits_t 1 = 0.

(** The failures the kernel checks for: the listed ones and a logits
    dimension that does not fit an [int]. *)
Definition validation_fails {V} (logits_t : Tensor V)
    (num_samples_t : Tensor Z) : Prop :=
  listed_failure logits_t num_samples_t \/
  ~ fits_int (dim_size logits_t 0) \/ ~ fits_int (dim_size logits_t 1).

(** The five checks of [DoCompute], as one boolean. *)
Definition checks_pass {V} (logits_t : Tensor V) (num_samples_t : Tensor Z)
    : bool :=
  IsMatrix (shape logits_t) && IsScalar (shape num_samples_t) &&
  (0 <=? scalar num_samples_t) &&
  forallb (fun i => int32 (dim_size logits_t i) =? dim_size logits_t i)
          [0; 1] &&
  (0 <? int32 (dim_size logits_t 1)).

(** *** The stream of doubles and the cells of a shard *)

Section SamplerNotions.

Context (A : DoubleOps) (generate : Z -> Z -> list Z).

(** The state of the generator after [n] calls of [RandDouble]. *)
Fixpoint advance (n : nat) (s : SimplePhilox) : SimplePhilox :=
  match n with
  | O => s
  | S n' => advance n' (snd (RandDouble A generate s))
  end.

(** The double returned by call number [n] (from 0) of [RandDouble]. *)
Definition nth_double (n : nat) (s : SimplePhilox) : A :=
  fst (RandDouble A generate (advance n s)).

(** Double number [n] of the stream that starts at the counter of [g]:
    two doubles per block, from words 0, 1 and from words 2, 3. *)
Definition double_at (g : PhiloxRandom) (n : nat) : A :=
  let blk := generate (key_ g) ((counter_ g + Z.of_nat (n / 2)) mod 2 ^ 128) in
  Uint64ToDouble A (nth (2 * (n mod 2)) blk 0) (nth (2 * (n mod 2) + 1) blk 0).

Context (logits : Z -> Z -> A) (num_classes num_samples : Z)
        (gen : PhiloxRandom).

(** The index that a shard starting at [start_row] writes to cell
    [(b, j)]: the search of row [b]'s CDF for double number
    [(b - start_row) * num_samples + j] of the shard's stream, scaled by
    the row total. *)
Definition sample_at (start_row b j : Z) : Z :=
  let '(cdf, running_total) := build_cdf A (logits_row A logits num_classes b) in
  let r :=
    nth_double (Z.to_nat ((b - start_row) * num_samples + j))
      (SimplePhilox_new (Skip gen (skip_count num_samples start_row))) in
  Z.of_nat (upper_bound A cdf (dmul A r running_total)).

End SamplerNotions.

(** Row [b] lies in the block [blk = (start, limit)]. *)
Definition in_block (blk : Z * Z) (b : Z) : Prop := fst blk <= b < snd blk.

(** The blocks of a plan do not share rows. *)
Definition plan_disjoint (plan : list (Z * Z)) : Prop :=
  forall blk blk', blk ∈ plan -> blk' ∈ plan ->
  forall b, in_block blk b -> in_block blk' b -> blk = blk'.

(** The number of generator blocks that [doubles] calls of [RandDouble]
    take from a fresh stream: two doubles per block, rounded up. *)
Definition blocks_consumed (doubles : Z) : Z := (doubles + 1) / 2.

(** *** The CDF and the search, as the spec words them *)

Section RowNotions.

Context (A : DoubleOps).

(** [exp(logit - m)]. *)
Definition shifted_exp (m x : A) : A := dexp A (dsub A x m).

(** "cdf[j] = sum over i <= j with logit[i] finite of exp(logit[i] - m)",
    added up from 0 in index order. *)
Definition cdf_sum (logits_row : list A) (m : A) (j : nat) : A :=
  fold_left (dadd A)
    (map (shifted_exp m) (List.filter (disfinite A) (take (S j) logits_row)))
    (dzero A).

(** The buffer is non-decreasing. *)
Definition non_decreasing (cdf : list A) : Prop :=
  forall i j ci cj, (i <= j)%nat ->
  cdf !! i = Some ci -> cdf !! j = Some cj -> dle A ci cj = true.

(** [j] is the least index with [cdf[j] > u]. *)
Definition least_above (cdf : list A) (u : A) (j : nat) : Prop :=
  (exists c, cdf !! j = Some c /\ dlt A u c = true) /\
  forall i c, (i < j)%nat -> cdf !! i = Some c -> dlt A u c = false.

(** [m] is the maximum of the finite logits of the row. *)
Definition is_finite_max (logits_row : list A) (m : A) : Prop :=
  (In m logits_row /\ disfinite A m = true) /\
  forall x, In x logits_row -> disfinite A x = true -> dlt A m x = false.

(** The running totals of the accumulation loop, from [total]. *)
Fixpoint running_totals (m : A) (logits_row : list A) (total : A) : list A :=
  match logits_row with
  | [] => []
  | x :: rest =>
      let total' :=
        if disfinite A x then dadd A total (shifted_exp m x) else total in
      total' :: running_totals m rest total'
  end.

End RowNotions.

(** *** The laws of the arithmetic *)

(** A running total that lies between 0 and the integer [n]. *)
Definition bounded (A : DoubleOps) (n : Z) (t : A) : Prop :=
  dle A (dzero A) t = true /\ dle A t (dofZ A n) = true.

(** What the numeric theorems assume of the arithmetic.  Each law is a
    property of IEEE binary64 with round-to-nearest and a faithful [exp]
    (rounding is monotone, [x - x = 0], [exp(0) = 1], a sum of at most
    [2^31] terms of [0, 1] stays below an exactly representable bound,
    and a product [u * t] with [u <= 1 - 2^-52] and a finite [t >= 1]
    rounds below [t]).  They are hypotheses of the numeric theorems, and
    are proved below for the exact extended reals and, from the standard
    library's specification of the primitive floats, for binary64 with any
    [exp] that has the three properties of [ExpLaws]. *)
Record DoubleLaws (A : DoubleOps) : Prop := mkDoubleLaws {
  law_lt_irrefl : forall x : A, dlt A x x = false;
  law_lt_trans : forall x y z : A,
    dlt A x y = true -> dlt A y z = true -> dlt A x z = true;
  law_lt_le_trans : forall x y z : A,
    dlt A x y = true -> dle A y z = true -> dlt A x z = true;
  law_le_trans : forall x y z : A,
    dle A x y = true -> dle A y z = true -> dle A x z = true;
  law_le_refl : forall x : A, disfinite A x = true -> dle A x x = true;
  law_lowest : forall x : A,
    disfinite A x = true -> dlt A (dlowest A) x = false -> x = dlowest A;
  law_zero : bounded A 0 (dzero A);
  law_exp_diag : forall m : A,
    disfinite A m = true -> dexp A (dsub A m m) = dunit A;
  law_exp_nonneg : forall x m : A,
    disfinite A x = true -> disfinite A m = true ->
    dle A (dzero A) (dexp A (dsub A x m)) = true;
  law_exp_le_one : forall x m : A,
    disfinite A x = true -> disfinite A m = true -> dlt A m x = false ->
    dle A (dexp A (dsub A x m)) (dunit A) = true;
  law_add_le_l : forall x y : A,
    dle A (dzero A) x = true -> dle A (dzero A) y = true ->
    dle A x (dadd A x y) = true;
  law_add_le_r : forall x y : A,
    dle A (dzero A) x = true -> dle A (dzero A) y = true ->
    dle A y (dadd A x y) = true;
  law_add_bound : forall (x y : A) (n : Z),
    0 <= n < 2 ^ 31 ->
    dle A (dzero A) x = true -> dle A (dzero A) y = true ->
    dle A x (dofZ A n) = true -> dle A y (dunit A) = true ->
    dle A (dadd A x y) (dofZ A (n + 1)) = true;
  law_bounded_finite : forall (x : A) (n : Z),
    0 <= n <= 2 ^ 31 ->
    dle A (dzero A) x = true -> dle A x (dofZ A n) = true ->
    disfinite A x = true;
  law_unit_mul_lt : forall (x0 x1 : Z) (t : A),
    dle A (dunit A) t = true -> disfinite A t = true ->
    dlt A (dmul A (Uint64ToDouble A x0 x1) t) t = true;
  law_unit_mul_nonneg : forall (x0 x1 : Z) (t : A),
    dle A (dunit A) t = true -> disfinite A t = true ->
    dle A (dzero A) (dmul A (Uint64ToDouble A x0 x1) t) = true
}.

(** ** Two arithmetics *)

(** *** IEEE binary64 *)

Definition b64_isfinite (x : float) : bool :=
  negb (PrimFloat.is_nan x || PrimFloat.is_infinity x).

(** [numeric_limits<double>::lowest()]. *)
Definition b64_lowest : float := (-0x1.fffffffffffffp+1023)%float.

Definition b64_ofZ (z : Z) : float := PrimFloat.of_uint63 (Uint63.of_Z z).

(** The 52 mantissa bits a pair of generator words contributes: the low
    20 bits of the first word above the 32 bits of the second. *)
Definition mantissa_bits (x0 x1 : Z) : Z :=
  (x0 mod 2 ^ 20) * 2 ^ 32 + x1 mod 2 ^ 32.

(** Modelled from the spec: Uint64ToDouble (random_distributions.h is not
    among the sources), the "uniform value" in [0, 1) made of two words:
    the double [1.mantissa] of the binade [1, 2), minus one. *)
Definition b64_Uint64ToDouble (x0 x1 : Z) : float :=
  (PrimFloat.of_uint63 (Uint63.of_Z (2 ^ 52 + mantissa_bits x0 x1))
   * 0x1p-52 - 1)%float.

(** The instance leaves [exp] open: the exponential is the C library's,
    not the repository's. *)
Definition binary64 (exp : float -> float) : DoubleOps :=
  mkDoubleOps float 0%float 1%float b64_ofZ PrimFloat.add PrimFloat.sub
    PrimFloat.mul exp PrimFloat.ltb PrimFloat.leb b64_isfinite b64_lowest
    b64_Uint64ToDouble.

(** *** Binary64 values as integers

    The specification of the primitive floats gives every operation as a
    rounding of [spec_float] values.  To reason about the order of the
    results, a value [m * 2^e] is measured by the integer [m * 2^(e+2148)]:
    exponents of doubles are at least [-1074], those of an exact product at
    least [-2148]. *)

(** The bits shifted out so far were not all zero. *)
Definition inexact (mrs : shr_record) : bool := shr_r mrs || shr_s mrs.

(** The weight of the exponent [e], scaled so that every exponent an exact
    sum, difference or product of two doubles can have gives an integer. *)
Definition sc (e : Z) : Z := 2 ^ (e + 2148).

(** Above the magnitude of every finite double. *)
Definition mag_infinity : Z := 2 ^ 4400.

Definition mag (x : spec_float) : Z :=
  match x with
  | S754_finite _ m e => Zpos m * sc e
  | S754_infinity _ => mag_infinity
  | _ => 0
  end.

Definition sign_of (x : spec_float) : bool :=
  match x with
  | S754_zero s | S754_infinity s | S754_finite s _ _ => s
  | S754_nan => false
  end.

(** The position of a double on the number line, as an integer. *)
Definition rank (x : spec_float) : Z :=
  if sign_of x then - mag x else mag x.

Definition is_nan_sf (x : spec_float) : bool :=
  match x with S754_nan => true | _ => false end.

Definition valid (x : spec_float) : Prop := valid_binary x = true.

(** The exponent the mantissa [M] at exponent [E] is rounded at. *)
Definition round_exp (M : positive) (E : Z) : Z :=
  Z.max (Zpos (digits2_pos M) + E - 53) (-1074).

(** The second half of [binary_round_aux]: renormalise the rounded mantissa
    and detect overflow. *)
Definition round_finish (sx : bool) (m e : Z) : spec_float :=
  let '(mrs, e') := shr_fexp prec emax m e loc_Exact in
  match shr_m mrs with
  | Z0 => S754_zero sx
  | Zpos m' =>
      if e' <=? emax - prec then S754_finite sx m' e' else S754_infinity sx
  | Zneg _ => S754_nan
  end.

(** What rounding the exact magnitude [V] with the sign [s] may give: never
    NaN, the sign kept, and no representable magnitude jumped over. *)
Definition rounds (s : bool) (V : Z) (R : spec_float) : Prop :=
  is_nan_sf R = false /\ sign_of R = s /\
  (forall m0 e0, 0 <= m0 < 2 ^ 53 -> -1074 <= e0 <= 971 ->
     m0 * sc e0 <= V -> m0 * sc e0 <= mag R) /\
  (forall m0 e0, 0 <= m0 < 2 ^ 53 -> -1074 <= e0 <= 971 ->
     V <= m0 * sc e0 -> mag R <= m0 * sc e0).

(** Rounding of a signed exact value; an exact zero gives [+0]. *)
Definition rounds_signed (V : Z) (R : spec_float) : Prop :=
  (V = 0 /\ R = S754_zero false) \/
  (0 < V /\ rounds false V R) \/
  (V < 0 /\ rounds true (- V) R).

Definition sf_finite (x : spec_float) : bool :=
  match x with
  | S754_zero _ | S754_finite _ _ _ => true
  | _ => false
  end.

(** The position of a binary64 value on the number line. *)
Definition fr (x : float) : Z := rank (Prim2SF x).

(** What is assumed of the C library's [exp]. *)
Record ExpLaws (exp : float -> float) : Prop := mkExpLaws {
  exp_zero : exp 0%float = 1%float;
  exp_nonneg : forall y : float,
    PrimFloat.is_nan y = false -> PrimFloat.leb 0 (exp y) = true;
  exp_le_one : forall y : float,
    PrimFloat.leb y 0 = true -> PrimFloat.leb (exp y) 1 = true
}.

(** *** Exact extended reals *)

Inductive xreal :=
  | XNan
  | XInf (negative : bool)
  | XFin (r : R).

Definition Rltb (x y : R) : bool := if Rlt_dec x y then true else false.
Definition Rleb (x y : R) : bool := if Rle_dec x y then true else false.

(** The largest magnitude that counts as finite, as for binary64. *)
Definition xmax : R := IZR (2 ^ 1024 - 2 ^ 971).

Definition xisfinite (x : xreal) : bool :=
  match x with
  | XFin r => Rleb (- xmax) r && Rleb r xmax
  | _ => false
  end.

Definition xneg (x : xreal) : xreal :=
  match x with
  | XNan => XNan
  | XInf s => XInf (negb s)
  | XFin r => XFin (- r)
  end.

Definition xadd (x y : xreal) : xreal :=
  match x, y with
  | XFin a, XFin b => XFin (a + b)
  | XInf s, XFin _ => XInf s
  | XFin _, XInf s => XInf s
  | XInf s, XInf s' => if Bool.eqb s s' then XInf s else XNan
  | _, _ => XNan
  end.

Definition xsub (x y : xreal) : xreal := xadd x (xneg y).

Definition xscale (s : bool) (r : R) : xreal :=
  if Rltb 0 r then XInf s
  else if Rltb r 0 then XInf (negb s) else XNan.

Definition xmul (x y : xreal) : xreal :=
  match x, y with
  | XFin a, XFin b => XFin (a * b)
  | XInf s, XFin r => xscale s r
  | XFin r, XInf s => xscale s r
  | XInf s, XInf s' => XInf (xorb s s')
  | _, _ => XNan
  end.

Definition xexp (x : xreal) : xreal :=
  match x with
  | XNan => XNan
  | XInf true => XFin 0
  | XInf false => XInf false
  | XFin r => XFin (exp r)
  end.

Definition xlt (x y : xreal) : bool :=
  match x, y with
  | XFin a, XFin b => Rltb a b
  | XInf true, XFin _ => true
  | XInf true, XInf false => true
  | XFin _, XInf false => true
  | _, _ => false
  end.

Definition xle (x y : xreal) : bool :=
  match x, y with
  | XFin a, XFin b => Rleb a b
  | XInf true, XFin _ => true
  | XInf s, XInf s' => implb s' s
  | XFin _, XInf false => true
  | _, _ => false
  end.

Definition xUint64ToDouble (x0 x1 : Z) : xreal :=
  XFin (IZR (mantissa_bits x0 x1) / IZR (2 ^ 52)).

Definition exact_reals : DoubleOps :=
  mkDoubleOps xreal (XFin 0) (XFin 1) (fun z => XFin (IZR z)) xadd xsub xmul
    xexp xlt xle xisfinite (XFin (- xmax)) xUint64ToDouble.

(** ** Inputs of concrete runs *)

(** The parts of a run that the sources leave open are filled in here
    for the concrete runs below: the exponential, the block function of
    the generator, the cost estimate and the key derivation. *)

(** The one value of the exponential that is fixed exactly,
    [exp(+-0) = 1]; elsewhere this stand-in answers NaN, so that a
    concrete run that depended on any other value would show it. *)
Definition exp_at_zero (x : float) : float :=
  if PrimFloat.eqb x 0%float then 1%float else PrimFloat.nan.

(** A stand-in with the three properties assumed of [exp]: a step
    function, 1/2 below zero, 1 at zero and 2 above. *)
Definition exp_steps (x : float) : float :=
  if PrimFloat.ltb x 0%float then 0.5%float
  else if PrimFloat.leb x 0%float then 1%float
  else if PrimFloat.is_nan x then x else 2%float.

(** Modelled from the spec: GenerateKey as the library implements it
    (stateless_random_ops.cc is not among the sources): the two seeds are
    put into the counter of a Philox generator with a fixed key, and one
    block of that generator gives the key (words 0, 1) and the upper half
    of the counter (words 2, 3) of the generator of the op; the lower half
    of the counter is zero. *)
Definition GenerateKey_philox (seed_t : Tensor Z) : Z * Z :=
  let seed0 := uint64 (flat seed_t 0) in
  let seed1 := uint64 (flat seed_t 1) in
  let mix := philox4x32 (0x3ec8f720 + 2 ^ 32 * 0x02461e29)
                        (seed0 + 2 ^ 64 * seed1) in
  (nth 0 mix 0 + 2 ^ 32 * nth 1 mix 0,
   2 ^ 64 * nth 2 mix 0 + 2 ^ 96 * nth 3 mix 0).

(** A second, transparent block function for concrete runs whose point
    does not rest on the words of the generator: word [i] of block [c] is
    [key + c * 2^19 + i] on 32 bits, so that the first double of block 0
    is next to 0 and the first double of block 1 is next to 1/2. *)
Definition counting_blocks (key counter : Z) : list Z :=
  map (fun i => (key + counter * 2 ^ 19 + i) mod 2 ^ 32) [0; 1; 2; 3].

(** An integer stand-in for the floating-point cost estimate; the device
    of [fresh_ctx] ignores it. *)
Definition flat_cost (num_samples num_classes : Z) : Z :=
  50 * (num_samples + num_classes).

(** A key derivation for concrete runs: the two seed words. *)
Definition seed_words (seed_t : Tensor Z) : Z * Z :=
  (flat seed_t 0, flat seed_t 1).

(** The binary64 arithmetic of the concrete runs. *)
Definition b64 : DoubleOps := binary64 exp_at_zero.

(** A rank-2 tensor from its rows. *)
Definition matrix_tensor {V} (dflt : V) (rows : list (list V)) : Tensor V :=
  mkTensor [Z.of_nat (length rows); Z.of_nat (length (hd [] rows))]
           (fun i => nth (Z.to_nat i) (concat rows) dflt).

Definition scalar_tensor {V} (v : V) : Tensor V := mkTensor [] (fun _ => v).

Definition vector_tensor (vs : list Z) : Tensor Z :=
  mkTensor [Z.of_nat (length vs)] (fun i => nth (Z.to_nat i) vs 0).

(** A context before the kernel runs, on a device whose pool always
    splits the rows into the blocks [plan]. *)
Definition fresh_ctx (plan : list (Z * Z)) : OpKernelContext :=
  mkCtx OK None ∅ [] (fun _ _ => plan).

(** Logits of shape [1, 2^31]: rank 2, one row, too many classes for an
    [int]. *)
Definition wide_logits : Tensor b64 :=
  mkTensor [1; 2 ^ 31] (fun _ => 0%float).

(** Logits of shape [0, 3]: an empty batch. *)
Definition empty_batch : Tensor b64 := mkTensor [0; 3] (fun _ => 0%float).

Definition gen0 : GuardedPhiloxRandom := mkGuarded (mkPhilox 0 0).

(** Two rows of two classes with equal logits. *)
Definition even_logits : Tensor b64 :=
  matrix_tensor PrimFloat.nan [[0%float; 0%float]; [0%float; 0%float]].

(** Two rows of sixteen classes with equal logits. *)
Definition sixteen_logits : Tensor b64 :=
  matrix_tensor PrimFloat.nan [repeat 0%float 16; repeat 0%float 16].

(** Two rows that differ from [even_logits] in the second row only. *)
Definition uneven_logits : Tensor b64 :=
  matrix_tensor PrimFloat.nan [[0%float; 0%float]; [1%float; 0%float]].

(** A row without a finite logit, and a single class that is NaN. *)
Definition hopeless_logits : Tensor b64 :=
  matrix_tensor PrimFloat.nan [[neg_infinity; PrimFloat.nan]].

Definition nan_logit : Tensor b64 :=
  matrix_tensor PrimFloat.nan [[PrimFloat.nan]].

Definition minus_infinity_logit : Tensor b64 :=
  matrix_tensor PrimFloat.nan [[neg_infinity]].

(** One row of two equal finite logits, and one row of a single finite
    logit, over the exact reals. *)
Definition exact_pair : Tensor exact_reals :=
  matrix_tensor XNan [[XFin 0; XFin 0]].

Definition exact_single : Tensor exact_reals := matrix_tensor XNan [[XFin 0]].

(** One row of a single finite logit. *)
Definition single_logit : Tensor b64 := matrix_tensor PrimFloat.nan [[0%float]].

(** One row where only class 1 has a finite logit. *)
Definition one_hot_logits : Tensor b64 :=
  matrix_tensor PrimFloat.nan [[neg_infinity; 0%float; neg_infinity]].

(** * Properties *)

(** ** Validation and dispatch *)

Lemma int32_fits d : int32 d = d <-> fits_int d.
Proof.
  unfold int32, wrap_signed, fits_int.
  change (2 ^ (32 - 1)) with (2 ^ 31). change (2 ^ 32) with (2 * 2 ^ 31).
  pose proof (Z.mod_pos_bound (d + 2 ^ 31) (2 * 2 ^ 31) ltac:(lia)) as Hb.
  split; intros H.
  - lia.
  - rewrite Z.mod_small by lia. lia.
Qed.

Lemma int32_eqb_fits d : (int32 d =? d) = true <-> fits_int d.
Proof. rewrite Z.eqb_eq. apply int32_fits. Qed.

Lemma seed_check_shape (seed_t : Tensor Z) :
  (dims seed_t =? 1) && (dim_size seed_t 0 =? 2) = true <-> shape seed_t = [2].
Proof.
  unfold dims, dim_size. destruct seed_t as [sh f]; simpl.
  rewrite andb_true_iff, !Z.eqb_eq.
  destruct sh as [|d [|d' sh]]; simpl; split; intros H;
    try (destruct H; lia); try discriminate.
  - destruct H as [_ ->]. reflexivity.
  - inversion H. lia.
Qed.

Section OpProperties.

Context (A : DoubleOps) (generate : Z -> Z -> list Z)
        (DoWork_cost : Z -> Z -> Z) (GenerateKey : Tensor Z -> Z * Z).

Local Abbreviation DoCompute' := (DoCompute A generate DoWork_cost).
Local Abbreviation StatelessCompute' :=
  (StatelessCompute A generate DoWork_cost GenerateKey).

Lemma checks_pass_iff (logits_t : Tensor A) num_samples_t :
  tensor_wf logits_t ->
  checks_pass logits_t num_samples_t = true <->
  ~ validation_fails logits_t num_samples_t.
Proof.
  intros Hwf. unfold checks_pass, validation_fails, listed_failure, IsMatrix,
    IsScalar. simpl forallb.
  rewrite !andb_true_iff, !Nat.eqb_eq, Z.leb_le, Z.ltb_lt, !int32_eqb_fits.
  split.
  - intros [[[[Hm Hs] Hk] [H0 [H1 _]]] Hc].
    pose proof (proj2 (int32_fits _) H1) as H1'. rewrite H1' in Hc.
    intros [[?|[?|[?|?]]]|[?|?]]; try contradiction; lia.
  - intros Hn.
    assert (Hm : length (shape logits_t) = 2%nat).
    { destruct (decide (length (shape logits_t) = 2%nat)); [done|].
      exfalso; apply Hn; auto. }
    assert (H1 : fits_int (dim_size logits_t 1)).
    { unfold fits_int.
      destruct (decide (- 2 ^ 31 <= dim_size logits_t 1 < 2 ^ 31)); [done|].
      exfalso; apply Hn. right; right. exact n. }
    assert (H0 : fits_int (dim_size logits_t 0)).
    { unfold fits_int.
      destruct (decide (- 2 ^ 31 <= dim_size logits_t 0 < 2 ^ 31)); [done|].
      exfalso; apply Hn. right; left. exact n. }
    assert (Hpos : 0 <= dim_size logits_t 1).
    { unfold dim_size, tensor_wf in *.
      destruct (shape logits_t) as [|d0 [|d1 [|]]];
        simpl in Hm; try discriminate.
      rewrite !Forall_cons in Hwf. destruct Hwf as (_ & ? & _). simpl. lia. }
    split; [split; [split; [split; [exact Hm|]|]
                  |split; [exact H0|split; [exact H1|reflexivity]]]|].
    + destruct (decide (length (shape num_samples_t) = 0%nat)); [done|].
      exfalso; apply Hn; auto.
    + destruct (decide (0 <= scalar num_samples_t)); [done|].
      exfalso; apply Hn. left. right; right; left. lia.
    + apply int32_fits in H1. rewrite H1.
      destruct (decide (dim_size logits_t 1 = 0)); [|lia].
      exfalso; apply Hn. left. right; right; right. done.
Qed.

(** When a check fails, [DoCompute] only sets an invalid-argument status. *)
Lemma DoCompute_rejects ctx (logits_t : Tensor A) num_samples_t generator :
  checks_pass logits_t num_samples_t = false ->
  exists msg,
    DoCompute' ctx logits_t num_samples_t generator =
    (CtxFailure ctx (InvalidArgument msg), generator).
Proof.
  unfold checks_pass, DoCompute. intros H.
  destruct (IsMatrix (shape logits_t)); [|eauto].
  destruct (IsScalar (shape num_samples_t)); [|eauto].
  destruct (0 <=? scalar num_samples_t); [|eauto].
  destruct (forallb _ _); [|eauto].
  destruct (0 <? int32 (dim_size logits_t 1)); [|eauto].
  discriminate.
Qed.

(** When all checks pass, the output is allocated and the status kept. *)
Lemma DoCompute_accepts ctx (logits_t : Tensor A) num_samples_t generator :
  checks_pass logits_t num_samples_t = true ->
  let r := DoCompute' ctx logits_t num_samples_t generator in
  status (fst r) = status ctx /\
  output_shape (fst r) =
    Some [int32 (dim_size logits_t 0); scalar num_samples_t].
Proof.
  unfold checks_pass, DoCompute. rewrite !andb_true_iff.
  intros [[[[-> ->] ->] ->] ->].
  destruct (0 <? NumElements _); simpl; auto.
Qed.

Lemma CtxFailure_untouched ctx err g :
  untouched ctx (CtxFailure ctx err) g g.
Proof. unfold untouched. simpl. auto. Qed.

Lemma StatelessCompute_seed_ok g ctx (logits_t : Tensor A) num_samples_t seed_t :
  shape seed_t = [2] ->
  StatelessCompute' g ctx logits_t num_samples_t seed_t =
  (fst (DoCompute' ctx logits_t num_samples_t
          (mkGuarded (mkPhilox (fst (GenerateKey seed_t))
                               (snd (GenerateKey seed_t))))), g).
Proof.
  intros Hs. unfold StatelessCompute.
  rewrite (proj2 (seed_check_shape seed_t) Hs).
  destruct (GenerateKey seed_t); reflexivity.
Qed.

Lemma StatelessCompute_seed_bad g ctx (logits_t : Tensor A) num_samples_t seed_t :
  shape seed_t <> [2] ->
  StatelessCompute' g ctx logits_t num_samples_t seed_t =
  (CtxFailure ctx (InvalidArgument "seed must have shape [2], not "), g).
Proof.
  intros Hs. unfold StatelessCompute.
  destruct ((dims seed_t =? 1) && (dim_size seed_t 0 =? 2)) eqn:E;
    [|reflexivity].
  apply seed_check_shape in E. contradiction.
Qed.

(** C7, as amended.  With a context whose status is OK, [DoCompute]
    reports an invalid-argument error exactly when the logits are not
    rank-2, num_samples is not a scalar, num_samples is negative, there is
    no class, or a dimension of the logits does not fit an [int]; the
    stateless op also when the seed does not have shape [2].  When it
    does, no output was allocated, no call was made on the generator or
    the functor, and the generator is where it was. *)
Theorem validation_reports_invalid_argument
    ctx (logits_t : Tensor A) num_samples_t seed_t generator :
  status ctx = OK -> tensor_wf logits_t ->
  let r := DoCompute' ctx logits_t num_samples_t generator in
  let r' := StatelessCompute' generator ctx logits_t num_samples_t seed_t in
  (is_invalid_argument (status (fst r)) <->
   validation_fails logits_t num_samples_t) /\
  (is_invalid_argument (status (fst r)) ->
   untouched ctx (fst r) generator (snd r)) /\
  (is_invalid_argument (status (fst r')) <->
   shape seed_t <> [2] \/ validation_fails logits_t num_samples_t) /\
  (is_invalid_argument (status (fst r')) ->
   untouched ctx (fst r') generator (snd r')).
Proof.
  intros Hok Hwf r r'. subst r r'.
  pose proof (checks_pass_iff logits_t num_samples_t Hwf) as Hiff.
  destruct (checks_pass logits_t num_samples_t) eqn:Hc.
  - assert (Hv : ~ validation_fails logits_t num_samples_t) by (apply Hiff; done).
    assert (Hacc : forall g, ~ is_invalid_argument
              (status (fst (DoCompute' ctx logits_t num_samples_t g)))).
    { intros g [msg Hmsg].
      destruct (DoCompute_accepts ctx logits_t num_samples_t g Hc) as [Hst _].
      rewrite Hst, Hok in Hmsg. discriminate. }
    split; [split; [intros H; destruct (Hacc _ H) | contradiction]|].
    split; [intros H; destruct (Hacc _ H)|].
    destruct (decide (shape seed_t = [2])) as [Hs|Hs].
    + rewrite (StatelessCompute_seed_ok _ _ _ _ _ Hs). simpl.
      split; [split|]; try (intros H; destruct (Hacc _ H)).
      intros [?|?]; contradiction.
    + rewrite (StatelessCompute_seed_bad _ _ _ _ _ Hs). simpl.
      split; [split; [auto | intros _; eexists; reflexivity]|].
      intros _. apply CtxFailure_untouched.
  - assert (Hv : validation_fails logits_t num_samples_t).
    { destruct (decide (validation_fails logits_t num_samples_t)) as [|n];
        [done|]. apply Hiff in n. discriminate. }
    assert (Hrej : forall g, exists msg,
              DoCompute' ctx logits_t num_samples_t g =
              (CtxFailure ctx (InvalidArgument msg), g))
      by (intros g; apply DoCompute_rejects; exact Hc).
    destruct (Hrej generator) as [msg ->]. simpl.
    split; [split; [auto | intros _; eexists; reflexivity]|].
    split; [intros _; apply CtxFailure_untouched|].
    destruct (decide (shape seed_t = [2])) as [Hs|Hs].
    + rewrite (StatelessCompute_seed_ok _ _ _ _ _ Hs).
      destruct (Hrej (mkGuarded (mkPhilox (fst (GenerateKey seed_t))
                                          (snd (GenerateKey seed_t)))))
        as [msg' ->]. simpl.
      split; [split; [auto | intros _; eexists; reflexivity]|].
      intros _. apply CtxFailure_untouched.
    + rewrite (StatelessCompute_seed_bad _ _ _ _ _ Hs). simpl.
      split; [split; [auto | intros _; eexists; reflexivity]|].
      intros _. apply CtxFailure_untouched.
Qed.

(** C8.  When validation passes and the batch size or the sample count
    is 0, the op allocates an output of shape [B, K] and returns: no cell
    is written, the only call logged is the allocation (the functor is
    not run, no random outputs are reserved), the status is kept and the
    generator is where it was; the same holds for the stateless op. *)
Theorem empty_output_short_circuit
    ctx (logits_t : Tensor A) num_samples_t seed_t generator :
  tensor_wf logits_t ->
  ~ validation_fails logits_t num_samples_t ->
  dim_size logits_t 0 = 0 \/ scalar num_samples_t = 0 ->
  let B := dim_size logits_t 0 in
  let K := scalar num_samples_t in
  DoCompute' ctx logits_t num_samples_t generator =
    (mkCtx (status ctx) (Some [B; K]) ∅ (calls ctx ++ [AllocateOutput [B; K]])
           (worker_blocks ctx), generator) /\
  (shape seed_t = [2] ->
   StatelessCompute' generator ctx logits_t num_samples_t seed_t =
    (mkCtx (status ctx) (Some [B; K]) ∅ (calls ctx ++ [AllocateOutput [B; K]])
           (worker_blocks ctx), generator)).
Proof.
  intros Hwf Hv Hz B K.
  assert (Hc := proj2 (checks_pass_iff logits_t num_samples_t Hwf) Hv).
  assert (HB : int32 (dim_size logits_t 0) = B).
  { apply int32_fits. unfold fits_int.
    destruct (decide (- 2 ^ 31 <= dim_size logits_t 0 < 2 ^ 31)); [done|].
    exfalso. apply Hv. right; left. exact n. }
  assert (Hgen : forall g, DoCompute' ctx logits_t num_samples_t g =
    (mkCtx (status ctx) (Some [B; K]) ∅ (calls ctx ++ [AllocateOutput [B; K]])
           (worker_blocks ctx), g)).
  { intros g. unfold checks_pass in Hc. rewrite !andb_true_iff in Hc.
    destruct Hc as [[[[Hc1 Hc2] Hc3] Hc4] Hc5].
    unfold DoCompute. rewrite Hc1, Hc2, Hc3, Hc4, Hc5, HB.
    fold K. assert (Hne : (0 <? NumElements [B; K]) = false).
    { apply Z.ltb_ge. unfold NumElements. simpl. subst B K.
      destruct Hz as [-> | ->]; lia. }
    rewrite Hne. reflexivity. }
  split; [apply Hgen|].
  intros Hs. rewrite (StatelessCompute_seed_ok _ _ _ _ _ Hs), Hgen.
  reflexivity.
Qed.

(** A rejected call reports an error that is fixed by the inputs: the
    context and the generator have no part in it. *)
Lemma DoCompute_rejects_alike ctx1 ctx2 (logits_t : Tensor A) num_samples_t
    generator1 generator2 :
  checks_pass logits_t num_samples_t = false ->
  exists msg,
    DoCompute' ctx1 logits_t num_samples_t generator1 =
      (CtxFailure ctx1 (InvalidArgument msg), generator1) /\
    DoCompute' ctx2 logits_t num_samples_t generator2 =
      (CtxFailure ctx2 (InvalidArgument msg), generator2).
Proof.
  unfold checks_pass, DoCompute. intros H.
  destruct (IsMatrix (shape logits_t)); [|eauto].
  destruct (IsScalar (shape num_samples_t)); [|eauto].
  destruct (0 <=? scalar num_samples_t); [|eauto].
  destruct (forallb _ _); [|eauto].
  destruct (0 <? int32 (dim_size logits_t 1)); [|eauto].
  discriminate.
Qed.

(** By contrast, a stateful call with a non-empty output moves the
    generator of the kernel past the samples it reserved. *)
Lemma stateful_advances_generator
    generator_ ctx (logits_t : Tensor A) num_samples_t :
  checks_pass logits_t num_samples_t = true ->
  let B := int32 (dim_size logits_t 0) in
  let K := scalar num_samples_t in
  0 < NumElements [B; K] ->
  snd (StatefulCompute A generate DoWork_cost generator_ ctx logits_t
         num_samples_t) =
  mkGuarded
    (Skip (guarded_generator generator_)
       (int64 (int32 (B * int32 (int32 (Z.quot (int32 (K + 3)) 4 * 4) * 2))
               * 256))).
Proof.
  unfold checks_pass, StatefulCompute, DoCompute. rewrite !andb_true_iff.
  intros [[[[-> ->] ->] ->] ->] Hn. apply Z.ltb_lt in Hn.
  rewrite Hn. reflexivity.
Qed.


End OpProperties.

(** C7, counterexample.  Logits of shape [1, 2^31] with num_samples = 1
    are rank-2, the sample count is a non-negative scalar and there are
    classes, yet the op reports an invalid-argument error. *)
Lemma validation_list_counterexample :
  status (fst (DoCompute b64 counting_blocks flat_cost (fresh_ctx [])
                 wide_logits (scalar_tensor 1) gen0)) =
    InvalidArgument "logits.shape = <shape> too large for int" /\
  ~ listed_failure wide_logits (scalar_tensor 1).
Proof.
  split; [vm_compute; reflexivity|].
  unfold listed_failure. simpl. intros [H|[H|[H|H]]]; try contradiction.
  - unfold scalar in H. simpl in H. lia.
  - vm_compute in H. discriminate.
Qed.

(** The validation theorem at the call on logits of shape [1, 2^31]. *)
Lemma validation_reports_witness :
  status (fresh_ctx []) = OK /\ tensor_wf wide_logits /\
  (is_invalid_argument
     (status (fst (DoCompute b64 counting_blocks flat_cost (fresh_ctx [])
                     wide_logits (scalar_tensor 1) gen0))) <->
   validation_fails wide_logits (scalar_tensor 1)).
Proof.
  assert (Hok : status (fresh_ctx []) = OK) by reflexivity.
  assert (Hwf : tensor_wf wide_logits)
    by (unfold tensor_wf; simpl; repeat constructor; lia).
  split; [exact Hok|]. split; [exact Hwf|].
  exact (proj1 (validation_reports_invalid_argument b64 counting_blocks
                  flat_cost seed_words (fresh_ctx []) wide_logits
                  (scalar_tensor 1) (vector_tensor [1; 2]) gen0 Hok Hwf)).
Defined.

(** The short circuit at an empty batch of shape [0, 3] with 5 samples. *)
Lemma empty_output_witness :
  DoCompute b64 counting_blocks flat_cost (fresh_ctx []) empty_batch
            (scalar_tensor 5) gen0 =
  (mkCtx OK (Some [0; 5]) ∅ [AllocateOutput [0; 5]] (fun _ _ => []), gen0).
Proof.
  refine (proj1 (empty_output_short_circuit b64 counting_blocks flat_cost
                   seed_words (fresh_ctx []) empty_batch (scalar_tensor 5)
                   (vector_tensor [1; 2]) gen0 _ _ _)).
  - unfold tensor_wf; simpl; repeat constructor; lia.
  - unfold validation_fails, listed_failure, fits_int, dim_size, scalar. simpl.
    intros [[H|[H|[H|H]]]|[H|H]]; try contradiction; try lia.
  - left. reflexivity.
Defined.



(** ** The stream of a shard *)

Section StreamProperties.

Context (A : DoubleOps) (generate : Z -> Z -> list Z).

Local Abbreviation RandDouble' := (RandDouble A generate).
Local Abbreviation advance' := (advance A generate).
Local Abbreviation nth_double' := (nth_double A generate).

Lemma advance_add n m s : advance' (n + m) s = advance' m (advance' n s).
Proof. revert s. induction n as [|n IH]; intros s; simpl; auto. Qed.

Lemma advance_S n s : advance' (S n) s = snd (RandDouble' (advance' n s)).
Proof.
  replace (S n) with (n + 1)%nat by lia. rewrite advance_add. reflexivity.
Qed.

(** A call that finds the buffer used up takes a new block and returns
    the double of its words 0 and 1. *)
Lemma RandDouble_refill s :
  used_result_index_ s = 4 ->
  let g := generator_ s in
  let blk := generate (key_ g) (counter_ g) in
  RandDouble' s =
  (Uint64ToDouble A (nth 0 blk 0) (nth 1 blk 0),
   mkSimplePhilox (mkPhilox (key_ g) ((counter_ g + 1) mod 2 ^ 128)) blk 2).
Proof.
  destruct s as [g u i]. simpl. intros ->. reflexivity.
Qed.

(** The next call returns the double of words 2 and 3 of that block. *)
Lemma RandDouble_buffered s :
  used_result_index_ s = 2 ->
  RandDouble' s =
  (Uint64ToDouble A (nth 2 (unused_results_ s) 0) (nth 3 (unused_results_ s) 0),
   mkSimplePhilox (generator_ s) (unused_results_ s) 4).
Proof.
  destruct s as [g u i]. simpl. intros ->. reflexivity.
Qed.

(** After an even number of calls the buffer is used up again and the
    counter has moved by half that number. *)
Lemma advance_even k s :
  used_result_index_ s = 4 ->
  0 <= counter_ (generator_ s) < 2 ^ 128 ->
  let s' := advance' (2 * k) s in
  used_result_index_ s' = 4 /\
  key_ (generator_ s') = key_ (generator_ s) /\
  counter_ (generator_ s') =
    (counter_ (generator_ s) + Z.of_nat k) mod 2 ^ 128.
Proof.
  intros Hi Hc. induction k as [|k IH].
  - simpl. rewrite Z.add_0_r, Z.mod_small by lia. auto.
  - replace (2 * S k)%nat with (2 * k + 2)%nat by lia.
    rewrite advance_add. destruct IH as (Hi' & Hk' & Hc').
    set (s1 := advance' (2 * k) s) in *. clearbody s1.
    cbv zeta.
    change (advance' 2 s1) with (snd (RandDouble' (snd (RandDouble' s1)))).
    rewrite (RandDouble_refill s1 Hi'). cbn [snd].
    rewrite RandDouble_buffered by reflexivity. cbn.
    rewrite Hk', Hc', Zplus_mod_idemp_l.
    repeat split; auto. f_equal. lia.
Qed.

Lemma advance_odd k s :
  used_result_index_ s = 4 ->
  0 <= counter_ (generator_ s) < 2 ^ 128 ->
  let s' := advance' (2 * k + 1) s in
  used_result_index_ s' = 2 /\
  unused_results_ s' =
    generate (key_ (generator_ s))
             ((counter_ (generator_ s) + Z.of_nat k) mod 2 ^ 128) /\
  counter_ (generator_ s') =
    (counter_ (generator_ s) + Z.of_nat k + 1) mod 2 ^ 128.
Proof.
  intros Hi Hc. rewrite advance_add.
  destruct (advance_even k s Hi Hc) as (Hi' & Hk' & Hc').
  set (s1 := advance' (2 * k) s) in *. clearbody s1.
  cbv zeta. change (advance' 1 s1) with (snd (RandDouble' s1)).
  rewrite (RandDouble_refill s1 Hi'). cbn.
  rewrite Hk', Hc', Zplus_mod_idemp_l. auto.
Qed.

(** The doubles of a fresh stream, in closed form. *)
Lemma nth_double_fresh n g :
  0 <= counter_ g < 2 ^ 128 ->
  nth_double' n (SimplePhilox_new g) = double_at A generate g n.
Proof.
  intros Hc. unfold nth_double, double_at.
  destruct (Nat.Even_or_Odd n) as [[k ->]|[k ->]].
  - destruct (advance_even k (SimplePhilox_new g) eq_refl Hc) as (Hi & Hk & Hcn).
    replace (2 * k / 2)%nat with k by (rewrite Nat.mul_comm, Nat.div_mul; lia).
    replace (2 * k mod 2)%nat with 0%nat
      by (rewrite Nat.mul_comm, Nat.Div0.mod_mul; lia).
    set (s1 := advance' (2 * k) (SimplePhilox_new g)) in *. clearbody s1.
    rewrite (RandDouble_refill _ Hi). cbn [fst]. rewrite Hk, Hcn.
    reflexivity.
  - destruct (advance_odd k (SimplePhilox_new g) eq_refl Hc) as (Hi & Hu & Hcn).
    replace ((2 * k + 1) / 2)%nat with k
      by (rewrite Nat.mul_comm, Nat.div_add_l, Nat.div_small; lia).
    replace ((2 * k + 1) mod 2)%nat with 1%nat
      by (rewrite Nat.add_comm, Nat.mul_comm, Nat.Div0.mod_add; reflexivity).
    set (s1 := advance' (2 * k + 1) (SimplePhilox_new g)) in *. clearbody s1.
    rewrite (RandDouble_buffered _ Hi). cbn [fst]. rewrite Hu.
    reflexivity.
Qed.

(** The counter after [n] doubles of a fresh stream: [blocks_consumed n]
    blocks further. *)
Lemma advance_counter n g :
  0 <= counter_ g < 2 ^ 128 ->
  counter_ (generator_ (advance' n (SimplePhilox_new g))) =
  (counter_ g + blocks_consumed (Z.of_nat n)) mod 2 ^ 128.
Proof.
  intros Hc. unfold blocks_consumed.
  destruct (Nat.Even_or_Odd n) as [[k ->]|[k ->]].
  - destruct (advance_even k (SimplePhilox_new g) eq_refl Hc) as (_ & _ & ->).
    cbn [SimplePhilox_new generator_]. f_equal. f_equal.
    apply (Z.div_unique _ _ _ 1); lia.
  - destruct (advance_odd k (SimplePhilox_new g) eq_refl Hc) as (_ & _ & ->).
    cbn [SimplePhilox_new generator_]. f_equal.
    rewrite <- Z.add_assoc. f_equal.
    apply (Z.div_unique _ _ _ 0); lia.
Qed.

End StreamProperties.

(** ** The cells a shard writes *)

Section ShardProperties.

Context (A : DoubleOps) (generate : Z -> Z -> list Z).
Context (logits : Z -> Z -> A) (num_classes num_samples : Z)
        (gen : PhiloxRandom).

Local Abbreviation advance' := (advance A generate).
Local Abbreviation nth_double' := (nth_double A generate).
Local Abbreviation sample_loop' := (sample_loop A generate).
Local Abbreviation rows_loop' :=
  (rows_loop A generate logits num_classes num_samples).
Local Abbreviation DoWork' :=
  (DoWork A generate logits num_classes num_samples gen).
Local Abbreviation sample_at' :=
  (sample_at A generate logits num_classes num_samples gen).

Lemma sample_loop_state n b j cdf total sp out :
  fst (sample_loop' n b j cdf total sp out) = advance' n sp.
Proof.
  revert j sp out. induction n as [|n IH]; intros j sp out; [done|].
  cbn [sample_loop advance].
  destruct (RandDouble A generate sp) as [r sp1]. apply IH.
Qed.

(** Cells outside the columns [j0 .. j0 + n - 1] of row [b] are left as
    they were. *)
Lemma sample_loop_miss n b j0 cdf total sp out (key : Z * Z) :
  key.1 <> b \/ key.2 < j0 \/ j0 + Z.of_nat n <= key.2 ->
  snd (sample_loop' n b j0 cdf total sp out) !! key = out !! key.
Proof.
  revert j0 sp out. induction n as [|n IH]; intros j0 sp out Hk; [done|].
  cbn [sample_loop].
  destruct (RandDouble A generate sp) as [r sp1].
  rewrite IH by lia. apply lookup_insert_ne.
  intros <-. simpl in Hk. lia.
Qed.

(** Column [j0 + i] of row [b] receives the search for double number [i]. *)
Lemma sample_loop_hit n b j0 cdf total sp out i :
  (i < n)%nat ->
  snd (sample_loop' n b j0 cdf total sp out) !! (b, j0 + Z.of_nat i) =
  Some (Z.of_nat (upper_bound A cdf (dmul A (nth_double' i sp) total))).
Proof.
  revert j0 sp out i. induction n as [|n IH]; intros j0 sp out i Hi; [lia|].
  cbn [sample_loop]. unfold nth_double.
  destruct i as [|i].
  - cbn [advance]. destruct (RandDouble A generate sp) as [r sp1]. cbn [fst].
    rewrite sample_loop_miss by (simpl; lia).
    rewrite Z.add_0_r. apply lookup_insert_eq.
  - cbn [advance]. destruct (RandDouble A generate sp) as [r sp1]. cbn [snd].
    replace (j0 + Z.of_nat (S i)) with (j0 + 1 + Z.of_nat i) by lia.
    apply IH. lia.
Qed.

Lemma rows_loop_state n b sp out :
  fst (rows_loop' n b sp out) = advance' (n * Z.to_nat num_samples) sp.
Proof.
  revert b sp out. induction n as [|n IH]; intros b sp out; [done|].
  cbn [rows_loop Nat.mul].
  destruct (build_cdf A _) as [cdf total].
  pose proof (sample_loop_state (Z.to_nat num_samples) b 0 cdf total sp out) as Hs.
  destruct (sample_loop' _ b 0 cdf total sp out) as [sp1 out1]. simpl in Hs.
  rewrite IH, Hs. symmetry. apply advance_add.
Qed.

Lemma rows_loop_miss n b0 sp out (key : Z * Z) :
  key.1 < b0 \/ b0 + Z.of_nat n <= key.1 \/ ~ (0 <= key.2 < num_samples) ->
  snd (rows_loop' n b0 sp out) !! key = out !! key.
Proof.
  revert b0 sp out. induction n as [|n IH]; intros b0 sp out Hk; [done|].
  cbn [rows_loop].
  destruct (build_cdf A _) as [cdf total].
  pose proof (sample_loop_miss (Z.to_nat num_samples) b0 0 cdf total sp out key)
    as Hm.
  destruct (sample_loop' _ b0 0 cdf total sp out) as [sp1 out1]. simpl in Hm.
  rewrite IH by lia. apply Hm.
  destruct (decide (key.1 = b0)); [|auto]. right. lia.
Qed.

Lemma rows_loop_hit n b0 sp out k j :
  (k < n)%nat -> 0 <= j < num_samples ->
  snd (rows_loop' n b0 sp out) !! (b0 + Z.of_nat k, j) =
  Some (let '(cdf, total) :=
          build_cdf A (logits_row A logits num_classes (b0 + Z.of_nat k)) in
        Z.of_nat (upper_bound A cdf
          (dmul A (nth_double' (k * Z.to_nat num_samples + Z.to_nat j) sp)
                total))).
Proof.
  revert b0 sp out k. induction n as [|n IH]; intros b0 sp out k Hk Hj; [lia|].
  cbn [rows_loop].
  destruct k as [|k].
  - rewrite Z.add_0_r. cbn [Nat.mul Nat.add].
    destruct (build_cdf A _) as [cdf total].
    pose proof (sample_loop_hit (Z.to_nat num_samples) b0 0 cdf total sp out
                  (Z.to_nat j) ltac:(lia)) as Hh.
    destruct (sample_loop' _ b0 0 cdf total sp out) as [sp1 out1]. simpl in Hh.
    rewrite rows_loop_miss by (simpl; lia).
    rewrite <- Hh. f_equal. f_equal. lia.
  - destruct (build_cdf A (logits_row A logits num_classes b0)) as [cdf total].
    pose proof (sample_loop_state (Z.to_nat num_samples) b0 0 cdf total sp out)
      as Hs.
    destruct (sample_loop' _ b0 0 cdf total sp out) as [sp1 out1]. simpl in Hs.
    replace (b0 + Z.of_nat (S k)) with (b0 + 1 + Z.of_nat k) by lia.
    rewrite IH by lia. subst sp1.
    destruct (build_cdf A _) as [cdf' total']. do 4 f_equal.
    unfold nth_double. rewrite <- advance_add. do 3 f_equal. lia.
Qed.

(** A shard writes [sample_at] its start to every cell of its rows. *)
Lemma DoWork_hit start_row limit_row out b j :
  start_row <= b < limit_row -> 0 <= j < num_samples ->
  DoWork' start_row limit_row out !! (b, j) = Some (sample_at' start_row b j).
Proof.
  intros Hb Hj. unfold DoWork, DoWork_run, sample_at.
  pose proof (rows_loop_hit (Z.to_nat (limit_row - start_row)) start_row
    (SimplePhilox_new (Skip gen (skip_count num_samples start_row))) out
    (Z.to_nat (b - start_row)) j ltac:(lia) Hj) as Hh.
  replace (start_row + Z.of_nat (Z.to_nat (b - start_row))) with b in Hh by lia.
  rewrite Hh. destruct (build_cdf A _) as [cdf total]. do 6 f_equal.
  rewrite Z2Nat.inj_add, Z2Nat.inj_mul by nia. reflexivity.
Qed.

(** It leaves every other cell as it was. *)
Lemma DoWork_miss start_row limit_row out b j :
  ~ (start_row <= b < limit_row) \/ ~ (0 <= j < num_samples) ->
  DoWork' start_row limit_row out !! (b, j) = out !! (b, j).
Proof.
  intros H. unfold DoWork, DoWork_run. apply rows_loop_miss. simpl. lia.
Qed.

Local Abbreviation Functor' :=
  (MultinomialFunctor A generate logits num_classes num_samples gen).

Lemma Functor_cons blk plan out :
  Functor' (blk :: plan) out = Functor' plan (DoWork' blk.1 blk.2 out).
Proof. reflexivity. Qed.

(** A cell of a row that no block of the plan holds, or outside the
    sample columns, is left as it was. *)
Lemma Functor_miss plan out b j :
  (forall blk, blk ∈ plan -> ~ in_block blk b) \/ ~ (0 <= j < num_samples) ->
  Functor' plan out !! (b, j) = out !! (b, j).
Proof.
  revert out. induction plan as [|blk plan IH]; intros out H; [done|].
  rewrite Functor_cons, IH.
  - apply DoWork_miss. destruct H as [H|H]; [left|right; done].
    apply (H blk). left.
  - destruct H as [H|H]; [left|right; done].
    intros blk' Hin. apply H. right. done.
Qed.

(** If every block of the plan that holds row [b] starts at [start_row],
    and there is one, the cells of row [b] are [sample_at start_row]. *)
Lemma Functor_hit plan out start_row b j :
  0 <= j < num_samples ->
  (exists blk, blk ∈ plan /\ in_block blk b) ->
  (forall blk, blk ∈ plan -> in_block blk b -> blk.1 = start_row) ->
  Functor' plan out !! (b, j) = Some (sample_at' start_row b j).
Proof.
  intros Hj. revert out.
  induction plan as [|blk plan IH]; intros out [blk0 [Hin Hb]] Hall.
  - inversion Hin.
  - rewrite Functor_cons.
    destruct (decide (Exists (fun blk' => in_block blk' b) plan)) as [He|He].
    + apply IH.
      * apply Exists_exists in He. exact He.
      * intros blk' Hin' Hb'. apply Hall; [right|]; done.
    + rewrite Functor_miss.
      2:{ left. intros blk' Hin' Hb'. apply He. apply Exists_exists. eauto. }
      assert (blk0 = blk) as ->.
      { apply elem_of_cons in Hin as [->|Hin]; [done|].
        exfalso. apply He. apply Exists_exists. eauto. }
      rewrite <- (Hall blk ltac:(left) Hb).
      apply DoWork_hit; [exact Hb | exact Hj].
Qed.

End ShardProperties.

(** ** Shards and the output *)

Section PlanProperties.

Context (A : DoubleOps) (generate : Z -> Z -> list Z).
Context (logits : Z -> Z -> A) (num_classes num_samples : Z)
        (gen : PhiloxRandom).

Local Abbreviation Functor' :=
  (MultinomialFunctor A generate logits num_classes num_samples gen).
Local Abbreviation sample_at' :=
  (sample_at A generate logits num_classes num_samples gen).

(** With disjoint blocks, the cells of a row are those of the one block
    that holds it. *)
Lemma Functor_disjoint_hit plan out blk b j :
  plan_disjoint plan -> blk ∈ plan -> in_block blk b ->
  0 <= j < num_samples ->
  Functor' plan out !! (b, j) = Some (sample_at' blk.1 b j).
Proof.
  intros Hd Hin Hb Hj. apply Functor_hit; [exact Hj | eauto |].
  intros blk' Hin' Hb'. rewrite (Hd blk' blk Hin' Hin b Hb' Hb). reflexivity.
Qed.

(** The order in which disjoint blocks take effect does not matter. *)
Lemma Functor_schedule plan plan' out :
  plan_disjoint plan -> plan ≡ₚ plan' ->
  Functor' plan out = Functor' plan' out.
Proof.
  intros Hd Hp.
  assert (Hd' : plan_disjoint plan').
  { intros blk blk' Hin Hin'. rewrite <- Hp in Hin, Hin'.
    exact (Hd blk blk' Hin Hin'). }
  apply map_eq. intros [b j].
  destruct (decide (0 <= j < num_samples)) as [Hj|Hj].
  - destruct (decide (Exists (fun blk => in_block blk b) plan)) as [He|He].
    + apply Exists_exists in He as [blk [Hin Hb]].
      rewrite (Functor_disjoint_hit plan out blk b j Hd Hin Hb Hj).
      rewrite Hp in Hin.
      rewrite (Functor_disjoint_hit plan' out blk b j Hd' Hin Hb Hj).
      reflexivity.
    + rewrite !Functor_miss; [done| |].
      * left. intros blk Hin Hb. apply He, Exists_exists.
        rewrite <- Hp in Hin. eauto.
      * left. intros blk Hin Hb. apply He, Exists_exists. eauto.
  - rewrite !Functor_miss by (right; exact Hj). reflexivity.
Qed.

(** C2, as amended.  For a fixed generator, fixed logits and a fixed
    sample count, the samples of a row depend on the partition only
    through the start row of the shard that holds the row: two partitions
    into disjoint shards give row [b] the same samples whenever the shards
    that hold [b] start at the same row (so a one-shard run and an N-shard
    run agree on the rows of the first shard), and the output of one
    partition is the same in whatever order its shards run. *)
Theorem shard_start_determines_row
    plan1 plan2 plan1' out1 out2 start_row limit1 limit2 b j :
  plan_disjoint plan1 -> plan_disjoint plan2 ->
  (start_row, limit1) ∈ plan1 -> (start_row, limit2) ∈ plan2 ->
  start_row <= b -> b < limit1 -> b < limit2 -> 0 <= j < num_samples ->
  plan1 ≡ₚ plan1' ->
  Functor' plan1 out1 !! (b, j) = Functor' plan2 out2 !! (b, j) /\
  Functor' plan1 out1 !! (b, j) = Some (sample_at' start_row b j) /\
  Functor' plan1' out1 = Functor' plan1 out1.
Proof.
  intros Hd1 Hd2 Hin1 Hin2 Hs Hl1 Hl2 Hj Hp.
  rewrite (Functor_disjoint_hit plan1 out1 (start_row, limit1) b j Hd1 Hin1)
    by (try split; simpl; auto; lia).
  rewrite (Functor_disjoint_hit plan2 out2 (start_row, limit2) b j Hd2 Hin2)
    by (try split; simpl; auto; lia).
  simpl. repeat split. symmetry. apply Functor_schedule; assumption.
Qed.

End PlanProperties.

(** The block function on the known answers of Philox4x32 with ten
    rounds: key and counter zero, all ones, and the digits of pi. *)
Lemma philox4x32_known_answers :
  philox4x32 0 0 = [0x6627e8d5; 0xe169c58d; 0xbc57ac4c; 0x9b00dbd8] /\
  philox4x32 (2 ^ 64 - 1) (2 ^ 128 - 1) =
    [0x408f276d; 0x41c83b0e; 0xa20bc7c6; 0x6d5451fd] /\
  philox4x32 (0xa4093822 + 2 ^ 32 * 0x299f31d0)
             (0x243f6a88 + 2 ^ 32 * 0x85a308d3 + 2 ^ 64 * 0x13198a2e
              + 2 ^ 96 * 0x03707344) =
    [0xd16cfe09; 0x94fdcceb; 0x5001e420; 0x24126ea1].
Proof. repeat split; vm_compute; reflexivity. Qed.

(** C2, counterexample.  Two rows of sixteen equally likely classes, one
    sample per row, the Philox generator with key 0 at counter 0: as one
    shard the second row draws the second double of block 0 and gets
    class 7; as two shards it draws the first double of block 1 and gets
    class 4. *)
Lemma shard_count_counterexample :
  let run plan :=
    MultinomialFunctor b64 philox4x32 (matrix sixteen_logits) 16 1
                       (mkPhilox 0 0) plan ∅ in
  run [(0, 2)] !! (1, 0) = Some 7 /\
  run [(0, 1); (1, 2)] !! (1, 0) = Some 4 /\
  run [(0, 2)] <> run [(0, 1); (1, 2)].
Proof.
  cbv zeta.
  assert (H1 : MultinomialFunctor b64 philox4x32 (matrix sixteen_logits) 16 1
                 (mkPhilox 0 0) [(0, 2)] ∅ !! (1, 0) = Some 7)
    by (vm_compute; reflexivity).
  assert (H2 : MultinomialFunctor b64 philox4x32 (matrix sixteen_logits) 16 1
                 (mkPhilox 0 0) [(0, 1); (1, 2)] ∅ !! (1, 0) = Some 4)
    by (vm_compute; reflexivity).
  split; [exact H1|]. split; [exact H2|].
  intros Heq. rewrite Heq, H2 in H1. clear Heq H2. discriminate H1.
Qed.

(** Row 0 has the same sample as one shard and as the first of two. *)
Lemma shard_start_witness :
  let run plan :=
    MultinomialFunctor b64 philox4x32 (matrix sixteen_logits) 16 1
                       (mkPhilox 0 0) plan ∅ in
  run [(0, 2)] !! (0, 0) = run [(0, 1); (1, 2)] !! (0, 0).
Proof.
  cbv zeta.
  refine (proj1 (shard_start_determines_row b64 philox4x32
    (matrix sixteen_logits) 16 1 (mkPhilox 0 0) [(0, 2)] [(0, 1); (1, 2)]
    [(0, 2)] ∅ ∅ 0 2 1 0 0 _ _ _ _ _ _ _ _ _)); try lia; try reflexivity.
  - intros blk blk' H H' b _ _.
    apply list_elem_of_singleton in H, H'. congruence.
  - intros blk blk' H H' b Hb Hb'.
    apply elem_of_cons in H as [->|H]; apply elem_of_cons in H' as [->|H'];
      try apply list_elem_of_singleton in H; try apply list_elem_of_singleton in H';
      subst; unfold in_block in *; simpl in *; try reflexivity; lia.
  - apply list_elem_of_singleton. reflexivity.
  - left.
Defined.

(** ** Counter ranges of the shards *)

Lemma int64_small x : - 2 ^ 63 <= x < 2 ^ 63 -> int64 x = x.
Proof.
  intros H. unfold int64, wrap_signed.
  change (2 ^ (64 - 1)) with (2 ^ 63). change (2 ^ 64) with (2 * 2 ^ 63).
  rewrite Z.mod_small by lia. lia.
Qed.

Lemma skip_count_small K s :
  0 <= K < 2 ^ 30 -> 0 <= s < 2 ^ 31 ->
  skip_count K s = s * (K + 3) / 4.
Proof.
  intros HK Hs. unfold skip_count.
  rewrite (proj2 (int32_fits (K + 3))) by (unfold fits_int; lia).
  rewrite int64_small by nia.
  apply Z.quot_div_nonneg; nia.
Qed.

Section CounterProperties.

Context (A : DoubleOps) (generate : Z -> Z -> list Z).
Context (logits : Z -> Z -> A) (num_classes num_samples : Z)
        (gen : PhiloxRandom).

(** The private generator of a shard ends [blocks_consumed] blocks after
    the counter it skipped to: its rows drew [num_samples] doubles each. *)
Lemma DoWork_counter start_row limit_row out :
  start_row <= limit_row -> 0 <= num_samples ->
  counter_ (generator_ (fst (DoWork_run A generate logits num_classes
                               num_samples gen start_row limit_row out))) =
  (counter_ (Skip gen (skip_count num_samples start_row)) +
   blocks_consumed ((limit_row - start_row) * num_samples)) mod 2 ^ 128.
Proof.
  intros Hl HK. unfold DoWork_run. rewrite rows_loop_state.
  rewrite advance_counter by (simpl; apply Z.mod_pos_bound; lia).
  do 3 f_equal. nia.
Qed.

(** For at most two samples per row the skip formula does keep the
    counter ranges of consecutive shards apart. *)
Lemma skip_covers_two_samples start_row limit_row :
  0 <= num_samples <= 2 -> 0 <= start_row <= limit_row -> limit_row < 2 ^ 31 ->
  skip_count num_samples start_row +
  blocks_consumed ((limit_row - start_row) * num_samples) <=
  skip_count num_samples limit_row.
Proof.
  intros HK Hs Hl. rewrite !skip_count_small by lia. unfold blocks_consumed.
  assert (Hc : num_samples = 0 \/ num_samples = 1 \/ num_samples = 2) by lia.
  destruct Hc as [-> | [-> | ->]]; Z.div_mod_to_equations; lia.
Qed.

(** From three samples per row on it does not: the shard of row 1 starts
    inside the blocks of row 0. *)
Lemma skip_short_from_three_samples :
  3 <= num_samples < 2 ^ 30 ->
  skip_count num_samples 1 <
  skip_count num_samples 0 + blocks_consumed ((1 - 0) * num_samples).
Proof.
  intros HK. rewrite !skip_count_small by lia. unfold blocks_consumed.
  Z.div_mod_to_equations. lia.
Qed.

End CounterProperties.

(** C3, at four samples per row.  From a generator at counter 0, the
    shard of row 0 takes the blocks of counters 0 and 1 and leaves its
    generator at counter 2, while the shard that starts at row 1 skips to
    counter 1: the start offset is below the previous start plus the
    blocks consumed, and the two doubles behind samples 0 and 1 of row 1
    are the doubles behind samples 2 and 3 of row 0. *)
Theorem shard_counters_overlap
    (A : DoubleOps) (generate : Z -> Z -> list Z) (logits : Z -> Z -> A)
    (num_classes key : Z) (out : gmap (Z * Z) Z) :
  let gen := mkPhilox key 0 in
  let stream start_row := SimplePhilox_new (Skip gen (skip_count 4 start_row)) in
  counter_ (generator_ (fst (DoWork_run A generate logits num_classes 4 gen
                               0 1 out))) = 2 /\
  counter_ (Skip gen (skip_count 4 1)) = 1 /\
  skip_count 4 1 < skip_count 4 0 + blocks_consumed ((1 - 0) * 4) /\
  nth_double A generate 0 (stream 1) = nth_double A generate 2 (stream 0) /\
  nth_double A generate 1 (stream 1) = nth_double A generate 3 (stream 0).
Proof.
  intros gen stream. subst stream.
  split; [rewrite DoWork_counter by lia; reflexivity|].
  split; [reflexivity|]. split; [vm_compute; reflexivity|].
  rewrite !nth_double_fresh by (vm_compute; split; congruence).
  split; reflexivity.
Qed.

(** ** One row: the search *)

Section SearchProperties.

Context (A : DoubleOps).

Local Abbreviation entry cdf i := (default (dzero A) (cdf !! i)).

Lemma upper_bound_loop_range fuel (cdf : list A) value first len :
  (len <= fuel)%nat ->
  (first <= upper_bound_loop A fuel cdf value first len <= first + len)%nat.
Proof.
  revert first len. induction fuel as [|fuel IH]; intros first len Hf;
    cbn [upper_bound_loop].
  - lia.
  - destruct (len =? 0)%nat eqn:El; [lia|]. apply Nat.eqb_neq in El.
    pose proof (Nat.div_lt len 2 ltac:(lia) ltac:(lia)) as Hh.
    destruct (dlt A value _).
    + specialize (IH first (len / 2)%nat ltac:(lia)). lia.
    + specialize (IH (S (first + len / 2)) (len - len / 2 - 1)%nat ltac:(lia)).
      lia.
Qed.

(** Where the search stops short of the end of the range, the entry
    exceeds the value: this needs no order on the buffer. *)
Lemma upper_bound_loop_above fuel (cdf : list A) value first len :
  (len <= fuel)%nat ->
  let r := upper_bound_loop A fuel cdf value first len in
  (r < first + len)%nat -> dlt A value (entry cdf r) = true.
Proof.
  revert first len. induction fuel as [|fuel IH]; intros first len Hf;
    cbn [upper_bound_loop].
  - intros; lia.
  - destruct (len =? 0)%nat eqn:El;
      [apply Nat.eqb_eq in El; intros; lia|]. apply Nat.eqb_neq in El.
    pose proof (Nat.div_lt len 2 ltac:(lia) ltac:(lia)) as Hh.
    destruct (dlt A value (entry cdf (first + len / 2)%nat)) eqn:Em.
    + intros Hr.
      pose proof (upper_bound_loop_range fuel cdf value first (len / 2)
                    ltac:(lia)) as Hb.
      destruct (decide (upper_bound_loop A fuel cdf value first (len / 2)
                        = first + len / 2)%nat) as [->|Hne]; [exact Em|].
      apply IH; lia.
    + intros Hr. apply IH; lia.
Qed.

(** Below the position found no entry exceeds the value, provided the
    entries that do not exceed it are closed downwards. *)
Lemma upper_bound_loop_below fuel (cdf : list A) value first len :
  (len <= fuel)%nat ->
  (forall i k, (i <= k < first + len)%nat ->
     dlt A value (entry cdf k) = false -> dlt A value (entry cdf i) = false) ->
  forall i, (first <= i < upper_bound_loop A fuel cdf value first len)%nat ->
  dlt A value (entry cdf i) = false.
Proof.
  revert first len. induction fuel as [|fuel IH]; intros first len Hf Hm i;
    cbn [upper_bound_loop].
  - intros; lia.
  - destruct (len =? 0)%nat eqn:El;
      [apply Nat.eqb_eq in El; intros; lia|]. apply Nat.eqb_neq in El.
    pose proof (Nat.div_lt len 2 ltac:(lia) ltac:(lia)) as Hh.
    destruct (dlt A value (entry cdf (first + len / 2)%nat)) eqn:Em.
    + apply IH; [lia|]. intros i' k Hk. apply Hm. lia.
    + intros Hi.
      destruct (decide (i <= first + len / 2)%nat) as [Hle|Hgt].
      * apply (Hm i (first + len / 2)%nat); [lia | exact Em].
      * apply (IH (S (first + len / 2)) (len - len / 2 - 1)%nat); [lia| |lia].
        intros i' k Hk. apply Hm. lia.
Qed.

Lemma upper_bound_le (cdf : list A) value :
  (upper_bound A cdf value <= length cdf)%nat.
Proof.
  unfold upper_bound.
  pose proof (upper_bound_loop_range (length cdf) cdf value 0 (length cdf)
                ltac:(lia)). lia.
Qed.

(** If no entry exceeds the value, the search returns the end position. *)
Lemma upper_bound_end (cdf : list A) value :
  (forall i, (i < length cdf)%nat -> dlt A value (entry cdf i) = false) ->
  upper_bound A cdf value = length cdf.
Proof.
  intros Hall. pose proof (upper_bound_le cdf value) as Hle.
  destruct (decide (upper_bound A cdf value = length cdf)) as [|Hne]; [done|].
  pose proof (upper_bound_loop_above (length cdf) cdf value 0 (length cdf)
                ltac:(lia) ltac:(fold (upper_bound A cdf value); lia)) as Hab.
  fold (upper_bound A cdf value) in Hab.
  rewrite Hall in Hab by lia. discriminate.
Qed.

(** On a non-decreasing buffer, under transitivity of the comparisons,
    no entry below the position found exceeds the value. *)
Lemma upper_bound_below (cdf : list A) value :
  (forall x y z : A, dlt A x y = true -> dle A y z = true -> dlt A x z = true) ->
  non_decreasing A cdf ->
  forall i c, (i < upper_bound A cdf value)%nat -> cdf !! i = Some c ->
  dlt A value c = false.
Proof.
  intros Htr Hnd i c Hi Hc.
  pose proof (upper_bound_le cdf value) as Hle.
  pose proof (upper_bound_loop_below (length cdf) cdf value 0 (length cdf)
                ltac:(lia)) as Hbelow.
  fold (upper_bound A cdf value) in Hbelow.
  specialize (Hbelow ltac:(
    intros i' k Hk Hv;
    destruct (lookup_lt_is_Some_2 cdf k ltac:(lia)) as [ck Hck];
    destruct (lookup_lt_is_Some_2 cdf i' ltac:(lia)) as [ci Hci];
    rewrite Hck in Hv; rewrite Hci; simpl in *;
    destruct (dlt A value ci) eqn:E; [|reflexivity];
    rewrite (Htr value ci ck E (Hnd i' k ci ck ltac:(lia) Hci Hck)) in Hv;
    discriminate) i ltac:(lia)).
  rewrite Hc in Hbelow. exact Hbelow.
Qed.

(** So the position found is the least index whose entry exceeds the
    value, when the search stops short of the end. *)
Lemma upper_bound_least (cdf : list A) value :
  (forall x y z : A, dlt A x y = true -> dle A y z = true -> dlt A x z = true) ->
  non_decreasing A cdf ->
  (upper_bound A cdf value < length cdf)%nat ->
  least_above A cdf value (upper_bound A cdf value).
Proof.
  intros Htr Hnd Hlt. split; [|apply upper_bound_below; assumption].
  destruct (lookup_lt_is_Some_2 cdf _ Hlt) as [c Hc]. exists c. split; [done|].
  pose proof (upper_bound_loop_above (length cdf) cdf value 0 (length cdf)
                ltac:(lia) ltac:(fold (upper_bound A cdf value); lia)) as Hab.
  fold (upper_bound A cdf value) in Hab. rewrite Hc in Hab. exact Hab.
Qed.

End SearchProperties.

(** ** One row: the scratch buffer *)

Section BufferProperties.

Context (A : DoubleOps).

(** One step of the accumulation. *)
Local Abbreviation step m :=
  (fun (t x : A) => if disfinite A x then dadd A t (shifted_exp A m x) else t).

Lemma running_totals_length m (row : list A) t :
  length (running_totals A m row t) = length row.
Proof. revert t. induction row as [|x row IH]; intros t; simpl; auto. Qed.

(** The in-place loop computes the running totals: the entries before
    [j] are final, those from [j] on still hold the exponentials. *)
Lemma cdf_loop_totals m (rest pre : list A) total :
  cdf_loop A rest (length pre) (pre ++ cdf_exp A rest m) total =
  (pre ++ running_totals A m rest total, fold_left (step m) rest total).
Proof.
  revert pre total. induction rest as [|x rest IH]; intros pre total.
  - simpl. reflexivity.
  - cbn [cdf_loop cdf_exp map running_totals fold_left].
    rewrite list_lookup_middle by reflexivity. cbn [default from_option].
    unfold Datatypes.id.
    fold (shifted_exp A m x). fold (cdf_exp A rest m).
    set (t' := if disfinite A x then dadd A total (shifted_exp A m x) else total).
    rewrite insert_app_r_alt, Nat.sub_diag by lia. cbn [insert list_insert].
    replace (pre ++ t' :: cdf_exp A rest m)
      with ((pre ++ [t']) ++ cdf_exp A rest m)
      by (rewrite <- app_assoc; reflexivity).
    replace (S (length pre)) with (length (pre ++ [t']))
      by (rewrite length_app; simpl; lia).
    rewrite IH, <- app_assoc. reflexivity.
Qed.

Lemma build_cdf_totals (row : list A) :
  build_cdf A row =
  (running_totals A (row_max A row) row (dzero A),
   fold_left (step (row_max A row)) row (dzero A)).
Proof. unfold build_cdf. apply (cdf_loop_totals _ row []). Qed.

Lemma running_totals_lookup m (row : list A) t j :
  (j < length row)%nat ->
  running_totals A m row t !! j = Some (fold_left (step m) (take (S j) row) t).
Proof.
  revert t j. induction row as [|x row IH]; intros t j Hj; simpl in Hj; [lia|].
  destruct j as [|j]; [destruct row; reflexivity|].
  cbn [running_totals take fold_left]. rewrite lookup_cons. apply IH. lia.
Qed.

Lemma fold_step_filter m (l : list A) t :
  fold_left (step m) l t =
  fold_left (dadd A) (map (shifted_exp A m) (List.filter (disfinite A) l)) t.
Proof.
  revert t. induction l as [|x l IH]; intros t; simpl; [done|].
  destruct (disfinite A x); simpl; apply IH.
Qed.

(** The last entry of the buffer is the row total. *)
Lemma running_totals_last m (row : list A) t :
  row <> [] ->
  running_totals A m row t !! (length row - 1)%nat =
  Some (fold_left (step m) row t).
Proof.
  intros Hne. rewrite running_totals_lookup by (destruct row; simpl; [done|lia]).
  replace (S (length row - 1)) with (length row)
    by (destruct row; simpl; [done|lia]).
  rewrite firstn_all. reflexivity.
Qed.

(** A row without a finite logit: every total is the initial one. *)
Lemma running_totals_nonfinite m (row : list A) t :
  Forall (fun x => disfinite A x = false) row ->
  running_totals A m row t = replicate (length row) t /\
  fold_left (step m) row t = t.
Proof.
  revert t. induction row as [|x row IH]; intros t Hall; simpl; [done|].
  apply Forall_cons in Hall as [Hx Hall]. rewrite Hx.
  destruct (IH t Hall) as [-> ->]. done.
Qed.

End BufferProperties.

(** ** Rows without a finite logit *)

Section DegenerateRow.

Context (A : DoubleOps) (generate : Z -> Z -> list Z).

(** The property of the multiplication this section needs: a product
    with zero is never below zero. *)
Context (mul_zero_not_below :
           forall u : A, dlt A (dmul A u (dzero A)) (dzero A) = false).

Context (logits : Z -> Z -> A) (num_classes num_samples : Z)
        (gen : PhiloxRandom).

Lemma logits_row_length b :
  length (logits_row A logits num_classes b) = Z.to_nat num_classes.
Proof. unfold logits_row. rewrite length_map, length_seq. reflexivity. Qed.

Lemma logits_row_Forall (P : A -> Prop) b :
  (forall c, 0 <= c < num_classes -> P (logits b c)) ->
  Forall P (logits_row A logits num_classes b).
Proof.
  intros H. unfold logits_row. apply Forall_forall. intros x Hx.
  apply list_elem_of_In, in_map_iff in Hx as [c [<- Hc]].
  apply in_seq in Hc. apply H. lia.
Qed.

Lemma nonfinite_row_cells start_row limit_row out b j :
  0 <= num_classes ->
  (forall c, 0 <= c < num_classes -> disfinite A (logits b c) = false) ->
  start_row <= b < limit_row -> 0 <= j < num_samples ->
  build_cdf A (logits_row A logits num_classes b) =
    (replicate (Z.to_nat num_classes) (dzero A), dzero A) /\
  DoWork A generate logits num_classes num_samples gen start_row limit_row out
    !! (b, j) = Some num_classes.
Proof.
  intros HC Hnf Hb Hj.
  assert (Hcdf : build_cdf A (logits_row A logits num_classes b) =
                 (replicate (Z.to_nat num_classes) (dzero A), dzero A)).
  { rewrite build_cdf_totals.
    destruct (running_totals_nonfinite A
                (row_max A (logits_row A logits num_classes b))
                (logits_row A logits num_classes b) (dzero A)) as [-> ->].
    - apply logits_row_Forall. exact Hnf.
    - rewrite logits_row_length. reflexivity. }
  split; [exact Hcdf|].
  rewrite DoWork_hit by assumption. unfold sample_at. rewrite Hcdf.
  rewrite upper_bound_end.
  - rewrite length_replicate. f_equal. lia.
  - intros i Hi. rewrite length_replicate in Hi.
    rewrite lookup_replicate_2 by exact Hi. apply mul_zero_not_below.
Qed.

End DegenerateRow.

(** In binary64 a product with zero is a zero or NaN, never below zero. *)
Lemma b64_mul_zero_not_below (u : float) :
  PrimFloat.ltb (PrimFloat.mul u 0%float) 0%float = false.
Proof.
  rewrite ltb_spec, mul_spec.
  destruct (Prim2SF u) as [s| s | | s m e]; reflexivity.
Qed.

(** C6.  In binary64, whatever the exponential and the generator: for a
    row whose logits are all non-finite the running total is 0 and every
    CDF entry is 0, the scaled draw is not below 0, the search returns
    the end position, and every one of the row's cells receives
    [num_classes]. *)
Theorem nonfinite_row_yields_num_classes
    (exp : float -> float) (generate : Z -> Z -> list Z)
    (logits : Z -> Z -> float) (num_classes num_samples : Z)
    (gen : PhiloxRandom) (start_row limit_row : Z) (out : gmap (Z * Z) Z)
    (b j : Z) :
  0 <= num_classes ->
  (forall c, 0 <= c < num_classes -> b64_isfinite (logits b c) = false) ->
  start_row <= b < limit_row -> 0 <= j < num_samples ->
  build_cdf (binary64 exp) (logits_row (binary64 exp) logits num_classes b) =
    (replicate (Z.to_nat num_classes) 0%float, 0%float) /\
  (forall u : float,
     upper_bound (binary64 exp) (replicate (Z.to_nat num_classes) 0%float)
                 (PrimFloat.mul u 0%float) = Z.to_nat num_classes) /\
  DoWork (binary64 exp) generate logits num_classes num_samples gen
         start_row limit_row out !! (b, j) = Some num_classes.
Proof.
  intros HC Hnf Hb Hj.
  destruct (nonfinite_row_cells (binary64 exp) generate b64_mul_zero_not_below
              logits num_classes num_samples gen start_row limit_row out b j
              HC Hnf Hb Hj) as [H1 H2].
  split; [exact H1|]. split; [|exact H2].
  intros u. rewrite (upper_bound_end (binary64 exp)).
  - apply length_replicate.
  - intros i Hi. rewrite length_replicate in Hi.
    rewrite lookup_replicate_2 by exact Hi. apply b64_mul_zero_not_below.
Qed.

(** A row of -infinity and NaN, two classes, three samples. *)
Lemma nonfinite_row_witness :
  DoWork b64 counting_blocks (matrix hopeless_logits) 2 3 (mkPhilox 0 0)
         0 1 ∅ !! (0, 2) = Some 2.
Proof.
  refine (proj2 (proj2 (nonfinite_row_yields_num_classes exp_at_zero
    counting_blocks (matrix hopeless_logits) 2 3 (mkPhilox 0 0) 0 1 ∅ 0 2
    _ _ _ _))); try lia.
  intros c Hc. assert (c = 0 \/ c = 1) as [-> | ->] by lia; reflexivity.
Defined.

(** C1, counterexample.  One row with the single logit -infinity, one
    sample: the op succeeds and writes an index that is not in [0, C),
    namely 1 with the class count 1. *)
Lemma range_counterexample :
  let r := DoCompute b64 counting_blocks flat_cost (fresh_ctx [(0, 1)])
             minus_infinity_logit (scalar_tensor 1) gen0 in
  status (fst r) = OK /\ output_shape (fst r) = Some [1; 1] /\
  exists v, output_cells (fst r) !! (0, 0) = Some v /\
            ~ (0 <= v < dim_size minus_infinity_logit 1).
Proof.
  cbv zeta. split; [vm_compute; reflexivity|].
  split; [vm_compute; reflexivity|].
  exists 1. split; [vm_compute; reflexivity|].
  unfold dim_size, minus_infinity_logit. simpl. lia.
Qed.

(** C5, counterexample.  A single class whose logit is NaN, two samples:
    both samples are 1, not 0. *)
Lemma single_class_counterexample :
  let out := MultinomialFunctor b64 counting_blocks (matrix nan_logit) 1 2
               (mkPhilox 0 0) [(0, 1)] ∅ in
  dim_size nan_logit 1 = 1 /\
  exists v, out !! (0, 0) = Some v /\ out !! (0, 1) = Some v /\ v <> 0.
Proof.
  cbv zeta. split; [reflexivity|].
  exists 1. split; [vm_compute; reflexivity|].
  split; [vm_compute; reflexivity | lia].
Qed.

(** ** One row, under the laws of the arithmetic *)

Section LawfulRow.

Context (A : DoubleOps) (L : DoubleLaws A).

Local Abbreviation step m :=
  (fun (t x : A) => if disfinite A x then dadd A t (shifted_exp A m x) else t).

(** *** The maximum *)

Lemma max_loop_ge (row : list A) max0 z :
  dlt A (max_loop A row max0) z = true -> dlt A max0 z = true.
Proof.
  revert max0. induction row as [|x row IH]; intros max0 H; simpl in H; [done|].
  apply IH in H. destruct (disfinite A x); [|done].
  unfold std_max in H. destruct (dlt A max0 x) eqn:E; [|done].
  exact (law_lt_trans A L _ _ _ E H).
Qed.

Lemma max_loop_upper (row : list A) max0 x :
  In x row -> disfinite A x = true -> dlt A (max_loop A row max0) x = false.
Proof.
  revert max0. induction row as [|y row IH]; intros max0 Hin Hx; [done|].
  destruct Hin as [->|Hin]; [|apply IH; assumption].
  simpl. rewrite Hx.
  destruct (dlt A (max_loop A row (std_max A max0 x)) x) eqn:E; [|done].
  apply max_loop_ge in E. unfold std_max in E.
  destruct (dlt A max0 x) eqn:E'.
  - rewrite (law_lt_irrefl A L) in E. discriminate.
  - congruence.
Qed.

Lemma max_loop_origin (row : list A) max0 :
  max_loop A row max0 = max0 \/
  (In (max_loop A row max0) row /\ disfinite A (max_loop A row max0) = true).
Proof.
  revert max0. induction row as [|x row IH]; intros max0; simpl; [auto|].
  destruct (disfinite A x) eqn:Hx.
  - destruct (IH (std_max A max0 x)) as [->|[Hin Hf]]; [|auto].
    unfold std_max. destruct (dlt A max0 x); auto.
  - destruct (IH max0) as [->|[Hin Hf]]; auto.
Qed.

(** With a finite logit in the row, [row_max] is the maximum of the
    finite logits. *)
Lemma row_max_is_finite_max (row : list A) :
  (exists x, In x row /\ disfinite A x = true) ->
  is_finite_max A row (row_max A row).
Proof.
  intros [x [Hin Hx]]. unfold is_finite_max, row_max.
  split; [|intros y; apply max_loop_upper].
  destruct (max_loop_origin row (dlowest A)) as [Heq|H]; [|exact H].
  pose proof (max_loop_upper row (dlowest A) x Hin Hx) as Hup.
  rewrite Heq in *. rewrite <- (law_lowest A L x Hx Hup). auto.
Qed.

(** *** The running totals *)

Lemma bounded_self n (t : A) :
  0 <= n <= 2 ^ 31 -> bounded A n t ->
  disfinite A t = true /\ dle A t t = true.
Proof.
  intros Hn [H0 H1].
  assert (Hf := law_bounded_finite A L t n Hn H0 H1).
  split; [exact Hf | exact (law_le_refl A L t Hf)].
Qed.

Lemma step_bounded m n (t x : A) :
  disfinite A m = true -> disfinite A x = true -> dlt A m x = false ->
  0 <= n < 2 ^ 31 -> bounded A n t ->
  dle A t (dadd A t (shifted_exp A m x)) = true /\
  dle A (shifted_exp A m x) (dadd A t (shifted_exp A m x)) = true /\
  bounded A (n + 1) (dadd A t (shifted_exp A m x)).
Proof.
  intros Hm Hx Hle Hn [H0 H1]. unfold shifted_exp.
  pose proof (law_exp_nonneg A L x m Hx Hm) as Hy0.
  pose proof (law_exp_le_one A L x m Hx Hm Hle) as Hy1.
  pose proof (law_add_le_l A L t _ H0 Hy0) as Hl.
  split; [exact Hl|]. split; [exact (law_add_le_r A L t _ H0 Hy0)|].
  split; [exact (law_le_trans A L _ _ _ H0 Hl)|].
  apply (law_add_bound A L); assumption.
Qed.

(** Every running total is at least the one before the row, and lies
    between 0 and the number of finite logits added; the totals are
    non-decreasing. *)
Lemma totals_props m (row : list A) t n :
  disfinite A m = true ->
  (forall x, In x row -> disfinite A x = true -> dlt A m x = false) ->
  0 <= n -> n + Z.of_nat (length row) <= 2 ^ 31 -> bounded A n t ->
  (forall c, In c (running_totals A m row t) ->
     dle A t c = true /\
     exists n', n <= n' <= n + Z.of_nat (length row) /\ bounded A n' c) /\
  non_decreasing A (running_totals A m row t).
Proof.
  intros Hm. revert t n. induction row as [|x row IH]; intros t n Hmax Hn Hlen Hb.
  - split; [intros c []|]. intros i j ci cj _ Hi. inversion Hi.
  - cbn [running_totals length] in *.
    set (t' := if disfinite A x then dadd A t (shifted_exp A m x) else t).
    assert (Ht' : dle A t t' = true /\
                  exists n', n <= n' <= n + 1 /\ bounded A n' t').
    { subst t'. destruct (disfinite A x) eqn:Hx.
      - destruct (step_bounded m n t x Hm Hx (Hmax x ltac:(left; done) Hx)
                    ltac:(lia) Hb) as (H1 & _ & H2).
        split; [exact H1|]. exists (n + 1). split; [lia | exact H2].
      - split; [apply (bounded_self n t ltac:(lia) Hb)|].
        exists n. split; [lia | exact Hb]. }
    destruct Ht' as [Htt' [n' [Hn' Hb']]].
    destruct (IH t' n' ltac:(intros y Hy; apply Hmax; right; exact Hy)
                ltac:(lia) ltac:(lia) Hb') as [IH1 IH2].
    split.
    + intros c [<-|Hc].
      * split; [exact Htt'|]. exists n'. split; [lia | exact Hb'].
      * destruct (IH1 c Hc) as [Hc1 [n'' [Hn'' Hb'']]].
        split; [exact (law_le_trans A L _ _ _ Htt' Hc1)|].
        exists n''. split; [lia | exact Hb''].
    + intros i j ci cj Hij Hi Hj.
      destruct i as [|i], j as [|j]; try lia.
      * simpl in Hi, Hj. inversion Hi; inversion Hj; subst.
        apply (proj2 (bounded_self n' _ ltac:(lia) Hb')).
      * simpl in Hi. inversion Hi; subst.
        rewrite lookup_cons in Hj.
        apply IH1. apply list_elem_of_In. eapply list_elem_of_lookup_2. exact Hj.
      * rewrite !lookup_cons in *. apply (IH2 i j); [lia|done|done].
Qed.

Lemma fold_total_props m (row : list A) t n :
  disfinite A m = true ->
  (forall x, In x row -> disfinite A x = true -> dlt A m x = false) ->
  0 <= n -> n + Z.of_nat (length row) <= 2 ^ 31 -> bounded A n t ->
  dle A t (fold_left (step m) row t) = true /\
  exists n', n <= n' <= n + Z.of_nat (length row) /\
             bounded A n' (fold_left (step m) row t).
Proof.
  intros Hm Hmax Hn Hlen Hb.
  destruct (decide (row = [])) as [->|Hne].
  - simpl. split; [apply (bounded_self n t ltac:(simpl in Hlen; lia) Hb)|].
    exists n. split; [simpl; lia | exact Hb].
  - destruct (totals_props m row t n Hm Hmax Hn Hlen Hb) as [H1 _].
    apply H1. apply list_elem_of_In.
    eapply list_elem_of_lookup_2. apply running_totals_last. exact Hne.
Qed.

(** Once the maximum has been added, the total is at least 1. *)
Lemma total_ge_one m (row : list A) t n :
  disfinite A m = true -> In m row ->
  (forall x, In x row -> disfinite A x = true -> dlt A m x = false) ->
  0 <= n -> n + Z.of_nat (length row) <= 2 ^ 31 -> bounded A n t ->
  dle A (dunit A) (fold_left (step m) row t) = true.
Proof.
  intros Hm. revert t n.
  induction row as [|x row IH]; intros t n Hin Hmax Hn Hlen Hb; [destruct Hin|].
  cbn [fold_left]. cbn [length] in Hlen.
  destruct Hin as [->|Hin].
  - rewrite Hm.
    destruct (step_bounded m n t m Hm Hm (law_lt_irrefl A L m) ltac:(lia) Hb)
      as (_ & H1 & H2).
    destruct (fold_total_props m row _ (n + 1) Hm
                ltac:(intros y Hy; apply Hmax; right; exact Hy)
                ltac:(lia) ltac:(lia) H2) as [H3 _].
    unfold shifted_exp in H1 at 1. rewrite (law_exp_diag A L m Hm) in H1.
    exact (law_le_trans A L _ _ _ H1 H3).
  - destruct (disfinite A x) eqn:Hx.
    + destruct (step_bounded m n t x Hm Hx (Hmax x ltac:(left; done) Hx)
                  ltac:(lia) Hb) as (_ & _ & H2).
      apply (IH _ (n + 1)); auto; try lia.
      intros y Hy; apply Hmax; right; exact Hy.
    + apply (IH _ n); auto; try lia.
      intros y Hy; apply Hmax; right; exact Hy.
Qed.

End LawfulRow.

(** ** The samples of a row, under the laws of the arithmetic *)

Section LawfulSamples.

Context (A : DoubleOps) (L : DoubleLaws A) (generate : Z -> Z -> list Z).

Lemma RandDouble_unit s :
  exists x0 x1, fst (RandDouble A generate s) = Uint64ToDouble A x0 x1.
Proof.
  unfold RandDouble. destruct (single generate s) as [x0 s1].
  destruct (single generate s1) as [x1 s2]. eauto.
Qed.

(** A row with a finite logit: the maximum, the buffer, the total, and
    the search for any scaled draw. *)
Lemma lawful_row (row : list A) (x0 x1 : Z) :
  Z.of_nat (length row) <= 2 ^ 31 ->
  (exists x, In x row /\ disfinite A x = true) ->
  let m := row_max A row in
  let cdf := fst (build_cdf A row) in
  let total := snd (build_cdf A row) in
  let u := dmul A (Uint64ToDouble A x0 x1) total in
  is_finite_max A row m /\
  (forall j, (j < length row)%nat -> cdf !! j = Some (cdf_sum A row m j)) /\
  non_decreasing A cdf /\
  cdf !! (length row - 1)%nat = Some total /\
  dle A (dzero A) u = true /\ dlt A u total = true /\
  (upper_bound A cdf u < length row)%nat /\
  least_above A cdf u (upper_bound A cdf u).
Proof.
  intros Hlen Hfin m cdf total u. subst cdf total u.
  rewrite build_cdf_totals. cbn [fst snd]. fold m.
  pose proof (row_max_is_finite_max A L row Hfin) as Hmax. fold m in Hmax.
  destruct Hmax as [[Hin Hm] Hup].
  assert (Hne : row <> []) by (intros ->; destruct Hin).
  destruct (totals_props A L m row (dzero A) 0 Hm Hup ltac:(lia) ltac:(lia)
              (law_zero A L)) as [_ Hnd].
  destruct (fold_total_props A L m row (dzero A) 0 Hm Hup ltac:(lia) ltac:(lia)
              (law_zero A L)) as [_ [n [Hn Hb]]].
  pose proof (total_ge_one A L m row (dzero A) 0 Hm Hin Hup ltac:(lia)
                ltac:(lia) (law_zero A L)) as Hone.
  destruct (bounded_self A L n _ ltac:(lia) Hb) as [Hft _].
  set (total := fold_left _ row (dzero A)) in *.
  pose proof (law_unit_mul_lt A L x0 x1 total Hone Hft) as Hlt.
  pose proof (law_unit_mul_nonneg A L x0 x1 total Hone Hft) as Hge.
  pose proof (running_totals_last A m row (dzero A) Hne) as Hlast.
  fold total in Hlast.
  assert (Hub : (upper_bound A (running_totals A m row (dzero A))
                   (dmul A (Uint64ToDouble A x0 x1) total) < length row)%nat).
  { pose proof (upper_bound_le A (running_totals A m row (dzero A))
                  (dmul A (Uint64ToDouble A x0 x1) total)) as Hle.
    rewrite running_totals_length in Hle.
    destruct (decide (upper_bound A (running_totals A m row (dzero A))
                (dmul A (Uint64ToDouble A x0 x1) total) = length row))
      as [Heq|]; [|lia].
    pose proof (upper_bound_below A _ (dmul A (Uint64ToDouble A x0 x1) total)
                  (law_lt_le_trans A L) Hnd (length row - 1)%nat total) as Hb'.
    rewrite Heq in Hb'. rewrite Hb' in Hlt; [discriminate| |exact Hlast].
    destruct row; [done|simpl; lia]. }
  split; [done|]. split.
  { intros j Hj. rewrite running_totals_lookup by exact Hj.
    unfold cdf_sum. rewrite fold_step_filter. reflexivity. }
  split; [exact Hnd|]. split; [exact Hlast|]. split; [exact Hge|].
  split; [exact Hlt|]. split; [exact Hub|].
  apply upper_bound_least; [exact (law_lt_le_trans A L) | exact Hnd |].
  rewrite running_totals_length. exact Hub.
Qed.

Context (logits : Z -> Z -> A) (num_classes num_samples : Z)
        (gen : PhiloxRandom).

Lemma logits_row_In b c :
  0 <= c < num_classes -> In (logits b c) (logits_row A logits num_classes b).
Proof.
  intros Hc. unfold logits_row. apply in_map_iff. exists (Z.to_nat c).
  split; [f_equal; lia|]. apply in_seq. lia.
Qed.

(** The index a shard writes for a row with a finite logit is below the
    class count. *)
Lemma sample_at_in_range start_row b j :
  0 <= num_classes < 2 ^ 31 ->
  (exists c, 0 <= c < num_classes /\ disfinite A (logits b c) = true) ->
  0 <= sample_at A generate logits num_classes num_samples gen start_row b j
    < num_classes.
Proof.
  intros HC [c [Hc Hf]]. unfold sample_at.
  destruct (RandDouble_unit
              (advance A generate
                 (Z.to_nat ((b - start_row) * num_samples + j))
                 (SimplePhilox_new (Skip gen (skip_count num_samples start_row)))))
    as [x0 [x1 Hu]].
  fold (nth_double A generate
          (Z.to_nat ((b - start_row) * num_samples + j))
          (SimplePhilox_new (Skip gen (skip_count num_samples start_row)))) in Hu.
  rewrite Hu.
  pose proof (lawful_row (logits_row A logits num_classes b) x0 x1) as Hrow.
  rewrite logits_row_length in Hrow.
  specialize (Hrow ltac:(lia) ltac:(eexists; split;
                                      [apply (logits_row_In b c Hc) | exact Hf])).
  cbv zeta in Hrow. destruct Hrow as (_ & _ & _ & _ & _ & _ & Hub & _).
  destruct (build_cdf A _) as [cdf total]. cbn [fst snd] in Hub. lia.
Qed.

End LawfulSamples.

(** ** The exact extended reals satisfy the laws *)

Lemma Rltb_true x y : Rltb x y = true <-> (x < y)%R.
Proof. unfold Rltb. destruct (Rlt_dec x y); split; intros; try done. Qed.

Lemma Rltb_false x y : Rltb x y = false <-> (y <= x)%R.
Proof.
  unfold Rltb. destruct (Rlt_dec x y); split; intros; try done; lra.
Qed.

Lemma Rleb_true x y : Rleb x y = true <-> (x <= y)%R.
Proof. unfold Rleb. destruct (Rle_dec x y); split; intros; try done. Qed.

Ltac xreal_arith :=
  repeat match goal with
  | H : Rltb _ _ = true |- _ => apply Rltb_true in H
  | H : Rltb _ _ = false |- _ => apply Rltb_false in H
  | H : Rleb _ _ = true |- _ => apply Rleb_true in H
  | H : _ && _ = true |- _ => apply andb_true_iff in H as [? ?]
  | |- Rltb _ _ = true => apply Rltb_true
  | |- Rltb _ _ = false => apply Rltb_false
  | |- Rleb _ _ = true => apply Rleb_true
  | |- _ && _ = true => apply andb_true_iff; split
  end.

Ltac xreal_cases :=
  repeat match goal with
  | x : xreal |- _ => destruct x as [|[|]|?]
  end;
  simpl in *; try discriminate; try reflexivity.

Lemma xmax_large : (IZR (2 ^ 31) <= xmax)%R.
Proof. unfold xmax. apply IZR_le. apply Z.leb_le. vm_compute. reflexivity. Qed.

Lemma xunit_range x0 x1 :
  (0 <= IZR (mantissa_bits x0 x1) / IZR (2 ^ 52) < 1)%R.
Proof.
  assert (Hm : 0 <= mantissa_bits x0 x1 < 2 ^ 52).
  { unfold mantissa_bits.
    pose proof (Z.mod_pos_bound x0 (2 ^ 20) ltac:(lia)).
    pose proof (Z.mod_pos_bound x1 (2 ^ 32) ltac:(lia)).
    change (2 ^ 52) with (2 ^ 20 * 2 ^ 32). nia. }
  destruct Hm as [Hm0 Hm1]. apply IZR_le in Hm0. apply IZR_lt in Hm1.
  assert (Hp : (0 < IZR (2 ^ 52))%R) by (apply IZR_lt; lia).
  set (M := IZR (mantissa_bits x0 x1)) in *. set (P := IZR (2 ^ 52)) in *.
  assert (Hinv : (0 < / P)%R) by (apply Rinv_0_lt_compat; exact Hp).
  unfold Rdiv. split; [nra|].
  apply (Rmult_lt_reg_r P); [exact Hp|].
  rewrite Rmult_assoc, Rinv_l by lra. lra.
Qed.

Lemma xexp_le_one a : (a <= 0)%R -> (exp a <= 1)%R.
Proof.
  intros [Hlt| ->]; [|rewrite exp_0; lra].
  pose proof (exp_increasing a 0 Hlt) as H. rewrite exp_0 in H. lra.
Qed.

Lemma exact_laws : DoubleLaws exact_reals.
Proof.
  constructor; simpl.
  - intros x. xreal_cases. xreal_arith. lra.
  - intros x y z Hxy Hyz. xreal_cases. xreal_arith. lra.
  - intros x y z Hxy Hyz. xreal_cases. xreal_arith. lra.
  - intros x y z Hxy Hyz. xreal_cases. xreal_arith. lra.
  - intros x Hx. xreal_cases. xreal_arith. lra.
  - intros x Hx Hl. xreal_cases. xreal_arith. f_equal. lra.
  - unfold bounded. simpl. split; xreal_arith; lra.
  - intros m Hm. xreal_cases. f_equal.
    replace (r + - r)%R with 0%R by lra. apply exp_0.
  - intros x m Hx Hm. xreal_cases. xreal_arith.
    pose proof (exp_pos (r0 + - r)). lra.
  - intros x m Hx Hm Hl. xreal_cases. xreal_arith. apply xexp_le_one. lra.
  - intros x y Hx Hy. xreal_cases; xreal_arith; lra.
  - intros x y Hx Hy. xreal_cases; xreal_arith; lra.
  - intros x y n Hn Hx0 Hy0 Hx Hy. xreal_cases. xreal_arith.
    rewrite plus_IZR. lra.
  - intros x n Hn H0 H1. xreal_cases. xreal_arith.
    + pose proof xmax_large. lra.
    + pose proof xmax_large.
      assert (IZR n <= IZR (2 ^ 31))%R by (apply IZR_le; lia). lra.
  - intros x0 x1 t Ht Hf. xreal_cases. xreal_arith.
    pose proof (xunit_range x0 x1). nra.
  - intros x0 x1 t Ht Hf. xreal_cases. xreal_arith.
    pose proof (xunit_range x0 x1). nra.
Qed.

(** ** Binary64 satisfies the laws *)

(** *** Digits and shifts *)

Lemma digits2_bounds m :
  2 ^ (Zpos (digits2_pos m) - 1) <= Zpos m < 2 ^ Zpos (digits2_pos m).
Proof.
  induction m as [m IH|m IH|]; cbn [digits2_pos].
  - rewrite Pos2Z.inj_succ, (Pos2Z.inj_xI m).
    replace (Z.succ (Zpos (digits2_pos m)) - 1)
      with (Z.succ (Zpos (digits2_pos m) - 1)) by lia.
    rewrite !Z.pow_succ_r by lia.
    generalize dependent (2 ^ (Zpos (digits2_pos m) - 1)).
    generalize dependent (2 ^ Zpos (digits2_pos m)). intros; lia.
  - rewrite Pos2Z.inj_succ, (Pos2Z.inj_xO m).
    replace (Z.succ (Zpos (digits2_pos m)) - 1)
      with (Z.succ (Zpos (digits2_pos m) - 1)) by lia.
    rewrite !Z.pow_succ_r by lia.
    generalize dependent (2 ^ (Zpos (digits2_pos m) - 1)).
    generalize dependent (2 ^ Zpos (digits2_pos m)). intros; lia.
  - simpl. lia.
Qed.

Lemma iter_pos_nat {T} (f : T -> T) p x :
  SpecFloat.iter_pos f p x = Nat.iter (Pos.to_nat p) f x.
Proof.
  revert x. induction p as [p IH|p IH|]; intros x; cbn [SpecFloat.iter_pos].
  - rewrite !IH, Pos2Nat.inj_xI, <- Nat.iter_add, <- Nat.iter_succ_r.
    f_equal. lia.
  - rewrite !IH, Pos2Nat.inj_xO, <- Nat.iter_add. f_equal. lia.
  - reflexivity.
Qed.

Lemma shr_1_spec mrs :
  0 <= shr_m mrs ->
  shr_m (shr_1 mrs) = shr_m mrs / 2 /\
  inexact (shr_1 mrs) = Z.odd (shr_m mrs) || inexact mrs.
Proof.
  destruct mrs as [m r s]. unfold inexact. cbn [shr_m shr_r shr_s].
  intros Hm. destruct m as [|[p|p|]|p]; try lia; cbn [shr_1 shr_m shr_r shr_s].
  - split; [reflexivity|]. reflexivity.
  - split; [|reflexivity]. rewrite (Pos2Z.inj_xI p).
    apply (Z.div_unique _ _ _ 1); lia.
  - split; [|reflexivity]. rewrite (Pos2Z.inj_xO p).
    apply (Z.div_unique _ _ _ 0); lia.
  - split; reflexivity.
Qed.

Lemma shr_iter_spec n m :
  0 <= m ->
  let mrs := Nat.iter n shr_1 (Build_shr_record m false false) in
  shr_m mrs = m / 2 ^ Z.of_nat n /\
  (inexact mrs = false <-> m mod 2 ^ Z.of_nat n = 0).
Proof.
  intros Hm. induction n as [|n IH]; cbv zeta.
  - simpl. rewrite Z.div_1_r, Z.mod_1_r. unfold inexact. simpl. tauto.
  - rewrite Nat.iter_succ. cbv zeta in IH. destruct IH as [IHm IHi].
    set (mrs := Nat.iter n shr_1 (Build_shr_record m false false)) in *.
    assert (Hp : 0 < 2 ^ Z.of_nat n) by (apply Z.pow_pos_nonneg; lia).
    assert (Hm' : 0 <= shr_m mrs) by (rewrite IHm; apply Z.div_pos; lia).
    destruct (shr_1_spec mrs Hm') as [H1 H2].
    rewrite Nat2Z.inj_succ, Z.pow_succ_r by lia.
    split.
    + rewrite H1, IHm, Z.div_div by lia. f_equal. lia.
    + rewrite H2, orb_false_iff, IHi, IHm.
      pose proof (Z.div_mod m (2 ^ Z.of_nat n) ltac:(lia)) as Hdm.
      pose proof (Z.mod_pos_bound m (2 ^ Z.of_nat n) Hp) as Hb.
      set (q := m / 2 ^ Z.of_nat n) in *. set (r := m mod 2 ^ Z.of_nat n) in *.
      rewrite <- Z.negb_even, negb_false_iff, Z.even_spec.
      split.
      * intros [[h Hh] Hr]. rewrite Hr, Hh in Hdm.
        apply Z.mod_divide; [lia|]. exists h. lia.
      * intros Hmod. apply Z.mod_divide in Hmod; [|lia].
        destruct Hmod as [h Hh].
        assert (r = 0 /\ q = 2 * h); [|split; [exists h; lia | lia]].
        assert (Hq : q = 2 * h).
        { subst q. rewrite Hh.
          replace (h * (2 * 2 ^ Z.of_nat n)) with (2 * h * 2 ^ Z.of_nat n) by lia.
          apply Z.div_mul. lia. }
        split; [|exact Hq]. nia.
Qed.

Lemma shr_spec m e n :
  0 <= m -> 0 <= n ->
  let '(mrs, e') := shr (Build_shr_record m false false) e n in
  shr_m mrs = m / 2 ^ n /\ e' = e + n /\
  (inexact mrs = false <-> m mod 2 ^ n = 0).
Proof.
  intros Hm Hn. unfold shr. destruct n as [|p|p]; try lia.
  - simpl. rewrite Z.div_1_r, Z.mod_1_r, Z.add_0_r. unfold inexact. simpl. tauto.
  - rewrite iter_pos_nat.
    pose proof (shr_iter_spec (Pos.to_nat p) m Hm) as H. cbv zeta in H.
    rewrite positive_nat_Z in H. tauto.
Qed.

Lemma round_nearest_even_spec mrs :
  let m' := round_nearest_even (shr_m mrs) (loc_of_shr_record mrs) in
  shr_m mrs <= m' <= shr_m mrs + 1 /\ (inexact mrs = false -> m' = shr_m mrs).
Proof.
  destruct mrs as [m [|] [|]]; unfold inexact; cbn;
    try destruct (Z.even m); split; try lia; try discriminate; auto.
Qed.

(** *** Magnitudes *)

Lemma pow2_pos x : 0 <= x -> 0 < 2 ^ x.
Proof. intros. apply Z.pow_pos_nonneg; lia. Qed.

Lemma sc_pos e : -2148 <= e -> 0 < sc e.
Proof. intros. apply pow2_pos. lia. Qed.

Lemma sc_shift e k : -2148 <= e -> 0 <= k -> sc (e + k) = sc e * 2 ^ k.
Proof.
  intros. unfold sc. rewrite <- Z.pow_add_r by lia. f_equal. lia.
Qed.

Lemma sc_mono e e' : -2148 <= e -> e <= e' -> sc e <= sc e'.
Proof. intros. apply Z.pow_le_mono_r; lia. Qed.

Lemma bounded_spec m e :
  SpecFloat.bounded prec emax m e = true ->
  Zpos m < 2 ^ 53 /\ -1074 <= e <= 971 /\ (-1074 < e -> 2 ^ 52 <= Zpos m).
Proof.
  unfold SpecFloat.bounded, canonical_mantissa, fexp, emin, prec, emax.
  rewrite andb_true_iff, Z.eqb_eq, Z.leb_le.
  change (3 - 1024 - 53) with (-1074). change (1024 - 53) with 971.
  intros [Hc He]. pose proof (digits2_bounds m) as [Hlo Hhi].
  set (d := Zpos (digits2_pos m)) in *.
  assert (Hd : d <= 53) by lia.
  split; [|split; [lia|]].
  - apply (Z.lt_le_trans _ _ _ Hhi). apply Z.pow_le_mono_r; lia.
  - intros Hn. assert (d = 53) by lia.
    replace 52 with (d - 1) by lia. exact Hlo.
Qed.

Lemma mag_finite_bounds s m e :
  SpecFloat.bounded prec emax m e = true ->
  0 < mag (S754_finite s m e) < mag_infinity.
Proof.
  intros Hb. destruct (bounded_spec m e Hb) as [Hm [He _]].
  cbn [mag]. pose proof (sc_pos e ltac:(lia)) as Hs.
  split; [lia|].
  apply (Z.lt_le_trans _ (2 ^ 53 * sc e)); [nia|].
  apply (Z.le_trans _ (2 ^ 53 * sc 971)).
  - apply Z.mul_le_mono_nonneg_l; [lia | apply sc_mono; lia].
  - unfold sc, mag_infinity. rewrite <- Z.pow_add_r by lia.
    apply Z.pow_le_mono_r; lia.
Qed.

Lemma mag_lt_exp m1 e1 m2 e2 :
  SpecFloat.bounded prec emax m1 e1 = true ->
  SpecFloat.bounded prec emax m2 e2 = true ->
  e1 < e2 -> Zpos m1 * sc e1 < Zpos m2 * sc e2.
Proof.
  intros H1 H2 He.
  destruct (bounded_spec _ _ H1) as [Hm1 [He1 _]].
  destruct (bounded_spec _ _ H2) as [_ [He2 Hn2]].
  pose proof (Hn2 ltac:(lia)) as Hm2.
  pose proof (sc_pos e1 ltac:(lia)) as Hs1.
  replace e2 with (e1 + (e2 - e1)) by lia.
  rewrite sc_shift by lia.
  assert (Hp : 2 ^ 1 <= 2 ^ (e2 - e1)) by (apply Z.pow_le_mono_r; lia).
  change (2 ^ 1) with 2 in Hp.
  change (2 ^ 53) with (2 * 2 ^ 52) in Hm1.
  set (p := 2 ^ (e2 - e1)) in *. set (c := 2 ^ 52) in *.
  assert (0 < c) by (subst c; lia).
  apply (Z.lt_le_trans _ (2 * c * sc e1)); [nia|].
  apply (Z.le_trans _ (c * (sc e1 * p))); [nia|].
  apply Z.mul_le_mono_nonneg_r; nia.
Qed.

Lemma mag_compare m1 e1 m2 e2 :
  SpecFloat.bounded prec emax m1 e1 = true ->
  SpecFloat.bounded prec emax m2 e2 = true ->
  match e1 ?= e2 with
  | Lt => Lt
  | Gt => Gt
  | Eq => Pos.compare_cont Eq m1 m2
  end = (Zpos m1 * sc e1 ?= Zpos m2 * sc e2).
Proof.
  intros H1 H2. destruct (Z.compare_spec e1 e2) as [He|He|He].
  - subst e2. destruct (bounded_spec _ _ H1) as [_ [He1 _]].
    pose proof (sc_pos e1 ltac:(lia)) as Hs.
    change (Pos.compare_cont Eq m1 m2) with (Zpos m1 ?= Zpos m2).
    apply Zmult_compare_compat_r. lia.
  - symmetry. apply Z.compare_lt_iff. apply mag_lt_exp; assumption.
  - symmetry. apply Z.compare_gt_iff. apply mag_lt_exp; assumption.
Qed.

Lemma mag_inj m1 e1 m2 e2 :
  SpecFloat.bounded prec emax m1 e1 = true ->
  SpecFloat.bounded prec emax m2 e2 = true ->
  Zpos m1 * sc e1 = Zpos m2 * sc e2 -> m1 = m2 /\ e1 = e2.
Proof.
  intros H1 H2 Heq. pose proof (mag_compare m1 e1 m2 e2 H1 H2) as Hc.
  rewrite Heq, Z.compare_refl in Hc.
  destruct (Z.compare_spec e1 e2) as [He|He|He]; try discriminate.
  split; [|exact He]. apply Pos.compare_eq. exact Hc.
Qed.

Lemma mag_infinity_pos : 0 < mag_infinity.
Proof. apply pow2_pos. lia. Qed.

Lemma compare_rank x y :
  valid x -> valid y -> is_nan_sf x = false -> is_nan_sf y = false ->
  SFcompare x y = Some (rank x ?= rank y).
Proof.
  unfold valid. pose proof mag_infinity_pos as Hinf.
  destruct x as [sx|sx| |sx mx ex], y as [sy|sy| |sy my ey];
    unfold valid_binary; cbn [SpecFloat.valid_binary is_nan_sf];
    intros Hx Hy Nx Ny; try discriminate;
    try pose proof (mag_finite_bounds sx mx ex Hx) as Bx;
    try pose proof (mag_finite_bounds sy my ey Hy) as By;
    unfold rank; cbn [sign_of SFcompare]; f_equal;
    try (destruct sx); try (destruct sy);
    try (symmetry; first
           [ apply Z.compare_lt_iff | apply Z.compare_gt_iff
           | apply Z.compare_eq_iff ];
         cbn [mag] in *; lia).
  - cbn [mag]. rewrite Z.compare_opp, <- (mag_compare my ey mx ex Hy Hx).
    rewrite (Z.compare_antisym ey ex), Pos.compare_cont_antisym.
    destruct (ey ?= ex); reflexivity.
  - cbn [mag]. rewrite (mag_compare mx ex my ey Hx Hy). reflexivity.
Qed.

(** *** Rounding *)

Lemma fexp_eq e : fexp prec emax e = Z.max (e - 53) (-1074).
Proof. reflexivity. Qed.

Lemma shr_nonpos mrs e n : n <= 0 -> shr mrs e n = (mrs, e).
Proof. destruct n; try reflexivity. lia. Qed.

Section RoundCore.

Variables (M : positive) (E : Z).
Hypothesis HE : -2148 <= E.
Hypothesis Hk : 0 <= round_exp M E - E.

Lemma core_sc : sc (round_exp M E) = sc E * 2 ^ (round_exp M E - E).
Proof. rewrite <- sc_shift by lia. f_equal. lia. Qed.

Lemma core_floor :
  let k := round_exp M E - E in
  (Zpos M / 2 ^ k) * 2 ^ k <= Zpos M < (Zpos M / 2 ^ k + 1) * 2 ^ k.
Proof.
  intros k. pose proof (pow2_pos k Hk) as Hp.
  pose proof (Z.div_mod (Zpos M) (2 ^ k) ltac:(lia)).
  pose proof (Z.mod_pos_bound (Zpos M) (2 ^ k) Hp). nia.
Qed.

Lemma core_lt : Zpos M / 2 ^ (round_exp M E - E) < 2 ^ 53.
Proof.
  pose proof (pow2_pos _ Hk) as Hp.
  apply Z.div_lt_upper_bound; [exact Hp|].
  destruct (digits2_bounds M) as [_ Hhi].
  apply (Z.lt_le_trans _ _ _ Hhi).
  rewrite <- Z.pow_add_r by lia. apply Z.pow_le_mono_r; [lia|].
  unfold round_exp. lia.
Qed.

Lemma core_ge :
  -1074 < round_exp M E -> 2 ^ 52 <= Zpos M / 2 ^ (round_exp M E - E).
Proof.
  intros Hn. pose proof (pow2_pos _ Hk) as Hp.
  apply Z.div_le_lower_bound; [exact Hp|].
  destruct (digits2_bounds M) as [Hlo _].
  refine (Z.le_trans _ _ _ _ Hlo).
  rewrite <- Z.pow_add_r by lia. apply Z.pow_le_mono_r; [lia|].
  unfold round_exp in *. lia.
Qed.

Lemma core_LB m0 e0 :
  0 <= m0 < 2 ^ 53 -> -1074 <= e0 ->
  m0 * sc e0 <= Zpos M * sc E ->
  m0 * sc e0 <= Zpos M / 2 ^ (round_exp M E - E) * sc (round_exp M E).
Proof.
  intros Hm0 He0 Hle.
  pose proof (pow2_pos _ Hk) as Hp. pose proof (sc_pos E HE) as HsE.
  assert (Hre : -1074 <= round_exp M E) by (unfold round_exp; lia).
  pose proof (sc_pos (round_exp M E) ltac:(lia)) as Hs'.
  destruct (Z_le_gt_dec (round_exp M E) e0) as [Hc|Hc].
  - replace e0 with (round_exp M E + (e0 - round_exp M E)) in * by lia.
    rewrite sc_shift in * by lia.
    pose proof (pow2_pos (e0 - round_exp M E) ltac:(lia)) as Hj.
    set (j := 2 ^ (e0 - round_exp M E)) in *.
    rewrite core_sc in Hle.
    set (k := 2 ^ (round_exp M E - E)) in *.
    assert (m0 * j <= Zpos M / k); [|nia].
    apply Z.div_le_lower_bound; [exact Hp|]. nia.
  - pose proof (core_ge ltac:(lia)) as Hge.
    apply (Z.le_trans _ (2 ^ 52 * sc (round_exp M E))); [|nia].
    replace (round_exp M E) with (e0 + (round_exp M E - e0)) at 1 by lia.
    rewrite sc_shift by lia.
    assert (Hj : 2 ^ 1 <= 2 ^ (round_exp M E - e0))
      by (apply Z.pow_le_mono_r; lia).
    change (2 ^ 1) with 2 in Hj. change (2 ^ 53) with (2 * 2 ^ 52) in Hm0.
    pose proof (sc_pos e0 ltac:(lia)) as Hs0.
    set (j := 2 ^ (round_exp M E - e0)) in *. set (c := 2 ^ 52) in *.
    assert (0 < c) by (subst c; lia).
    apply (Z.le_trans _ (2 * c * sc e0)); [nia|].
    replace (c * (sc e0 * j)) with (c * sc e0 * j) by lia.
    assert (0 < c * sc e0) by nia. nia.
Qed.

Lemma core_UB m0 e0 m2 :
  0 <= m0 < 2 ^ 53 -> -1074 <= e0 ->
  m2 <= Zpos M / 2 ^ (round_exp M E - E) + 1 ->
  (Zpos M mod 2 ^ (round_exp M E - E) = 0 ->
   m2 = Zpos M / 2 ^ (round_exp M E - E)) ->
  Zpos M * sc E <= m0 * sc e0 ->
  m2 * sc (round_exp M E) <= m0 * sc e0.
Proof.
  intros Hm0 He0 Hm2 Hex Hle.
  pose proof (pow2_pos _ Hk) as Hp. pose proof (sc_pos E HE) as HsE.
  assert (Hre : -1074 <= round_exp M E) by (unfold round_exp; lia).
  pose proof (sc_pos (round_exp M E) ltac:(lia)) as Hs'.
  destruct (Z_le_gt_dec (round_exp M E) e0) as [Hc|Hc].
  - replace e0 with (round_exp M E + (e0 - round_exp M E)) in * by lia.
    rewrite sc_shift in * by lia.
    pose proof (pow2_pos (e0 - round_exp M E) ltac:(lia)) as Hj.
    set (j := 2 ^ (e0 - round_exp M E)) in *.
    rewrite core_sc in Hle.
    pose proof (Z.div_mod (Zpos M) (2 ^ (round_exp M E - E)) ltac:(lia)) as Hdm.
    pose proof (Z.mod_pos_bound (Zpos M) _ Hp) as Hr.
    set (k := 2 ^ (round_exp M E - E)) in *.
    set (q := Zpos M / k) in *. set (r := Zpos M mod k) in *.
    assert (HM : Zpos M <= m0 * j * k).
    { apply (Z.mul_le_mono_pos_r _ _ (sc E)); [exact HsE|]. lia. }
    assert (m2 <= m0 * j); [|nia].
    destruct (Z.eq_dec r 0) as [Hr0|Hr0].
    + rewrite (Hex Hr0). apply (Z.mul_le_mono_pos_l _ _ k); [exact Hp|]. lia.
    + assert (q < m0 * j); [|lia].
      apply (Z.mul_lt_mono_pos_l k); [exact Hp|]. lia.
  - exfalso.
    assert (Hd : round_exp M E = Zpos (digits2_pos M) + E - 53)
      by (unfold round_exp in *; lia).
    destruct (digits2_bounds M) as [Hlo _].
    assert (Hlow : 2 ^ 52 * sc (round_exp M E) <= Zpos M * sc E).
    { apply (Z.le_trans _ (2 ^ (Zpos (digits2_pos M) - 1) * sc E)); [|nia].
      unfold sc. rewrite <- !Z.pow_add_r by lia.
      apply Z.pow_le_mono_r; lia. }
    replace (round_exp M E) with (e0 + (round_exp M E - e0)) in Hlow by lia.
    rewrite sc_shift in Hlow by lia.
    assert (Hj : 2 ^ 1 <= 2 ^ (round_exp M E - e0))
      by (apply Z.pow_le_mono_r; lia).
    change (2 ^ 1) with 2 in Hj. change (2 ^ 53) with (2 * 2 ^ 52) in Hm0.
    pose proof (sc_pos e0 ltac:(lia)) as Hs0.
    set (j := 2 ^ (round_exp M E - e0)) in *. set (c := 2 ^ 52) in *.
    assert (0 < c) by (subst c; lia).
    assert (m0 * sc e0 < 2 * c * sc e0) by nia.
    assert (2 * (c * sc e0) <= c * (sc e0 * j)); [|lia].
    replace (c * (sc e0 * j)) with (c * sc e0 * j) by lia.
    assert (0 < c * sc e0) by nia. nia.
Qed.

End RoundCore.

Lemma representable_small m0 e0 :
  0 <= m0 < 2 ^ 53 -> -1074 <= e0 <= 971 ->
  0 <= m0 * sc e0 < 2 ^ 52 * sc 972 /\ 2 ^ 52 * sc 972 < mag_infinity.
Proof.
  intros Hm He. pose proof (sc_pos e0 ltac:(lia)) as Hs.
  pose proof (sc_mono e0 971 ltac:(lia) ltac:(lia)) as Hmono.
  assert (H972 : sc 972 = sc 971 * 2) by (apply (sc_shift 971 1); lia).
  split; [split; [nia|]|].
  - rewrite H972. change (2 ^ 53) with (2 * 2 ^ 52) in Hm.
    set (c := 2 ^ 52) in *. assert (0 < c) by (subst c; lia).
    apply (Z.lt_le_trans _ (2 * c * sc e0)); [nia|]. nia.
  - unfold sc, mag_infinity. rewrite <- Z.pow_add_r by lia.
    apply Z.pow_lt_mono_r; lia.
Qed.

Lemma round_finish_spec s m2 e' :
  0 <= m2 <= 2 ^ 53 -> -1074 <= e' -> (-1074 < e' -> 2 ^ 52 <= m2) ->
  (round_finish s m2 e' = S754_zero s /\ m2 = 0) \/
  (exists m e, round_finish s m2 e' = S754_finite s m e /\
               Zpos m * sc e = m2 * sc e') \/
  (round_finish s m2 e' = S754_infinity s /\ 2 ^ 52 * sc 972 <= m2 * sc e').
Proof.
  intros Hm2 He' Hn. unfold round_finish, shr_fexp.
  rewrite fexp_eq. cbn [shr_record_of_loc].
  destruct m2 as [|p|p]; [| |lia].
  - left. cbn [Zdigits2]. rewrite shr_nonpos by lia. cbn [shr_m]. auto.
  - right. cbn [Zdigits2].
    destruct (Z.eq_dec (Zpos p) (2 ^ 53)) as [Hp|Hp].
    + assert (p = 9007199254740992%positive) by lia. subst p.
      change (Zpos (digits2_pos 9007199254740992)) with 54.
      replace (Z.max (54 + e' - 53) (-1074) - e') with 1 by lia.
      cbn [shr SpecFloat.iter_pos shr_1 shr_m].
      change (emax - prec) with 971.
      assert (Hs : sc (e' + 1) = sc e' * 2) by (apply sc_shift; lia).
      change (2 ^ 53) with (2 ^ 52 * 2).
      destruct (Z.leb_spec (e' + 1) 971) as [Hle|Hgt].
      * left. exists 4503599627370496%positive, (e' + 1). split; [reflexivity|].
        rewrite Hs. change (Zpos 4503599627370496) with (2 ^ 52). lia.
      * right. split; [reflexivity|].
        pose proof (sc_mono 972 (e' + 1) ltac:(lia) ltac:(lia)).
        rewrite Hs in *. set (c := 2 ^ 52) in *.
        assert (0 < c) by (subst c; lia). nia.
    + destruct (digits2_bounds p) as [Hlo _].
      assert (Hd : Zpos (digits2_pos p) <= 53).
      { destruct (Z_le_gt_dec (Zpos (digits2_pos p)) 53) as [|Hgt]; [assumption|].
        exfalso.
        assert (2 ^ 53 <= 2 ^ (Zpos (digits2_pos p) - 1))
          by (apply Z.pow_le_mono_r; lia).
        lia. }
      rewrite shr_nonpos by lia. cbn [shr_m].
      change (emax - prec) with 971.
      destruct (Z.leb_spec e' 971) as [Hle|Hgt].
      * left. exists p, e'. split; reflexivity.
      * right. split; [reflexivity|].
        pose proof (Hn ltac:(lia)).
        pose proof (sc_mono 972 e' ltac:(lia) ltac:(lia)).
        pose proof (sc_pos 972 ltac:(lia)). nia.
Qed.

Lemma binary_round_aux_unfold s m e l :
  binary_round_aux prec emax s m e l =
  let '(mrs, e') := shr_fexp prec emax m e l in
  round_finish s (round_nearest_even (shr_m mrs) (loc_of_shr_record mrs)) e'.
Proof.
  unfold binary_round_aux, round_finish.
  destruct (shr_fexp prec emax m e l) as [mrs e']. reflexivity.
Qed.

Lemma binary_round_aux_rounds s M E :
  -2148 <= E -> 0 <= round_exp M E - E ->
  rounds s (Zpos M * sc E) (binary_round_aux prec emax s (Zpos M) E loc_Exact).
Proof.
  intros HE Hk. rewrite binary_round_aux_unfold.
  unfold shr_fexp. rewrite fexp_eq. cbn [shr_record_of_loc Zdigits2].
  change (Z.max (Zpos (digits2_pos M) + E - 53) (-1074)) with (round_exp M E).
  pose proof (shr_spec (Zpos M) E (round_exp M E - E) ltac:(lia) Hk) as Hshr.
  destruct (shr _ E (round_exp M E - E)) as [mrs e1].
  destruct Hshr as [Hm [He Hin]].
  destruct (round_nearest_even_spec mrs) as [Hr Hrx].
  set (m2 := round_nearest_even (shr_m mrs) (loc_of_shr_record mrs)) in *.
  rewrite Hm in *. replace e1 with (round_exp M E) in * by lia. clear He.
  pose proof (core_lt M E Hk) as Hlt.
  pose proof (core_ge M E Hk) as Hge.
  pose proof (core_LB M E HE Hk) as HLB.
  pose proof (core_UB M E HE Hk) as HUB.
  assert (Hq : 0 <= Zpos M / 2 ^ (round_exp M E - E))
    by (apply Z.div_pos; [lia | apply pow2_pos; exact Hk]).
  assert (Hex : Zpos M mod 2 ^ (round_exp M E - E) = 0 ->
                m2 = Zpos M / 2 ^ (round_exp M E - E))
    by (intros H0; apply Hrx, Hin, H0).
  set (q := Zpos M / 2 ^ (round_exp M E - E)) in *.
  assert (Hre : -1074 <= round_exp M E) by (unfold round_exp; lia).
  pose proof (sc_pos (round_exp M E) ltac:(lia)) as Hs'.
  destruct (round_finish_spec s m2 (round_exp M E) ltac:(lia) Hre
              ltac:(intros Hn; specialize (Hge Hn); lia))
    as [[-> Hz]|[(m & e & -> & Hv)|[-> Hbig]]];
    (split; [reflexivity|]); (split; [reflexivity|]); cbn [mag]; split;
    intros m0 e0 Hm0 He0 Hle;
    destruct (representable_small m0 e0 Hm0 He0) as [[H0 Hsm] Hinf].
  - specialize (HLB m0 e0 Hm0 ltac:(lia) Hle). nia.
  - exact H0.
  - specialize (HLB m0 e0 Hm0 ltac:(lia) Hle). rewrite Hv. nia.
  - rewrite Hv. apply (HUB m0 e0 m2 Hm0 ltac:(lia) ltac:(lia) Hex Hle).
  - lia.
  - pose proof (HUB m0 e0 m2 Hm0 ltac:(lia) ltac:(lia) Hex Hle). lia.
Qed.

Lemma digits2_shift n M :
  Zpos (digits2_pos (shift_pos n M)) = Zpos (digits2_pos M) + Zpos n.
Proof.
  unfold shift_pos. induction n as [|n IH] using Pos.peano_ind.
  - cbn [Pos.iter digits2_pos]. lia.
  - rewrite Pos.iter_succ. cbn [digits2_pos]. lia.
Qed.

Lemma shl_align_spec M E :
  -2148 <= E ->
  let '(mz, ez) :=
    shl_align M E (fexp prec emax (Zpos (digits2_pos M) + E)) in
  Zpos mz * sc ez = Zpos M * sc E /\ -2148 <= ez /\
  0 <= round_exp mz ez - ez.
Proof.
  intros HE. rewrite fexp_eq. unfold shl_align.
  change (Z.max (Zpos (digits2_pos M) + E - 53) (-1074)) with (round_exp M E).
  destruct (round_exp M E - E) as [|p|p] eqn:Hd.
  - split; [reflexivity|]. split; [exact HE|]. lia.
  - split; [reflexivity|]. split; [exact HE|]. lia.
  - assert (Hre : -1074 <= round_exp M E) by (unfold round_exp; lia).
    change (Pos.iter xO M p) with (shift_pos p M).
    split; [|split; [lia|]].
    + rewrite shift_pos_correct. change (Z.pow_pos 2 p) with (2 ^ Zpos p).
      replace E with (round_exp M E + Zpos p) at 2 by lia.
      rewrite sc_shift by lia. lia.
    + unfold round_exp at 1. rewrite digits2_shift.
      unfold round_exp in *. lia.
Qed.

Lemma binary_round_rounds s M E :
  -2148 <= E -> rounds s (Zpos M * sc E) (binary_round prec emax s M E).
Proof.
  intros HE. unfold binary_round.
  pose proof (shl_align_spec M E HE) as H.
  destruct (shl_align M E _) as [mz ez]. destruct H as [Hv [Hez Hk]].
  rewrite <- Hv. apply binary_round_aux_rounds; assumption.
Qed.

Lemma binary_normalize_rounds m E sz :
  -2148 <= E ->
  match m with
  | 0 => binary_normalize prec emax m E sz = S754_zero sz
  | Zpos p => rounds false (m * sc E) (binary_normalize prec emax m E sz)
  | Zneg p => rounds true (- m * sc E) (binary_normalize prec emax m E sz)
  end.
Proof.
  intros HE. destruct m as [|p|p]; cbn [binary_normalize].
  - reflexivity.
  - apply binary_round_rounds, HE.
  - apply binary_round_rounds, HE.
Qed.

(** *** The operations *)

Lemma mag_nonneg x : 0 <= mag x.
Proof.
  destruct x as [s|s| |s m e]; cbn [mag]; try lia.
  - pose proof mag_infinity_pos. lia.
  - unfold sc. pose proof (Z.pow_nonneg 2 (e + 2148) ltac:(lia)). nia.
Qed.

Lemma binary_normalize_signed m E :
  -2148 <= E ->
  rounds_signed (m * sc E) (binary_normalize prec emax m E false).
Proof.
  intros HE. pose proof (binary_normalize_rounds m E false HE) as H.
  pose proof (sc_pos E HE) as Hs. unfold rounds_signed.
  destruct m as [|p|p].
  - left. split; [lia | exact H].
  - right. left. split; [lia | exact H].
  - right. right. split; [lia|].
    replace (- (Z.neg p * sc E)) with (- Z.neg p * sc E) by lia. exact H.
Qed.

Lemma rounds_signed_nan V R : rounds_signed V R -> is_nan_sf R = false.
Proof.
  intros [[_ ->]|[[_ H]|[_ H]]]; [reflexivity| |]; apply H.
Qed.

Lemma rounds_signed_nonpos V R : rounds_signed V R -> V <= 0 -> rank R <= 0.
Proof.
  intros [[_ ->]|[[HV H]|[HV H]]] Hle; [reflexivity|lia|].
  destruct H as [_ [Hs _]]. unfold rank. rewrite Hs.
  pose proof (mag_nonneg R). lia.
Qed.

Lemma rounds_signed_nonneg V R : rounds_signed V R -> 0 <= V -> 0 <= rank R.
Proof.
  intros [[_ ->]|[[HV H]|[HV H]]] Hle; [reflexivity| |lia].
  destruct H as [_ [Hs _]]. unfold rank. rewrite Hs. apply mag_nonneg.
Qed.

Lemma rounds_signed_lower V R m0 e0 :
  rounds_signed V R -> 0 <= m0 < 2 ^ 53 -> -1074 <= e0 <= 971 ->
  m0 * sc e0 <= V -> m0 * sc e0 <= rank R.
Proof.
  intros HR Hm He Hle.
  destruct (representable_small m0 e0 Hm He) as [[H0 _] _].
  destruct HR as [[HV ->]|[[HV H]|[HV H]]]; [cbn; lia| |lia].
  destruct H as [_ [Hs [HLB _]]]. unfold rank. rewrite Hs.
  exact (HLB m0 e0 Hm He Hle).
Qed.

Lemma rounds_signed_upper V R m0 e0 :
  rounds_signed V R -> 0 <= m0 < 2 ^ 53 -> -1074 <= e0 <= 971 ->
  V <= m0 * sc e0 -> rank R <= m0 * sc e0.
Proof.
  intros HR Hm He Hle.
  destruct (representable_small m0 e0 Hm He) as [[H0 _] _].
  destruct HR as [[HV ->]|[[HV H]|[HV H]]]; [cbn; lia| |].
  - destruct H as [_ [Hs [_ HUB]]]. unfold rank. rewrite Hs.
    exact (HUB m0 e0 Hm He Hle).
  - destruct H as [_ [Hs _]]. unfold rank. rewrite Hs.
    pose proof (mag_nonneg R). lia.
Qed.

Lemma shl_align_fst m e ez :
  -2148 <= ez -> ez <= e ->
  Zpos (fst (shl_align m e ez)) * sc ez = Zpos m * sc e.
Proof.
  intros Hz He. unfold shl_align.
  destruct (ez - e) as [|p|p] eqn:Hd; cbn [fst].
  - replace ez with e by lia. reflexivity.
  - lia.
  - change (Pos.iter xO m p) with (shift_pos p m).
    rewrite shift_pos_correct. change (Z.pow_pos 2 p) with (2 ^ Zpos p).
    replace e with (ez + Zpos p) by lia.
    rewrite sc_shift by lia. lia.
Qed.

Lemma rank_finite s m e :
  rank (S754_finite s m e) = cond_Zopp s (Zpos m * sc e).
Proof. destruct s; reflexivity. Qed.

Lemma aligned_rank s m e ez :
  -2148 <= ez -> ez <= e ->
  cond_Zopp s (Zpos (fst (shl_align m e ez))) * sc ez =
  rank (S754_finite s m e).
Proof.
  intros Hz He. rewrite rank_finite, <- (shl_align_fst m e ez Hz He).
  destruct s; cbn [cond_Zopp]; lia.
Qed.

Lemma SFadd_finite sx mx ex sy my ey :
  SpecFloat.bounded prec emax mx ex = true ->
  SpecFloat.bounded prec emax my ey = true ->
  rounds_signed (rank (S754_finite sx mx ex) + rank (S754_finite sy my ey))
    (SFadd prec emax (S754_finite sx mx ex) (S754_finite sy my ey)).
Proof.
  intros Hx Hy.
  destruct (bounded_spec _ _ Hx) as [_ [Hex _]].
  destruct (bounded_spec _ _ Hy) as [_ [Hey _]].
  cbn [SFadd]. cbv zeta.
  rewrite <- (aligned_rank sx mx ex (Z.min ex ey)) by lia.
  rewrite <- (aligned_rank sy my ey (Z.min ex ey)) by lia.
  rewrite <- Z.mul_add_distr_r. apply binary_normalize_signed. lia.
Qed.

Lemma SFsub_finite sx mx ex sy my ey :
  SpecFloat.bounded prec emax mx ex = true ->
  SpecFloat.bounded prec emax my ey = true ->
  rounds_signed (rank (S754_finite sx mx ex) - rank (S754_finite sy my ey))
    (SFsub prec emax (S754_finite sx mx ex) (S754_finite sy my ey)).
Proof.
  intros Hx Hy.
  destruct (bounded_spec _ _ Hx) as [_ [Hex _]].
  destruct (bounded_spec _ _ Hy) as [_ [Hey _]].
  cbn [SFsub]. cbv zeta.
  rewrite <- (aligned_rank sx mx ex (Z.min ex ey)) by lia.
  rewrite <- (aligned_rank sy my ey (Z.min ex ey)) by lia.
  rewrite <- Z.mul_sub_distr_r. apply binary_normalize_signed. lia.
Qed.

Lemma SFmul_finite sx mx ex sy my ey :
  SpecFloat.bounded prec emax mx ex = true ->
  SpecFloat.bounded prec emax my ey = true ->
  rounds (xorb sx sy) (Zpos mx * Zpos my * sc (ex + ey))
    (SFmul prec emax (S754_finite sx mx ex) (S754_finite sy my ey)).
Proof.
  intros Hx Hy.
  destruct (bounded_spec _ _ Hx) as [_ [Hex Hnx]].
  destruct (bounded_spec _ _ Hy) as [_ [Hey Hny]].
  cbn [SFmul]. rewrite <- Pos2Z.inj_mul.
  apply binary_round_aux_rounds; [lia|].
  unfold round_exp.
  destruct (Z.eq_dec ex (-1074)) as [Ex|Ex];
    [destruct (Z.eq_dec ey (-1074)) as [Ey|Ey]|]; [lia| |].
  - specialize (Hny ltac:(lia)).
    destruct (digits2_bounds (mx * my)) as [_ Hhi].
    rewrite Pos2Z.inj_mul in Hhi.
    assert (2 ^ 52 < 2 ^ Zpos (digits2_pos (mx * my))) by nia.
    assert (52 < Zpos (digits2_pos (mx * my)))
      by (apply (Z.pow_lt_mono_r_iff 2); lia).
    lia.
  - specialize (Hnx ltac:(lia)).
    destruct (digits2_bounds (mx * my)) as [_ Hhi].
    rewrite Pos2Z.inj_mul in Hhi.
    assert (2 ^ 52 < 2 ^ Zpos (digits2_pos (mx * my))) by nia.
    assert (52 < Zpos (digits2_pos (mx * my)))
      by (apply (Z.pow_lt_mono_r_iff 2); lia).
    lia.
Qed.

Lemma sc_mul a b : -2148 <= a + b -> -2148 <= a -> -2148 <= b ->
  sc a * sc b = sc (a + b) * 2 ^ 2148.
Proof.
  intros. unfold sc. rewrite <- !Z.pow_add_r by lia. f_equal. lia.
Qed.

(** *** Comparisons of binary64 values *)

Lemma compare_full x y :
  valid x -> valid y ->
  SFcompare x y =
  if is_nan_sf x || is_nan_sf y then None else Some (rank x ?= rank y).
Proof.
  intros Hx Hy. destruct (is_nan_sf x) eqn:Nx.
  - destruct x; try discriminate. reflexivity.
  - destruct (is_nan_sf y) eqn:Ny.
    + destruct y; try discriminate. destruct x; reflexivity.
    + apply compare_rank; assumption.
Qed.

Lemma ltb_rank x y :
  PrimFloat.ltb x y = true <->
  is_nan_sf (Prim2SF x) = false /\ is_nan_sf (Prim2SF y) = false /\
  fr x < fr y.
Proof.
  rewrite FloatAxioms.ltb_spec. unfold SFltb, fr.
  rewrite (compare_full _ _ (Prim2SF_valid x) (Prim2SF_valid y)).
  destruct (is_nan_sf (Prim2SF x)), (is_nan_sf (Prim2SF y)); cbn [orb];
    try (split; [discriminate | intros (? & ? & ?); discriminate]).
  destruct (Z.compare_spec (rank (Prim2SF x)) (rank (Prim2SF y)));
    split; try discriminate; try (intros (_ & _ & ?); lia); auto.
Qed.

Lemma leb_rank x y :
  PrimFloat.leb x y = true <->
  is_nan_sf (Prim2SF x) = false /\ is_nan_sf (Prim2SF y) = false /\
  fr x <= fr y.
Proof.
  rewrite FloatAxioms.leb_spec. unfold SFleb, fr.
  rewrite (compare_full _ _ (Prim2SF_valid x) (Prim2SF_valid y)).
  destruct (is_nan_sf (Prim2SF x)), (is_nan_sf (Prim2SF y)); cbn [orb];
    try (split; [discriminate | intros (? & ? & ?); discriminate]).
  destruct (Z.compare_spec (rank (Prim2SF x)) (rank (Prim2SF y)));
    split; try discriminate; try (intros (_ & _ & ?); lia);
    intros _; (split; [reflexivity|]); (split; [reflexivity|]); lia.
Qed.

Lemma ltb_false_rank x y :
  PrimFloat.ltb x y = false ->
  is_nan_sf (Prim2SF x) = false -> is_nan_sf (Prim2SF y) = false ->
  fr y <= fr x.
Proof.
  intros Hf Nx Ny. destruct (Z_le_gt_dec (fr y) (fr x)) as [|Hgt]; [assumption|].
  assert (PrimFloat.ltb x y = true) by (apply ltb_rank; repeat split; auto; lia).
  congruence.
Qed.

Lemma is_nan_spec x : PrimFloat.is_nan x = is_nan_sf (Prim2SF x).
Proof.
  unfold PrimFloat.is_nan. rewrite FloatAxioms.eqb_spec. unfold SFeqb.
  rewrite (compare_full _ _ (Prim2SF_valid x) (Prim2SF_valid x)).
  destruct (is_nan_sf (Prim2SF x)); cbn [orb]; [reflexivity|].
  rewrite Z.compare_refl. reflexivity.
Qed.

Lemma isfinite_spec x : b64_isfinite x = sf_finite (Prim2SF x).
Proof.
  unfold b64_isfinite. rewrite is_nan_spec.
  unfold PrimFloat.is_infinity. rewrite FloatAxioms.eqb_spec, abs_spec.
  change (Prim2SF infinity) with (S754_infinity false).
  destruct (Prim2SF x) as [s|s| |s m e]; reflexivity.
Qed.

Lemma finite_not_nan x : sf_finite x = true -> is_nan_sf x = false.
Proof. destruct x; try discriminate; reflexivity. Qed.

(** *** The order laws *)

Lemma b64_lt_irrefl x : PrimFloat.ltb x x = false.
Proof.
  destruct (PrimFloat.ltb x x) eqn:E; [|reflexivity].
  apply ltb_rank in E. lia.
Qed.

Lemma b64_lt_trans x y z :
  PrimFloat.ltb x y = true -> PrimFloat.ltb y z = true ->
  PrimFloat.ltb x z = true.
Proof.
  rewrite !ltb_rank. intros (? & ? & ?) (? & ? & ?). repeat split; auto; lia.
Qed.

Lemma b64_lt_le_trans x y z :
  PrimFloat.ltb x y = true -> PrimFloat.leb y z = true ->
  PrimFloat.ltb x z = true.
Proof.
  rewrite !ltb_rank, leb_rank.
  intros (? & ? & ?) (? & ? & ?). repeat split; auto; lia.
Qed.

Lemma b64_le_trans x y z :
  PrimFloat.leb x y = true -> PrimFloat.leb y z = true ->
  PrimFloat.leb x z = true.
Proof.
  rewrite !leb_rank. intros (? & ? & ?) (? & ? & ?). repeat split; auto; lia.
Qed.

Lemma b64_le_refl x : b64_isfinite x = true -> PrimFloat.leb x x = true.
Proof.
  rewrite isfinite_spec, leb_rank. intros Hf.
  pose proof (finite_not_nan _ Hf). repeat split; auto; lia.
Qed.

Lemma b64_lowest_least x :
  b64_isfinite x = true -> PrimFloat.ltb b64_lowest x = false ->
  x = b64_lowest.
Proof.
  rewrite isfinite_spec. intros Hf Hlt.
  pose proof (ltb_false_rank _ _ Hlt eq_refl (finite_not_nan _ Hf)) as Hle.
  apply Prim2SF_inj. unfold fr in Hle.
  pose proof (Prim2SF_valid x) as Hv.
  change (Prim2SF b64_lowest)
    with (S754_finite true 9007199254740991 971) in *.
  destruct (Prim2SF x) as [s|s| |s m e]; try discriminate.
  - exfalso. rewrite rank_finite in Hle. unfold rank in Hle.
    cbn [sign_of mag cond_Zopp] in Hle.
    pose proof (sc_pos 971 ltac:(lia)). destruct s; lia.
  - unfold valid_binary in Hv. cbn [SpecFloat.valid_binary] in Hv.
    destruct (bounded_spec m e Hv) as [Hm [He _]].
    rewrite !rank_finite in Hle.
    pose proof (sc_pos e ltac:(lia)) as Hs.
    pose proof (sc_pos 971 ltac:(lia)) as Hs'.
    pose proof (sc_mono e 971 ltac:(lia) ltac:(lia)) as Hmono.
    destruct s; cbn [cond_Zopp] in Hle; [|exfalso; nia].
    assert (Heq : Zpos m * sc e = Zpos 9007199254740991 * sc 971).
    { change (2 ^ 53) with (Zpos 9007199254740991 + 1) in Hm.
      set (c := Zpos 9007199254740991) in *.
      assert (0 < c) by (subst c; lia).
      assert (Zpos m * sc e <= c * sc 971); [|lia].
      apply Z.mul_le_mono_nonneg; lia. }
    destruct (mag_inj m e 9007199254740991 971 Hv eq_refl Heq) as [-> ->].
    reflexivity.
Qed.

(** *** Sums, differences and products of binary64 values *)

Lemma rank_nonneg_finite s m e :
  SpecFloat.bounded prec emax m e = true ->
  0 <= rank (S754_finite s m e) -> s = false.
Proof.
  intros Hb. pose proof (mag_finite_bounds s m e Hb) as Hm.
  unfold rank. cbn [sign_of]. destruct s; [lia | reflexivity].
Qed.

Lemma rank_nonneg_infinity s : 0 <= rank (S754_infinity s) -> s = false.
Proof.
  pose proof mag_infinity_pos. unfold rank. cbn [sign_of mag].
  destruct s; [lia | reflexivity].
Qed.

Lemma rank_zero s : rank (S754_zero s) = 0.
Proof. destruct s; reflexivity. Qed.

Lemma representable_finite m e :
  SpecFloat.bounded prec emax m e = true ->
  0 <= Zpos m < 2 ^ 53 /\ -1074 <= e <= 971.
Proof. intros Hb. destruct (bounded_spec m e Hb) as [? [? _]]. lia. Qed.

Lemma SFadd_nonneg x y :
  valid x -> valid y -> is_nan_sf x = false -> is_nan_sf y = false ->
  0 <= rank x -> 0 <= rank y ->
  is_nan_sf (SFadd prec emax x y) = false /\
  rank x <= rank (SFadd prec emax x y) /\
  rank y <= rank (SFadd prec emax x y) /\
  forall m0 e0, 0 <= m0 < 2 ^ 53 -> -1074 <= e0 <= 971 ->
    rank x + rank y <= m0 * sc e0 ->
    rank (SFadd prec emax x y) <= m0 * sc e0.
Proof.
  intros Vx Vy Nx Ny Hx Hy. pose proof mag_infinity_pos as Hinf.
  unfold valid, valid_binary in *.
  destruct x as [sx|sx| |sx mx ex]; try discriminate;
    destruct y as [sy|sy| |sy my ey]; try discriminate;
    cbn [SpecFloat.valid_binary] in *;
    try (apply rank_nonneg_infinity in Hx; subst sx);
    try (apply rank_nonneg_infinity in Hy; subst sy);
    try (pose proof (rank_nonneg_finite _ _ _ Vx Hx); subst sx);
    try (pose proof (rank_nonneg_finite _ _ _ Vy Hy); subst sy);
    try pose proof (mag_finite_bounds false mx ex Vx) as Bx;
    try pose proof (mag_finite_bounds false my ey Vy) as By.
  1: { assert (Hr : rank (SFadd prec emax (S754_zero sx) (S754_zero sy)) = 0)
         by (destruct sx, sy; reflexivity).
       assert (Hn : is_nan_sf (SFadd prec emax (S754_zero sx) (S754_zero sy))
                    = false) by (destruct sx, sy; reflexivity).
       rewrite Hr, !rank_zero. repeat split; auto; try lia. }
  8: { pose proof (SFadd_finite false mx ex false my ey Vx Vy) as HR.
       destruct (representable_finite _ _ Vx) as [Hmx Hex].
       destruct (representable_finite _ _ Vy) as [Hmy Hey].
       split; [exact (rounds_signed_nan _ _ HR)|].
       split; [|split].
       - rewrite (rank_finite false mx ex) at 1. cbn [cond_Zopp].
         apply (rounds_signed_lower _ _ _ _ HR Hmx Hex).
         rewrite !rank_finite. cbn [cond_Zopp]. cbn [mag] in By. lia.
       - rewrite (rank_finite false my ey) at 1. cbn [cond_Zopp].
         apply (rounds_signed_lower _ _ _ _ HR Hmy Hey).
         rewrite !rank_finite. cbn [cond_Zopp]. cbn [mag] in Bx. lia.
       - intros m0 e0 Hm0 He0.
         apply (rounds_signed_upper _ _ _ _ HR Hm0 He0). }
  all: cbn [SFadd is_nan_sf]; rewrite ?rank_zero;
    unfold rank in *; cbn [sign_of mag] in *;
    (split; [reflexivity|]); (split; [lia|]); (split; [lia|]);
    intros m0 e0 Hm0 He0 Hle;
    destruct (representable_small m0 e0 Hm0 He0) as [[H0 Hsm] Hbig]; lia.
Qed.

Lemma SFsub_finite_spec x y :
  valid x -> valid y -> sf_finite x = true -> sf_finite y = true ->
  is_nan_sf (SFsub prec emax x y) = false /\
  (rank x <= rank y -> rank (SFsub prec emax x y) <= 0) /\
  (x = y -> SFsub prec emax x y = S754_zero false).
Proof.
  intros Vx Vy Fx Fy. unfold valid, valid_binary in *.
  destruct x as [sx|sx| |sx mx ex]; try discriminate;
    destruct y as [sy|sy| |sy my ey]; try discriminate;
    cbn [SpecFloat.valid_binary] in *.
  - split; [destruct sx, sy; reflexivity|].
    split; [intros _; destruct sx, sy; reflexivity|].
    intros [= ->]. destruct sy; reflexivity.
  - cbn [SFsub is_nan_sf]. split; [reflexivity|]. split; [|discriminate].
    rewrite rank_zero. intros Hle.
    apply (rank_nonneg_finite _ _ _ Vy) in Hle. subst sy.
    unfold rank. cbn [sign_of negb].
    pose proof (mag_nonneg (S754_finite true my ey)). lia.
  - cbn [SFsub is_nan_sf]. split; [reflexivity|]. split; [|discriminate].
    rewrite rank_zero. auto.
  - pose proof (SFsub_finite sx mx ex sy my ey Vx Vy) as HR.
    split; [exact (rounds_signed_nan _ _ HR)|]. split.
    + intros Hle. apply (rounds_signed_nonpos _ _ HR). lia.
    + intros [= -> -> ->]. rewrite Z.sub_diag in HR.
      destruct HR as [[_ H]|[[H _]|[H _]]]; [exact H|lia|lia].
Qed.

Lemma not_nan_bounded_finite x :
  is_nan_sf x = false -> - mag_infinity < rank x < mag_infinity ->
  sf_finite x = true.
Proof.
  destruct x as [s|s| |s m e]; try discriminate; try reflexivity.
  unfold rank. cbn [sign_of mag]. destruct s; lia.
Qed.

Lemma rounds_signed_exact V R m0 e0 :
  rounds_signed V R -> 0 <= m0 < 2 ^ 53 -> -1074 <= e0 <= 971 ->
  V = m0 * sc e0 -> is_nan_sf R = false /\ rank R = V.
Proof.
  intros HR Hm He HV. split; [exact (rounds_signed_nan _ _ HR)|].
  pose proof (rounds_signed_lower _ _ _ _ HR Hm He ltac:(lia)).
  pose proof (rounds_signed_upper _ _ _ _ HR Hm He ltac:(lia)). lia.
Qed.

(** *** Conversions *)

Lemma b64_ofZ_rank n :
  0 <= n < 2 ^ 53 ->
  is_nan_sf (Prim2SF (b64_ofZ n)) = false /\ fr (b64_ofZ n) = n * sc 0.
Proof.
  intros Hn. unfold fr, b64_ofZ. rewrite of_uint63_spec, Uint63.of_Z_spec.
  rewrite Z.mod_small
    by (split; [lia|]; apply (Z.lt_trans _ (2 ^ 53)); [lia | reflexivity]).
  apply (rounds_signed_exact _ _ n 0); [|lia|lia|reflexivity].
  apply binary_normalize_signed. lia.
Qed.

Lemma fr_one : fr 1%float = sc 0.
Proof.
  unfold fr. change (Prim2SF 1) with (S754_finite false 4503599627370496 (-52)).
  rewrite rank_finite. cbn [cond_Zopp].
  change (Zpos 4503599627370496) with (2 ^ 52).
  rewrite (sc_shift (-52) 52 ltac:(lia) ltac:(lia) : sc 0 = _). lia.
Qed.

Lemma fr_zero : fr 0%float = 0.
Proof. reflexivity. Qed.

Lemma mantissa_bits_range x0 x1 : 0 <= mantissa_bits x0 x1 < 2 ^ 52.
Proof.
  unfold mantissa_bits.
  pose proof (Z.mod_pos_bound x0 (2 ^ 20) ltac:(lia)).
  pose proof (Z.mod_pos_bound x1 (2 ^ 32) ltac:(lia)).
  change (2 ^ 52) with (2 ^ 20 * 2 ^ 32). nia.
Qed.

(** *** The laws of the arithmetic, for binary64 *)

Lemma leb_zero_rank x :
  PrimFloat.leb 0 x = true <->
  is_nan_sf (Prim2SF x) = false /\ 0 <= fr x.
Proof. rewrite leb_rank, fr_zero. cbn. tauto. Qed.

Lemma b64_add_spec x y :
  PrimFloat.leb 0 x = true -> PrimFloat.leb 0 y = true ->
  is_nan_sf (Prim2SF (x + y)) = false /\
  fr x <= fr (x + y)%float /\ fr y <= fr (x + y)%float /\
  forall m0 e0, 0 <= m0 < 2 ^ 53 -> -1074 <= e0 <= 971 ->
    fr x + fr y <= m0 * sc e0 -> fr (x + y)%float <= m0 * sc e0.
Proof.
  rewrite !leb_zero_rank. intros [Nx Hx] [Ny Hy]. unfold fr.
  rewrite add_spec.
  exact (SFadd_nonneg _ _ (Prim2SF_valid x) (Prim2SF_valid y) Nx Ny Hx Hy).
Qed.

Lemma b64_add_le_l x y :
  PrimFloat.leb 0 x = true -> PrimFloat.leb 0 y = true ->
  PrimFloat.leb x (x + y) = true.
Proof.
  intros Hx Hy. destruct (b64_add_spec x y Hx Hy) as (N & Hl & _).
  apply leb_zero_rank in Hx. apply leb_rank. tauto.
Qed.

Lemma b64_add_le_r x y :
  PrimFloat.leb 0 x = true -> PrimFloat.leb 0 y = true ->
  PrimFloat.leb y (x + y) = true.
Proof.
  intros Hx Hy. destruct (b64_add_spec x y Hx Hy) as (N & _ & Hr & _).
  apply leb_zero_rank in Hy. apply leb_rank. tauto.
Qed.

Lemma b64_add_bound x y n :
  0 <= n < 2 ^ 31 ->
  PrimFloat.leb 0 x = true -> PrimFloat.leb 0 y = true ->
  PrimFloat.leb x (b64_ofZ n) = true -> PrimFloat.leb y 1 = true ->
  PrimFloat.leb (x + y) (b64_ofZ (n + 1)) = true.
Proof.
  intros Hn Hx Hy Hxn Hy1.
  destruct (b64_add_spec x y Hx Hy) as (N & _ & _ & HUB).
  apply leb_rank in Hxn. apply leb_rank in Hy1. rewrite fr_one in Hy1.
  destruct (b64_ofZ_rank n ltac:(lia)) as [_ Rn].
  destruct (b64_ofZ_rank (n + 1) ltac:(lia)) as [Nn Rn'].
  apply leb_rank. split; [exact N|]. split; [exact Nn|].
  rewrite Rn'. apply HUB; lia.
Qed.

Lemma b64_bounded_finite x n :
  0 <= n <= 2 ^ 31 ->
  PrimFloat.leb 0 x = true -> PrimFloat.leb x (b64_ofZ n) = true ->
  b64_isfinite x = true.
Proof.
  intros Hn Hx Hxn. apply leb_zero_rank in Hx. apply leb_rank in Hxn.
  destruct (b64_ofZ_rank n ltac:(lia)) as [_ Rn].
  destruct (representable_small n 0 ltac:(lia) ltac:(lia)) as [[_ Hs] Hb].
  pose proof mag_infinity_pos.
  rewrite isfinite_spec. apply not_nan_bounded_finite; [tauto|].
  unfold fr in *. lia.
Qed.

Lemma b64_sub_spec x m :
  b64_isfinite x = true -> b64_isfinite m = true ->
  is_nan_sf (Prim2SF (x - m)) = false /\
  (fr x <= fr m -> fr (x - m)%float <= 0) /\
  (x = m -> (x - m)%float = 0%float).
Proof.
  rewrite !isfinite_spec. intros Fx Fm. unfold fr. rewrite sub_spec.
  destruct (SFsub_finite_spec _ _ (Prim2SF_valid x) (Prim2SF_valid m) Fx Fm)
    as (N & Hle & Heq).
  split; [exact N|]. split; [exact Hle|].
  intros ->. apply Prim2SF_inj. rewrite sub_spec. apply Heq. reflexivity.
Qed.

Section WithExp.

Context (exp : float -> float) (HE : ExpLaws exp).

Lemma b64_exp_diag m :
  b64_isfinite m = true -> exp (m - m)%float = 1%float.
Proof.
  intros Hm. destruct (b64_sub_spec m m Hm Hm) as (_ & _ & H).
  rewrite (H eq_refl). apply (exp_zero exp HE).
Qed.

Lemma b64_exp_nonneg x m :
  b64_isfinite x = true -> b64_isfinite m = true ->
  PrimFloat.leb 0 (exp (x - m)%float) = true.
Proof.
  intros Hx Hm. destruct (b64_sub_spec x m Hx Hm) as (N & _ & _).
  apply (exp_nonneg exp HE). rewrite is_nan_spec. exact N.
Qed.

Lemma b64_exp_le_one x m :
  b64_isfinite x = true -> b64_isfinite m = true ->
  PrimFloat.ltb m x = false ->
  PrimFloat.leb (exp (x - m)%float) 1 = true.
Proof.
  intros Hx Hm Hlt. destruct (b64_sub_spec x m Hx Hm) as (N & Hle & _).
  apply (exp_le_one exp HE). apply leb_rank.
  split; [exact N|]. split; [reflexivity|]. rewrite fr_zero. apply Hle.
  rewrite isfinite_spec in Hx, Hm.
  apply (ltb_false_rank _ _ Hlt); apply finite_not_nan; assumption.
Qed.

End WithExp.

(** The "uniform value" is a multiple of [2^-52] below one. *)
Lemma b64_unit_rank x0 x1 :
  is_nan_sf (Prim2SF (b64_Uint64ToDouble x0 x1)) = false /\
  exists k, 0 <= k < 2 ^ 52 /\
            fr (b64_Uint64ToDouble x0 x1) = k * sc (-52).
Proof.
  pose proof (mantissa_bits_range x0 x1) as Hk.
  unfold b64_Uint64ToDouble. set (k := mantissa_bits x0 x1) in *.
  destruct (b64_ofZ_rank (2 ^ 52 + k)
              ltac:(change (2 ^ 53) with (2 ^ 52 + 2 ^ 52); lia)) as [Na Ra].
  unfold b64_ofZ in Na, Ra.
  set (a := of_uint63 (Uint63.of_Z (2 ^ 52 + k))) in *.
  assert (Hs0 : sc 0 = sc (-52) * 2 ^ 52)
    by (apply (sc_shift (-52) 52); lia).
  pose proof (sc_pos (-52) ltac:(lia)) as Hs52.
  (* the scaled value [b] *)
  assert (Hb : is_nan_sf (Prim2SF (a * 0x1p-52)) = false /\
               fr (a * 0x1p-52)%float = (2 ^ 52 + k) * sc (-52)).
  { unfold fr in *. rewrite mul_spec. unfold SF64mul.
    change (Prim2SF 0x1p-52) with (S754_finite false 4503599627370496 (-104)).
    pose proof (Prim2SF_valid a) as Va. unfold valid_binary in Va.
    destruct (Prim2SF a) as [s|s| |s ma ea]; try discriminate.
    - rewrite rank_zero in Ra. nia.
    - exfalso. pose proof mag_infinity_pos.
      destruct (representable_small (2 ^ 52 + k) 0
                  ltac:(change (2 ^ 53) with (2 ^ 52 + 2 ^ 52); lia)
                  ltac:(lia)) as [[_ ?] ?].
      unfold rank in Ra. cbn [sign_of mag] in Ra. destruct s; lia.
    - cbn [SpecFloat.valid_binary] in Va.
      assert (s = false).
      { apply (rank_nonneg_finite _ _ _ Va). rewrite Ra.
        pose proof (sc_pos 0 ltac:(lia)). nia. }
      subst s. rewrite rank_finite in Ra. cbn [cond_Zopp] in Ra.
      destruct (representable_finite _ _ Va) as [Hma Hea].
      pose proof (SFmul_finite false ma ea false 4503599627370496 (-104)
                    Va eq_refl) as HR.
      destruct HR as (N & Hsg & HLB & HUB). cbn [xorb] in Hsg.
      split; [exact N|]. unfold rank. rewrite Hsg.
      change (Zpos 4503599627370496) with (2 ^ 52) in *.
      assert (HV : Zpos ma * 2 ^ 52 * sc (ea + -104) =
                   (2 ^ 52 + k) * sc (-52)).
      { assert (Hsa : sc ea = sc (ea + -104) * 2 ^ 104).
        { replace ea with (ea + -104 + 104) at 1 by lia.
          apply sc_shift; lia. }
        rewrite Hsa, Hs0 in Ra.
        change (2 ^ 104) with (2 ^ 52 * 2 ^ 52) in Ra.
        set (c := 2 ^ 52) in *. assert (0 < c) by (subst c; lia).
        apply (Z.mul_reg_r _ _ c); [lia|]. lia. }
      assert (Hrep : 0 <= 2 ^ 52 + k < 2 ^ 53)
        by (change (2 ^ 53) with (2 ^ 52 + 2 ^ 52); lia).
      pose proof (HLB (2 ^ 52 + k) (-52) Hrep ltac:(lia) ltac:(lia)).
      pose proof (HUB (2 ^ 52 + k) (-52) Hrep ltac:(lia) ltac:(lia)).
      lia. }
  destruct Hb as [Nb Rb]. set (b := (a * 0x1p-52)%float) in *.
  (* minus one *)
  unfold fr in *. rewrite sub_spec. unfold SF64sub.
  change (Prim2SF 1) with (S754_finite false 4503599627370496 (-52)).
  pose proof (Prim2SF_valid b) as Vb. unfold valid_binary in Vb.
  destruct (Prim2SF b) as [s|s| |s mb eb]; try discriminate.
  - rewrite rank_zero in Rb. nia.
  - exfalso. pose proof mag_infinity_pos.
    destruct (representable_small (2 ^ 52 + k) (-52)
                ltac:(change (2 ^ 53) with (2 ^ 52 + 2 ^ 52); lia)
                ltac:(lia)) as [[_ ?] ?].
    unfold rank in Rb. cbn [sign_of mag] in Rb. destruct s; lia.
  - cbn [SpecFloat.valid_binary] in Vb.
    pose proof (SFsub_finite s mb eb false 4503599627370496 (-52) Vb eq_refl)
      as HR.
    rewrite Rb in HR. rewrite (rank_finite false _ (-52)) in HR.
    cbn [cond_Zopp] in HR. change (Zpos 4503599627370496) with (2 ^ 52) in HR.
    destruct (rounds_signed_exact _ _ k (-52) HR ltac:(lia) ltac:(lia)
                ltac:(lia)) as [N R].
    split; [exact N|]. exists k. split; [exact Hk|]. rewrite R. lia.
Qed.

Lemma b64_unit_mul x0 x1 t :
  PrimFloat.leb 1 t = true -> b64_isfinite t = true ->
  PrimFloat.leb 0 (b64_Uint64ToDouble x0 x1 * t) = true /\
  PrimFloat.ltb (b64_Uint64ToDouble x0 x1 * t) t = true.
Proof.
  intros H1 Hf. destruct (b64_unit_rank x0 x1) as [Nu (k & Hk & Ru)].
  set (u := b64_Uint64ToDouble x0 x1) in *.
  apply leb_rank in H1. destruct H1 as (_ & Nt & Rt). rewrite fr_one in Rt.
  rewrite isfinite_spec in Hf.
  rewrite leb_zero_rank, ltb_rank. unfold fr in *. rewrite mul_spec.
  unfold SF64mul.
  pose proof (Prim2SF_valid t) as Vt. pose proof (Prim2SF_valid u) as Vu.
  unfold valid_binary in *.
  pose proof (sc_pos 0 ltac:(lia)) as Hs0.
  pose proof (sc_pos (-52) ltac:(lia)) as Hs52.
  assert (Hs0' : sc 0 = sc (-52) * 2 ^ 52)
    by (apply (sc_shift (-52) 52); lia).
  destruct (Prim2SF t) as [st|st| |st mt et]; try discriminate.
  { rewrite rank_zero in Rt. lia. }
  cbn [SpecFloat.valid_binary] in Vt.
  assert (st = false) by (apply (rank_nonneg_finite _ _ _ Vt); lia).
  subst st. rewrite rank_finite in *. cbn [cond_Zopp] in *.
  destruct (bounded_spec _ _ Vt) as [Hmt [Het Hnt]].
  pose proof (sc_pos et ltac:(lia)) as Hset.
  assert (Hmt52 : 2 ^ 52 <= Zpos mt).
  { apply Hnt. destruct (Z.eq_dec et (-1074)) as [->|]; [exfalso|lia].
    assert (sc 0 = sc (-1074) * 2 ^ 1074)
      by (apply (sc_shift (-1074) 1074); lia).
    pose proof (sc_pos (-1074) ltac:(lia)).
    assert (2 ^ 53 <= 2 ^ 1074) by (apply Z.pow_le_mono_r; lia).
    nia. }
  destruct (Prim2SF u) as [su|su| |su mu eu]; try discriminate.
  - cbn [SFmul is_nan_sf]. rewrite rank_zero. repeat split; auto; lia.
  - exfalso. pose proof mag_infinity_pos.
    destruct (representable_small k (-52) ltac:(lia) ltac:(lia)) as [[_ ?] ?].
    unfold rank in Ru. cbn [sign_of mag] in Ru. destruct su; lia.
  - cbn [SpecFloat.valid_binary] in Vu.
    assert (su = false) by (apply (rank_nonneg_finite _ _ _ Vu); nia).
    subst su. rewrite rank_finite in Ru. cbn [cond_Zopp] in Ru.
    destruct (bounded_spec _ _ Vu) as [_ [Heu _]].
    destruct (SFmul_finite false mu eu false mt et Vu Vt)
      as (N & Hsg & _ & HUB).
    cbn [xorb] in Hsg. unfold rank. rewrite Hsg.
    pose proof (mag_nonneg (SFmul prec emax (S754_finite false mu eu)
                              (S754_finite false mt et))) as Hmag.
    split; [split; [exact N | exact Hmag]|].
    split; [exact N|]. split; [reflexivity|].
    assert (HV : Zpos mu * Zpos mt * sc (eu + et) <= (Zpos mt - 1) * sc et).
    { apply (Z.mul_le_mono_pos_r _ _ (2 ^ 2148)); [lia|].
      replace (Zpos mu * Zpos mt * sc (eu + et) * 2 ^ 2148)
        with (Zpos mu * Zpos mt * (sc (eu + et) * 2 ^ 2148)) by lia.
      rewrite <- sc_mul by lia.
      replace (Zpos mu * Zpos mt * (sc eu * sc et))
        with (Zpos mu * sc eu * (Zpos mt * sc et)) by lia.
      rewrite Ru. change (2 ^ 2148) with (sc 0). rewrite Hs0'.
      set (c := 2 ^ 52) in *. assert (0 < c) by (subst c; lia).
      assert (k * Zpos mt <= (Zpos mt - 1) * c) by nia.
      replace (k * sc (-52) * (Zpos mt * sc et))
        with (k * Zpos mt * (sc (-52) * sc et)) by lia.
      replace ((Zpos mt - 1) * sc et * (sc (-52) * c))
        with ((Zpos mt - 1) * c * (sc (-52) * sc et)) by lia.
      apply Z.mul_le_mono_nonneg_r; [nia | assumption]. }
    pose proof (HUB (Zpos mt - 1) et ltac:(lia) ltac:(lia) HV). nia.
Qed.

(** Binary64, with an [exp] as assumed, satisfies the laws. *)
Theorem b64_laws (exp : float -> float) :
  ExpLaws exp -> DoubleLaws (binary64 exp).
Proof.
  intros HE. constructor; cbn [binary64 dlt dle disfinite dlowest dzero dunit
    dofZ dadd dsub dmul dexp Uint64ToDouble D].
  - exact b64_lt_irrefl.
  - exact b64_lt_trans.
  - exact b64_lt_le_trans.
  - exact b64_le_trans.
  - exact b64_le_refl.
  - exact b64_lowest_least.
  - split; reflexivity.
  - exact (b64_exp_diag exp HE).
  - exact (b64_exp_nonneg exp HE).
  - exact (b64_exp_le_one exp HE).
  - exact b64_add_le_l.
  - exact b64_add_le_r.
  - exact b64_add_bound.
  - exact b64_bounded_finite.
  - intros x0 x1 t H1 Hf. exact (proj2 (b64_unit_mul x0 x1 t H1 Hf)).
  - intros x0 x1 t H1 Hf. exact (proj1 (b64_unit_mul x0 x1 t H1 Hf)).
Qed.

(** The assumptions on [exp] can be met: the step function has them. *)
Lemma exp_steps_laws : ExpLaws exp_steps.
Proof.
  constructor.
  - reflexivity.
  - intros y Hn. unfold exp_steps. rewrite Hn.
    destruct (PrimFloat.ltb y 0), (PrimFloat.leb y 0); reflexivity.
  - intros y Hle. unfold exp_steps. rewrite Hle.
    destruct (PrimFloat.ltb y 0); reflexivity.
Qed.

Lemma b64_steps_laws : DoubleLaws (binary64 exp_steps).
Proof. exact (b64_laws exp_steps exp_steps_laws). Qed.

(** ** The cells of a successful call *)

Section CallProperties.

Context (A : DoubleOps) (generate : Z -> Z -> list Z)
        (DoWork_cost : Z -> Z -> Z).

(** Whatever the plan, a cell of the functor's output is either as it
    was or the sample some shard start assigns to it. *)
Lemma Functor_cell logits num_classes num_samples gen plan out b j :
  MultinomialFunctor A generate logits num_classes num_samples gen plan out
    !! (b, j) = out !! (b, j) \/
  exists start_row,
    MultinomialFunctor A generate logits num_classes num_samples gen plan out
      !! (b, j) =
    Some (sample_at A generate logits num_classes num_samples gen start_row b j).
Proof.
  revert out. induction plan as [|blk plan IH]; intros out; [left; done|].
  rewrite Functor_cons. destruct (IH (DoWork A generate logits num_classes
    num_samples gen blk.1 blk.2 out)) as [Heq|Hex]; [|right; exact Hex].
  rewrite Heq.
  destruct (decide (blk.1 <= b < blk.2 /\ 0 <= j < num_samples)) as [[Hb Hj]|Hn].
  - right. exists blk.1. apply DoWork_hit; assumption.
  - left. apply DoWork_miss. lia.
Qed.

(** The cells of a call that passed validation: none for an empty
    output, else those the functor wrote into the fresh output, with the
    generator as it was before the reservation. *)
Lemma DoCompute_cells ctx (logits_t : Tensor A) num_samples_t generator :
  checks_pass logits_t num_samples_t = true ->
  let B := int32 (dim_size logits_t 0) in
  let K := scalar num_samples_t in
  let C := int32 (dim_size logits_t 1) in
  output_cells (fst (DoCompute A generate DoWork_cost ctx logits_t
                       num_samples_t generator)) =
  if 0 <? NumElements [B; K] then
    MultinomialFunctor A generate (matrix logits_t) C K
      (guarded_generator generator) (worker_blocks ctx B (DoWork_cost K C)) ∅
  else ∅.
Proof.
  unfold checks_pass, DoCompute. rewrite !andb_true_iff.
  intros [[[[-> ->] ->] ->] ->]. cbv zeta.
  destruct (0 <? NumElements _); reflexivity.
Qed.

(** With the laws of the arithmetic: every cell written for a row that
    holds a finite logit is below the class count. *)
Lemma DoCompute_cell_in_range (L : DoubleLaws A)
    ctx (logits_t : Tensor A) num_samples_t generator b j v :
  tensor_wf logits_t -> ~ validation_fails logits_t num_samples_t ->
  (exists c, 0 <= c < dim_size logits_t 1 /\
             disfinite A (matrix logits_t b c) = true) ->
  output_cells (fst (DoCompute A generate DoWork_cost ctx logits_t
                       num_samples_t generator)) !! (b, j) = Some v ->
  0 <= v < dim_size logits_t 1.
Proof.
  intros Hwf Hv Hfin Hcell.
  assert (Hc := proj2 (checks_pass_iff A logits_t num_samples_t Hwf) Hv).
  rewrite (DoCompute_cells ctx logits_t num_samples_t generator Hc) in Hcell.
  cbv zeta in Hcell.
  assert (HC : int32 (dim_size logits_t 1) = dim_size logits_t 1).
  { apply int32_fits. unfold fits_int.
    destruct (decide (- 2 ^ 31 <= dim_size logits_t 1 < 2 ^ 31)); [done|].
    exfalso. apply Hv. right; right. exact n. }
  assert (HC' : fits_int (dim_size logits_t 1)) by (apply int32_fits; exact HC).
  rewrite HC in Hcell.
  destruct (0 <? NumElements _); [|rewrite lookup_empty in Hcell; discriminate].
  destruct (Functor_cell (matrix logits_t) (dim_size logits_t 1)
              (scalar num_samples_t) (guarded_generator generator)
              (worker_blocks ctx (int32 (dim_size logits_t 0))
                 (DoWork_cost (scalar num_samples_t) (dim_size logits_t 1)))
              ∅ b j) as [Heq|[s Heq]];
    rewrite Heq in Hcell; [rewrite lookup_empty in Hcell; discriminate|].
  inversion Hcell; subst v.
  destruct Hfin as [c [Hc0 Hcf]].
  apply (sample_at_in_range A L); [unfold fits_int in HC'; lia | eauto].
Qed.

End CallProperties.

(** C9, as amended.  The stateless op returns the member generator of the
    kernel as it came in, and what it leaves in the context is fixed by the
    logits, the sample count, the seed and the split of the batch into
    shards.  Two calls with the same logits, sample count and seed, on
    kernels with any member generators and on contexts with any earlier
    contents, whose devices split the batch into the same disjoint shards
    (in any order), allocate the same shape and write the same cells, each
    keeping the status of its context; and when the seed or an input is
    rejected, both calls report the same error and leave the rest of their
    context as it was. *)
Theorem stateless_fixed_by_seed_and_shards
    (A : DoubleOps) (generate : Z -> Z -> list Z) (DoWork_cost : Z -> Z -> Z)
    (GenerateKey : Tensor Z -> Z * Z)
    g1 g2 ctx1 ctx2 (logits_t : Tensor A) num_samples_t seed_t :
  let B := int32 (dim_size logits_t 0) in
  let K := scalar num_samples_t in
  let C := int32 (dim_size logits_t 1) in
  let plan ctx := worker_blocks ctx B (DoWork_cost K C) in
  let r1 := StatelessCompute A generate DoWork_cost GenerateKey g1 ctx1
              logits_t num_samples_t seed_t in
  let r2 := StatelessCompute A generate DoWork_cost GenerateKey g2 ctx2
              logits_t num_samples_t seed_t in
  snd r1 = g1 /\ snd r2 = g2 /\
  (shape seed_t = [2] -> checks_pass logits_t num_samples_t = true ->
   plan_disjoint (plan ctx1) -> plan ctx1 ≡ₚ plan ctx2 ->
   output_shape (fst r1) = Some [B; K] /\
   output_shape (fst r2) = Some [B; K] /\
   output_cells (fst r2) = output_cells (fst r1) /\
   status (fst r1) = status ctx1 /\ status (fst r2) = status ctx2) /\
  (shape seed_t <> [2] \/ checks_pass logits_t num_samples_t = false ->
   exists msg,
     fst r1 = CtxFailure ctx1 (InvalidArgument msg) /\
     fst r2 = CtxFailure ctx2 (InvalidArgument msg)).
Proof.
  intros B K C plan r1 r2. subst r1 r2.
  destruct (decide (shape seed_t = [2])) as [Hs|Hs].
  - rewrite !(StatelessCompute_seed_ok A generate DoWork_cost GenerateKey
                _ _ _ _ _ Hs).
    cbn [fst snd]. split; [reflexivity|]. split; [reflexivity|]. split.
    + intros _ Hc Hd Hp.
      set (g := mkGuarded (mkPhilox (fst (GenerateKey seed_t))
                                    (snd (GenerateKey seed_t)))).
      destruct (DoCompute_accepts A generate DoWork_cost ctx1 logits_t
                  num_samples_t g Hc) as [Hst1 Hsh1].
      destruct (DoCompute_accepts A generate DoWork_cost ctx2 logits_t
                  num_samples_t g Hc) as [Hst2 Hsh2].
      split; [exact Hsh1|]. split; [exact Hsh2|].
      split; [|split; [exact Hst1 | exact Hst2]].
      rewrite !(DoCompute_cells A generate DoWork_cost _ logits_t
                  num_samples_t g Hc).
      cbv zeta. fold B K C.
      destruct (0 <? NumElements [B; K]); [|reflexivity].
      symmetry. apply Functor_schedule; assumption.
    + intros [Hn|Hc]; [contradiction|].
      destruct (DoCompute_rejects_alike A generate DoWork_cost ctx1 ctx2
                  logits_t num_samples_t
                  (mkGuarded (mkPhilox (fst (GenerateKey seed_t))
                                       (snd (GenerateKey seed_t))))
                  (mkGuarded (mkPhilox (fst (GenerateKey seed_t))
                                       (snd (GenerateKey seed_t)))) Hc)
        as (msg & -> & ->).
      exists msg. split; reflexivity.
  - rewrite !(StatelessCompute_seed_bad A generate DoWork_cost GenerateKey
                _ _ _ _ _ Hs).
    cbn [fst snd]. split; [reflexivity|]. split; [reflexivity|]. split.
    + intros Hs'. contradiction.
    + intros _. eexists. split; reflexivity.
Qed.

(** C9, counterexample.  Two rows of sixteen equally likely classes, one
    sample per row, seed [0, 0], the Philox generator and the key derived
    from the seed: on a device that takes the batch as one shard the second
    row gets class 6, on one that takes it as two shards class 1.  The
    logits, the sample count and the seed are the same, both calls succeed,
    and the outputs differ. *)
Lemma stateless_shards_counterexample :
  let run plan :=
    fst (StatelessCompute b64 philox4x32 flat_cost GenerateKey_philox gen0
           (fresh_ctx plan) sixteen_logits (scalar_tensor 1)
           (vector_tensor [0; 0])) in
  status (run [(0, 2)]) = OK /\ status (run [(0, 1); (1, 2)]) = OK /\
  output_cells (run [(0, 2)]) !! (1, 0) = Some 6 /\
  output_cells (run [(0, 1); (1, 2)]) !! (1, 0) = Some 1 /\
  output_cells (run [(0, 2)]) <> output_cells (run [(0, 1); (1, 2)]).
Proof.
  cbv zeta.
  assert (H1 : output_cells
                 (fst (StatelessCompute b64 philox4x32 flat_cost
                         GenerateKey_philox gen0 (fresh_ctx [(0, 2)])
                         sixteen_logits (scalar_tensor 1)
                         (vector_tensor [0; 0]))) !! (1, 0) = Some 6)
    by (vm_compute; reflexivity).
  assert (H2 : output_cells
                 (fst (StatelessCompute b64 philox4x32 flat_cost
                         GenerateKey_philox gen0 (fresh_ctx [(0, 1); (1, 2)])
                         sixteen_logits (scalar_tensor 1)
                         (vector_tensor [0; 0]))) !! (1, 0) = Some 1)
    by (vm_compute; reflexivity).
  split; [vm_compute; reflexivity|]. split; [vm_compute; reflexivity|].
  split; [exact H1|]. split; [exact H2|].
  intros Heq. rewrite Heq, H2 in H1. clear Heq H2. discriminate H1.
Qed.

(** The same call on two devices that take the two rows as two shards, in
    either order, on kernels with different member generators: the cells
    written are the same. *)
Lemma stateless_shards_witness :
  output_cells
    (fst (StatelessCompute b64 philox4x32 flat_cost GenerateKey_philox
            (mkGuarded (mkPhilox 5 7)) (fresh_ctx [(1, 2); (0, 1)])
            sixteen_logits (scalar_tensor 1) (vector_tensor [0; 0]))) =
  output_cells
    (fst (StatelessCompute b64 philox4x32 flat_cost GenerateKey_philox
            gen0 (fresh_ctx [(0, 1); (1, 2)])
            sixteen_logits (scalar_tensor 1) (vector_tensor [0; 0]))).
Proof.
  refine (proj1 (proj2 (proj2 (proj1 (proj2 (proj2
    (stateless_fixed_by_seed_and_shards b64 philox4x32 flat_cost
       GenerateKey_philox gen0 (mkGuarded (mkPhilox 5 7))
       (fresh_ctx [(0, 1); (1, 2)]) (fresh_ctx [(1, 2); (0, 1)])
       sixteen_logits (scalar_tensor 1) (vector_tensor [0; 0]))))
    _ _ _ _)))).
  - reflexivity.
  - vm_compute; reflexivity.
  - intros blk blk' H H' b Hb Hb'.
    apply elem_of_cons in H as [->|H]; apply elem_of_cons in H' as [->|H'];
      try apply list_elem_of_singleton in H; try apply list_elem_of_singleton in H';
      subst; unfold in_block in *; simpl in *; try reflexivity; lia.
  - apply Permutation_swap.
Defined.

(** With the laws of the arithmetic, in a call that passed validation
    with a single class, every sample written for a row whose logit is
    finite is index 0. *)
Lemma lawful_single_class_yields_zero
    (A : DoubleOps) (L : DoubleLaws A) (generate : Z -> Z -> list Z)
    (DoWork_cost : Z -> Z -> Z) ctx (logits_t : Tensor A) num_samples_t
    generator b j v :
  tensor_wf logits_t -> ~ validation_fails logits_t num_samples_t ->
  dim_size logits_t 1 = 1 ->
  disfinite A (matrix logits_t b 0) = true ->
  output_cells (fst (DoCompute A generate DoWork_cost ctx logits_t
                       num_samples_t generator)) !! (b, j) = Some v ->
  v = 0.
Proof.
  intros Hwf Hv HC Hf Hcell.
  pose proof (DoCompute_cell_in_range A generate DoWork_cost L ctx logits_t
                num_samples_t generator b j v Hwf Hv
                ltac:(exists 0; rewrite HC; split; [lia | exact Hf]) Hcell).
  lia.
Qed.

(** With the laws of the arithmetic, for a row [b] of a
    shard that holds at least one finite logit: [row_max] is the maximum
    [m] of the finite logits; [cdf[i]] is the sum, in index order, of
    [exp(logit - m)] over the finite logits up to [i]; the buffer is
    non-decreasing and its last entry is the row total; the draw of
    sample [j], taken from the shard's stream and scaled by the total,
    lies in [0, cdf[C-1]); the cell [(b, j)] receives the least index
    whose entry exceeds the draw, which is 0 whenever the draw is below
    [cdf[0]]. *)
Lemma lawful_row_cdf_and_samples
    (A : DoubleOps) (L : DoubleLaws A) (generate : Z -> Z -> list Z)
    (logits : Z -> Z -> A) (num_classes num_samples : Z) (gen : PhiloxRandom)
    (start_row limit_row : Z) (out : gmap (Z * Z) Z) (b j : Z) :
  0 <= num_classes < 2 ^ 31 ->
  (exists c, 0 <= c < num_classes /\ disfinite A (logits b c) = true) ->
  start_row <= b < limit_row -> 0 <= j < num_samples ->
  let row := logits_row A logits num_classes b in
  let m := row_max A row in
  let cdf := fst (build_cdf A row) in
  let total := snd (build_cdf A row) in
  let r := nth_double A generate
             (Z.to_nat ((b - start_row) * num_samples + j))
             (SimplePhilox_new (Skip gen (skip_count num_samples start_row))) in
  let u := dmul A r total in
  let cell := DoWork A generate logits num_classes num_samples gen
                     start_row limit_row out !! (b, j) in
  is_finite_max A row m /\
  (forall i, (i < Z.to_nat num_classes)%nat ->
     cdf !! i = Some (cdf_sum A row m i)) /\
  non_decreasing A cdf /\
  cdf !! (Z.to_nat num_classes - 1)%nat = Some total /\
  dle A (dzero A) u = true /\ dlt A u total = true /\
  (exists idx, cell = Some (Z.of_nat idx) /\ least_above A cdf u idx) /\
  (forall c0, cdf !! 0%nat = Some c0 -> dlt A u c0 = true -> cell = Some 0).
Proof.
  intros HC [c [Hc Hf]] Hb Hj row m cdf total r u cell.
  destruct (RandDouble_unit A generate
              (advance A generate
                 (Z.to_nat ((b - start_row) * num_samples + j))
                 (SimplePhilox_new (Skip gen (skip_count num_samples start_row)))))
    as [x0 [x1 Hu]].
  fold (nth_double A generate
          (Z.to_nat ((b - start_row) * num_samples + j))
          (SimplePhilox_new (Skip gen (skip_count num_samples start_row)))) in Hu.
  fold r in Hu.
  pose proof (lawful_row A L row x0 x1) as Hrow.
  unfold row in Hrow at 1 2. rewrite logits_row_length in Hrow.
  specialize (Hrow ltac:(lia) ltac:(eexists; split;
    [apply (logits_row_In A logits num_classes b c Hc) | exact Hf])).
  cbv zeta in Hrow. rewrite <- Hu in Hrow. fold m cdf total u in Hrow.
  destruct Hrow as (H1 & H2 & H3 & H4 & H5 & H6 & H7 & H8).
  assert (Hlen : length row = Z.to_nat num_classes)
    by (unfold row; apply logits_row_length).
  rewrite Hlen in H2, H4.
  assert (Hcell : cell = Some (Z.of_nat (upper_bound A cdf u))).
  { subst cell. rewrite DoWork_hit by assumption. unfold sample_at.
    fold row. fold r. subst u cdf total.
    destruct (build_cdf A row) as [cdf' total']. reflexivity. }
  repeat (split; [assumption|]).
  split; [exists (upper_bound A cdf u); split; assumption|].
  intros c0 Hc0 Hlt. rewrite Hcell. do 2 f_equal.
  destruct (upper_bound A cdf u) as [|n] eqn:E; [reflexivity|].
  destruct H8 as [_ Hbelow]. rewrite (Hbelow 0%nat c0 ltac:(lia) Hc0) in Hlt.
  discriminate.
Qed.

(** ** The numeric theorems on the exact reals *)

Lemma xzero_finite : xisfinite (XFin 0) = true.
Proof.
  simpl. xreal_arith; pose proof xmax_large;
    assert (0 <= IZR (2 ^ 31))%R by (apply IZR_le; lia); lra.
Qed.

Ltac passes_validation :=
  unfold validation_fails, listed_failure, fits_int, dim_size, scalar; simpl;
  intros [[?|[?|[?|?]]]|[?|?]]; try contradiction; try discriminate; lia.

Lemma exact_pair_cell :
  output_cells (fst (DoCompute exact_reals counting_blocks flat_cost
                       (fresh_ctx [(0, 1)]) exact_pair (scalar_tensor 3) gen0))
    !! (0, 2) =
  Some (sample_at exact_reals counting_blocks (matrix exact_pair) 2 3 (mkPhilox 0 0)
                  0 0 2).
Proof.
  rewrite (DoCompute_cells exact_reals counting_blocks flat_cost _ exact_pair
             (scalar_tensor 3) gen0 eq_refl).
  change (DoWork exact_reals counting_blocks (matrix exact_pair) 2 3 (mkPhilox 0 0)
                 0 1 ∅ !! (0, 2) =
          Some (sample_at exact_reals counting_blocks (matrix exact_pair) 2 3
                          (mkPhilox 0 0) 0 0 2)).
  apply DoWork_hit; lia.
Qed.

Lemma exact_single_cell :
  output_cells (fst (DoCompute exact_reals counting_blocks flat_cost
                       (fresh_ctx [(0, 1)]) exact_single (scalar_tensor 2) gen0))
    !! (0, 1) =
  Some (sample_at exact_reals counting_blocks (matrix exact_single) 1 2 (mkPhilox 0 0)
                  0 0 1).
Proof.
  rewrite (DoCompute_cells exact_reals counting_blocks flat_cost _ exact_single
             (scalar_tensor 2) gen0 eq_refl).
  change (DoWork exact_reals counting_blocks (matrix exact_single) 1 2 (mkPhilox 0 0)
                 0 1 ∅ !! (0, 1) =
          Some (sample_at exact_reals counting_blocks (matrix exact_single) 1 2
                          (mkPhilox 0 0) 0 0 1)).
  apply DoWork_hit; lia.
Qed.

(** The range lemma at a call on the exact reals. *)
Example exact_range_run :
  0 <= sample_at exact_reals counting_blocks (matrix exact_pair) 2 3 (mkPhilox 0 0)
                 0 0 2 < 2.
Proof.
  refine (DoCompute_cell_in_range exact_reals counting_blocks flat_cost exact_laws
            (fresh_ctx [(0, 1)]) exact_pair (scalar_tensor 3) gen0 0 2 _
            _ _ _ exact_pair_cell).
  - unfold tensor_wf; simpl; repeat constructor; lia.
  - passes_validation.
  - exists 0. split; [unfold dim_size, exact_pair; simpl; lia|].
    exact xzero_finite.
Qed.

(** The single-class lemma at a call on the exact reals. *)
Example exact_single_run :
  sample_at exact_reals counting_blocks (matrix exact_single) 1 2 (mkPhilox 0 0)
            0 0 1 = 0.
Proof.
  refine (lawful_single_class_yields_zero exact_reals exact_laws counting_blocks
            flat_cost (fresh_ctx [(0, 1)]) exact_single (scalar_tensor 2) gen0
            0 1 _ _ _ _ _ exact_single_cell).
  - unfold tensor_wf; simpl; repeat constructor; lia.
  - passes_validation.
  - reflexivity.
  - exact xzero_finite.
Qed.

(** The row lemma at a row of two equal logits on the exact reals. *)
Example exact_row_run :
  non_decreasing exact_reals
    (fst (build_cdf exact_reals (logits_row exact_reals (matrix exact_pair) 2 0))).
Proof.
  refine (proj1 (proj2 (proj2 (lawful_row_cdf_and_samples exact_reals exact_laws
    counting_blocks (matrix exact_pair) 2 3 (mkPhilox 0 0) 0 1 ∅ 0 2
    _ _ _ _)))); try lia.
  exists 0. split; [lia | exact xzero_finite].
Qed.

(** ** The numeric theorems in binary64 *)

(** C1, as amended.  In binary64, with an [exp] that has the properties
    of [ExpLaws]: in a call that passed validation every index written for
    a row that holds at least one finite logit is in [0, C). *)
Theorem written_indices_in_range
    (exp : float -> float) (HE : ExpLaws exp) (generate : Z -> Z -> list Z)
    (DoWork_cost : Z -> Z -> Z) ctx (logits_t : Tensor float) num_samples_t
    generator b j v :
  tensor_wf logits_t -> ~ validation_fails logits_t num_samples_t ->
  (exists c, 0 <= c < dim_size logits_t 1 /\
             b64_isfinite (matrix logits_t b c) = true) ->
  output_cells (fst (DoCompute (binary64 exp) generate DoWork_cost ctx
                       logits_t num_samples_t generator)) !! (b, j) = Some v ->
  0 <= v < dim_size logits_t 1.
Proof.
  exact (DoCompute_cell_in_range (binary64 exp) generate DoWork_cost
           (b64_laws exp HE) ctx logits_t num_samples_t generator b j v).
Qed.

(** C5, as amended.  In binary64, with an [exp] that has the properties
    of [ExpLaws]: in a call that passed validation with a single class,
    every sample written for a row whose logit is finite is index 0. *)
Theorem single_finite_class_yields_zero
    (exp : float -> float) (HE : ExpLaws exp) (generate : Z -> Z -> list Z)
    (DoWork_cost : Z -> Z -> Z) ctx (logits_t : Tensor float) num_samples_t
    generator b j v :
  tensor_wf logits_t -> ~ validation_fails logits_t num_samples_t ->
  dim_size logits_t 1 = 1 ->
  b64_isfinite (matrix logits_t b 0) = true ->
  output_cells (fst (DoCompute (binary64 exp) generate DoWork_cost ctx
                       logits_t num_samples_t generator)) !! (b, j) = Some v ->
  v = 0.
Proof.
  exact (lawful_single_class_yields_zero (binary64 exp) (b64_laws exp HE)
           generate DoWork_cost ctx logits_t num_samples_t generator b j v).
Qed.

(** C4.  In binary64, with an [exp] that has the properties of
    [ExpLaws], for a row [b] of a shard that holds at least one finite
    logit: [row_max] is the maximum [m] of the finite logits; [cdf[i]] is
    the sum, in index order, of [exp(logit - m)] over the finite logits up
    to [i]; the buffer is non-decreasing and its last entry is the row
    total; the draw of sample [j], taken from the shard's stream and
    scaled by the total, lies in [0, cdf[C-1]); the cell [(b, j)] receives
    the least index whose entry exceeds the draw, which is 0 whenever the
    draw is below [cdf[0]]. *)
Theorem row_cdf_and_samples
    (exp : float -> float) (HE : ExpLaws exp) (generate : Z -> Z -> list Z)
    (logits : Z -> Z -> float) (num_classes num_samples : Z)
    (gen : PhiloxRandom) (start_row limit_row : Z) (out : gmap (Z * Z) Z)
    (b j : Z) :
  let A := binary64 exp in
  0 <= num_classes < 2 ^ 31 ->
  (exists c, 0 <= c < num_classes /\ b64_isfinite (logits b c) = true) ->
  start_row <= b < limit_row -> 0 <= j < num_samples ->
  let row := logits_row A logits num_classes b in
  let m := row_max A row in
  let cdf := fst (build_cdf A row) in
  let total := snd (build_cdf A row) in
  let r := nth_double A generate
             (Z.to_nat ((b - start_row) * num_samples + j))
             (SimplePhilox_new (Skip gen (skip_count num_samples start_row))) in
  let u := PrimFloat.mul r total in
  let cell := DoWork A generate logits num_classes num_samples gen
                     start_row limit_row out !! (b, j) in
  is_finite_max A row m /\
  (forall i, (i < Z.to_nat num_classes)%nat ->
     cdf !! i = Some (cdf_sum A row m i)) /\
  non_decreasing A cdf /\
  cdf !! (Z.to_nat num_classes - 1)%nat = Some total /\
  PrimFloat.leb 0 u = true /\ PrimFloat.ltb u total = true /\
  (exists idx, cell = Some (Z.of_nat idx) /\ least_above A cdf u idx) /\
  (forall c0, cdf !! 0%nat = Some c0 -> PrimFloat.ltb u c0 = true ->
     cell = Some 0).
Proof.
  intros A.
  exact (lawful_row_cdf_and_samples A (b64_laws exp HE) generate logits
           num_classes num_samples gen start_row limit_row out b j).
Qed.

(** Two cells of binary64 runs with the step function for [exp]. *)
Lemma even_logits_cell :
  output_cells (fst (DoCompute (binary64 exp_steps) counting_blocks flat_cost
                       (fresh_ctx [(0, 2)]) even_logits (scalar_tensor 3)
                       gen0)) !! (1, 0) = Some 1.
Proof. vm_compute. reflexivity. Qed.

Lemma single_logit_cell :
  output_cells (fst (DoCompute (binary64 exp_steps) counting_blocks flat_cost
                       (fresh_ctx [(0, 1)]) single_logit (scalar_tensor 2)
                       gen0)) !! (0, 1) = Some 0.
Proof. vm_compute. reflexivity. Qed.

(** The range theorem at a call on two rows of equal logits. *)
Lemma written_indices_witness :
  output_cells (fst (DoCompute (binary64 exp_steps) counting_blocks flat_cost
                       (fresh_ctx [(0, 2)]) even_logits (scalar_tensor 3)
                       gen0)) !! (1, 0) = Some 1 /\
  0 <= 1 < dim_size even_logits 1.
Proof.
  split; [exact even_logits_cell|].
  refine (written_indices_in_range exp_steps exp_steps_laws counting_blocks
            flat_cost (fresh_ctx [(0, 2)]) even_logits (scalar_tensor 3) gen0
            1 0 1 _ _ _ even_logits_cell).
  - unfold tensor_wf; simpl; repeat constructor; lia.
  - passes_validation.
  - exists 0. split; [unfold dim_size, even_logits; simpl; lia|].
    reflexivity.
Defined.

(** The single-class theorem at a call on one finite logit. *)
Lemma single_finite_class_witness :
  dim_size single_logit 1 = 1 /\
  b64_isfinite (matrix single_logit 0 0) = true /\
  output_cells (fst (DoCompute (binary64 exp_steps) counting_blocks flat_cost
                       (fresh_ctx [(0, 1)]) single_logit (scalar_tensor 2)
                       gen0)) !! (0, 1) = Some 0 /\
  0 = 0.
Proof.
  split; [reflexivity|]. split; [reflexivity|].
  split; [exact single_logit_cell|].
  refine (single_finite_class_yields_zero exp_steps exp_steps_laws
            counting_blocks flat_cost (fresh_ctx [(0, 1)]) single_logit
            (scalar_tensor 2) gen0 0 1 0 _ _ _ _ single_logit_cell).
  - unfold tensor_wf; simpl; repeat constructor; lia.
  - passes_validation.
  - reflexivity.
  - reflexivity.
Defined.

(** The row theorem at a row of two equal logits. *)
Lemma row_cdf_witness :
  non_decreasing (binary64 exp_steps)
    (fst (build_cdf (binary64 exp_steps)
            (logits_row (binary64 exp_steps) (matrix even_logits) 2 0))).
Proof.
  refine (proj1 (proj2 (proj2 (row_cdf_and_samples exp_steps exp_steps_laws
    counting_blocks (matrix even_logits) 2 3 (mkPhilox 0 0) 0 1 ∅ 0 2
    _ _ _ _)))); try lia.
  exists 0. split; [lia | reflexivity].
Defined.

(** ** Concrete runs in binary64 *)

(** The two ends of the range of [Uint64ToDouble]: all mantissa bits
    clear give 0, all set give [1 - 2^-52]. *)
Example unit_double_ends :
  b64_Uint64ToDouble 0 0 = 0%float /\
  b64_Uint64ToDouble (2 ^ 32 - 1) (2 ^ 32 - 1) = 0x1.ffffffffffffep-1%float.
Proof. split; vm_compute; reflexivity. Qed.

(** Three equal logits: the buffer is 1, 2, 3 and the total 3. *)
Example cdf_of_equal_logits :
  build_cdf b64 [0%float; 0%float; 0%float] =
  ([1%float; 2%float; 3%float], 3%float).
Proof. vm_compute. reflexivity. Qed.

(** One-hot logits: the non-finite classes add nothing, the buffer is
    0, 1, 1, and every sample is class 1. *)
Example one_hot_row :
  build_cdf b64 (logits_row b64 (matrix one_hot_logits) 3 0) =
    ([0%float; 1%float; 1%float], 1%float) /\
  forall j, 0 <= j < 3 ->
    MultinomialFunctor b64 counting_blocks (matrix one_hot_logits) 3 3
                       (mkPhilox 0 0) [(0, 1)] ∅ !! (0, j) = Some 1.
Proof.
  split; [vm_compute; reflexivity|].
  intros j Hj. assert (Hc : j = 0 \/ j = 1 \/ j = 2) by lia.
  destruct Hc as [-> | [-> | ->]]; vm_compute; reflexivity.
Qed.

(** * Further properties of the kernel *)

(** ** What a call writes, whatever the arithmetic *)

Section WrittenCells.

Context (A : DoubleOps) (generate : Z -> Z -> list Z)
        (DoWork_cost : Z -> Z -> Z).

Lemma build_cdf_length (row : list A) :
  length (fst (build_cdf A row)) = length row.
Proof. rewrite build_cdf_totals. apply running_totals_length. Qed.

(** The search never leaves the buffer: the index is at most the class
    count. *)
Lemma sample_at_le logits num_classes num_samples gen start_row b j :
  0 <= num_classes ->
  0 <= sample_at A generate logits num_classes num_samples gen start_row b j
    <= num_classes.
Proof.
  intros HC. unfold sample_at.
  pose proof (build_cdf_length (logits_row A logits num_classes b)) as Hlen.
  rewrite logits_row_length in Hlen.
  destruct (build_cdf A _) as [cdf total]. cbn [fst] in Hlen.
  pose proof (upper_bound_le A cdf
    (dmul A (nth_double A generate
               (Z.to_nat ((b - start_row) * num_samples + j))
               (SimplePhilox_new (Skip gen (skip_count num_samples start_row))))
            total)) as Hle.
  lia.
Qed.

(** A cell of a call that passed validation holds the index some shard
    start assigns to it. *)
Lemma DoCompute_cell_sample ctx (logits_t : Tensor A) num_samples_t generator
    b j v :
  tensor_wf logits_t -> ~ validation_fails logits_t num_samples_t ->
  output_cells (fst (DoCompute A generate DoWork_cost ctx logits_t
                       num_samples_t generator)) !! (b, j) = Some v ->
  0 < dim_size logits_t 1 < 2 ^ 31 /\
  exists start_row,
    v = sample_at A generate (matrix logits_t) (dim_size logits_t 1)
          (scalar num_samples_t) (guarded_generator generator) start_row b j.
Proof.
  intros Hwf Hv Hcell.
  assert (Hc := proj2 (checks_pass_iff A logits_t num_samples_t Hwf) Hv).
  rewrite (DoCompute_cells A generate DoWork_cost ctx logits_t num_samples_t
             generator Hc) in Hcell.
  cbv zeta in Hcell.
  assert (HC' : fits_int (dim_size logits_t 1)).
  { destruct (decide (fits_int (dim_size logits_t 1))) as [|n]; [done|].
    exfalso. apply Hv. right; right. exact n. }
  assert (HC : int32 (dim_size logits_t 1) = dim_size logits_t 1)
    by (apply int32_fits; exact HC').
  assert (Hpos : 0 < dim_size logits_t 1).
  { unfold checks_pass in Hc. rewrite !andb_true_iff in Hc.
    destruct Hc as [_ Hc]. rewrite HC in Hc. lia. }
  split; [unfold fits_int in HC'; lia|].
  rewrite HC in Hcell.
  destruct (0 <? NumElements _); [|rewrite lookup_empty in Hcell; discriminate].
  destruct (Functor_cell A generate (matrix logits_t)
              (dim_size logits_t 1) (scalar num_samples_t)
              (guarded_generator generator)
              (worker_blocks ctx (int32 (dim_size logits_t 0))
                 (DoWork_cost (scalar num_samples_t) (dim_size logits_t 1)))
              ∅ b j) as [Heq|[s Heq]];
    rewrite Heq in Hcell; [rewrite lookup_empty in Hcell; discriminate|].
  exists s. congruence.
Qed.

End WrittenCells.

(** X1.  The index written to any cell of a successful call, whatever the
    logits, the generator, the exponential and the plan of the device, is in
    [0, C] and so survives the conversion to the output type, [int32] or
    [int64]. *)
Theorem written_index_fits_output_type
    (A : DoubleOps) (generate : Z -> Z -> list Z) (DoWork_cost : Z -> Z -> Z)
    ctx (logits_t : Tensor A) num_samples_t generator b j v :
  tensor_wf logits_t -> ~ validation_fails logits_t num_samples_t ->
  output_cells (fst (DoCompute A generate DoWork_cost ctx logits_t
                       num_samples_t generator)) !! (b, j) = Some v ->
  0 <= v <= dim_size logits_t 1 /\ int32 v = v /\ int64 v = v.
Proof.
  intros Hwf Hv Hcell.
  destruct (DoCompute_cell_sample A generate DoWork_cost ctx logits_t
              num_samples_t generator b j v Hwf Hv Hcell) as [HC [s ->]].
  pose proof (sample_at_le A generate (matrix logits_t) (dim_size logits_t 1)
                (scalar num_samples_t) (guarded_generator generator) s b j
                ltac:(lia)) as Hle.
  split; [exact Hle|]. split.
  - apply int32_fits. unfold fits_int. lia.
  - unfold int64, wrap_signed.
    change (2 ^ (64 - 1)) with (2 ^ 63). rewrite Z.mod_small; lia.
Qed.

(** ** Which classes are sampled *)

Section SampledClass.

Context (A : DoubleOps) (L : DoubleLaws A) (generate : Z -> Z -> list Z).

(** A position the search stops at holds a finite logit: a skipped logit
    leaves the running total where it was, so its entry cannot be the
    first one above the draw. *)
Lemma least_above_finite m (row : list A) (u : A) idx :
  dle A (dzero A) u = true ->
  least_above A (running_totals A m row (dzero A)) u idx ->
  exists x, row !! idx = Some x /\ disfinite A x = true.
Proof.
  intros Hu [[c [Hc Hlt]] Hleast].
  assert (Hidx : (idx < length row)%nat).
  { apply lookup_lt_Some in Hc. rewrite running_totals_length in Hc. exact Hc. }
  destruct (lookup_lt_is_Some_2 row idx Hidx) as [x Hx].
  exists x. split; [exact Hx|].
  destruct (disfinite A x) eqn:Hf; [reflexivity|]. exfalso.
  rewrite running_totals_lookup in Hc by exact Hidx.
  rewrite (take_S_r _ _ _ Hx), fold_left_app in Hc. cbn [fold_left] in Hc.
  rewrite Hf in Hc. injection Hc as <-.
  destruct idx as [|i].
  - cbn [take fold_left] in Hlt.
    pose proof (law_lt_le_trans A L _ _ _ Hlt Hu) as Hself.
    rewrite (law_lt_irrefl A L) in Hself. discriminate.
  - rewrite (Hleast i _ ltac:(lia)
               (running_totals_lookup A m row (dzero A) i ltac:(lia))) in Hlt.
    discriminate.
Qed.

Context (logits : Z -> Z -> A) (num_classes num_samples : Z)
        (gen : PhiloxRandom).

Lemma logits_row_lookup b (i : nat) :
  (i < Z.to_nat num_classes)%nat ->
  logits_row A logits num_classes b !! i = Some (logits b (Z.of_nat i)).
Proof.
  intros Hi. unfold logits_row.
  rewrite list_lookup_fmap, lookup_seq_lt by exact Hi. reflexivity.
Qed.

(** The class a shard samples for a row with a finite logit has a finite
    logit itself. *)
Lemma sample_at_finite_class start_row b j :
  0 <= num_classes < 2 ^ 31 ->
  (exists c, 0 <= c < num_classes /\ disfinite A (logits b c) = true) ->
  disfinite A
    (logits b (sample_at A generate logits num_classes num_samples gen
                 start_row b j)) = true.
Proof.
  intros HC [c [Hc Hf]]. unfold sample_at.
  destruct (RandDouble_unit A generate
              (advance A generate
                 (Z.to_nat ((b - start_row) * num_samples + j))
                 (SimplePhilox_new (Skip gen (skip_count num_samples start_row)))))
    as [x0 [x1 Hu]].
  fold (nth_double A generate
          (Z.to_nat ((b - start_row) * num_samples + j))
          (SimplePhilox_new (Skip gen (skip_count num_samples start_row)))) in Hu.
  rewrite Hu.
  pose proof (lawful_row A L (logits_row A logits num_classes b) x0 x1) as Hrow.
  rewrite logits_row_length in Hrow.
  specialize (Hrow ltac:(lia) ltac:(eexists; split;
    [apply (logits_row_In A logits num_classes b c Hc) | exact Hf])).
  cbv zeta in Hrow. destruct Hrow as (_ & _ & _ & _ & Hge & _ & Hub & Hleast).
  rewrite build_cdf_totals in *. cbn [fst snd] in *.
  destruct (least_above_finite _ _ _ _ Hge Hleast) as [x [Hx Hfx]].
  rewrite logits_row_lookup in Hx by exact Hub.
  injection Hx as <-. exact Hfx.
Qed.

End SampledClass.

(** X2.  In binary64, with an [exp] that has the properties of [ExpLaws]: in
    a call that passed validation, a sample written for a row that holds a
    finite logit is a class whose own logit is finite; a class masked with
    an infinite or NaN logit is never drawn. *)
Theorem sampled_class_has_finite_logit
    (exp : float -> float) (HE : ExpLaws exp) (generate : Z -> Z -> list Z)
    (DoWork_cost : Z -> Z -> Z) ctx (logits_t : Tensor float) num_samples_t
    generator b j v :
  tensor_wf logits_t -> ~ validation_fails logits_t num_samples_t ->
  (exists c, 0 <= c < dim_size logits_t 1 /\
             b64_isfinite (matrix logits_t b c) = true) ->
  output_cells (fst (DoCompute (binary64 exp) generate DoWork_cost ctx
                       logits_t num_samples_t generator)) !! (b, j) = Some v ->
  b64_isfinite (matrix logits_t b v) = true.
Proof.
  intros Hwf Hv Hfin Hcell.
  destruct (DoCompute_cell_sample (binary64 exp) generate DoWork_cost ctx
              logits_t num_samples_t generator b j v Hwf Hv Hcell)
    as [HC [s ->]].
  apply (sample_at_finite_class (binary64 exp) (b64_laws exp HE));
    [lia | exact Hfin].
Qed.

(** ** The search is monotone in the draw *)

Section MonotoneSearch.

Context (A : DoubleOps).

Lemma upper_bound_monotone (cdf : list A) (u1 u2 : A) :
  (forall x y z : A, dlt A x y = true -> dle A y z = true -> dlt A x z = true) ->
  (forall x y z : A, dle A x y = true -> dlt A y z = true -> dlt A x z = true) ->
  non_decreasing A cdf -> dle A u1 u2 = true ->
  (upper_bound A cdf u1 <= upper_bound A cdf u2)%nat.
Proof.
  intros Hlt_le Hle_lt Hnd Hu.
  pose proof (upper_bound_le A cdf u1) as H1.
  pose proof (upper_bound_le A cdf u2) as H2.
  destruct (decide (upper_bound A cdf u2 < length cdf)%nat) as [Hin|]; [|lia].
  destruct (upper_bound_least A cdf u2 Hlt_le Hnd Hin) as [[c [Hc Hlt]] _].
  destruct (decide (upper_bound A cdf u1 <= upper_bound A cdf u2)%nat)
    as [|Hgt]; [assumption|exfalso].
  pose proof (upper_bound_below A cdf u1 Hlt_le Hnd (upper_bound A cdf u2) c
                ltac:(lia) Hc) as Hb.
  rewrite (Hle_lt _ _ _ Hu Hlt) in Hb. discriminate.
Qed.

End MonotoneSearch.

Lemma b64_le_lt_trans x y z :
  PrimFloat.leb x y = true -> PrimFloat.ltb y z = true ->
  PrimFloat.ltb x z = true.
Proof.
  rewrite !ltb_rank, leb_rank.
  intros (? & ? & ?) (? & ? & ?). repeat split; auto; lia.
Qed.

Lemma b64_ofZ_le n n' :
  0 <= n <= n' -> n' < 2 ^ 53 ->
  PrimFloat.leb (b64_ofZ n) (b64_ofZ n') = true.
Proof.
  intros Hn Hn'.
  destruct (b64_ofZ_rank n ltac:(lia)) as [N R].
  destruct (b64_ofZ_rank n' ltac:(lia)) as [N' R'].
  apply leb_rank. split; [exact N|]. split; [exact N'|].
  rewrite R, R'. pose proof (sc_pos 0 ltac:(lia)). nia.
Qed.

(** X3.  In binary64, with an [exp] that has the properties of [ExpLaws],
    for a row [b] of a shard that holds a finite logit: of two samples of
    the row, the one with the smaller scaled draw gets the smaller (or the
    same) index. *)
Theorem samples_ordered_as_draws
    (exp : float -> float) (HE : ExpLaws exp) (generate : Z -> Z -> list Z)
    (logits : Z -> Z -> float) (num_classes num_samples : Z)
    (gen : PhiloxRandom) (start_row limit_row : Z) (out : gmap (Z * Z) Z)
    (b j1 j2 : Z) :
  let A := binary64 exp in
  0 <= num_classes < 2 ^ 31 ->
  (exists c, 0 <= c < num_classes /\ b64_isfinite (logits b c) = true) ->
  start_row <= b < limit_row ->
  0 <= j1 < num_samples -> 0 <= j2 < num_samples ->
  let total := snd (build_cdf A (logits_row A logits num_classes b)) in
  let to_find j :=
    PrimFloat.mul
      (nth_double A generate (Z.to_nat ((b - start_row) * num_samples + j))
         (SimplePhilox_new (Skip gen (skip_count num_samples start_row))))
      total in
  let cell j := DoWork A generate logits num_classes num_samples gen
                       start_row limit_row out !! (b, j) in
  PrimFloat.leb (to_find j1) (to_find j2) = true ->
  exists v1 v2, cell j1 = Some v1 /\ cell j2 = Some v2 /\ v1 <= v2.
Proof.
  intros A HC [c [Hc Hf]] Hb Hj1 Hj2 total to_find cell Hle.
  subst cell. cbv beta.
  rewrite !(DoWork_hit A generate) by assumption.
  eexists _, _. split; [reflexivity|]. split; [reflexivity|].
  unfold sample_at. subst to_find total. cbv beta in Hle.
  pose proof (lawful_row A (b64_laws exp HE)
                (logits_row A logits num_classes b) 0 0) as Hrow.
  rewrite logits_row_length in Hrow.
  specialize (Hrow ltac:(lia) ltac:(eexists; split;
    [apply (logits_row_In A logits num_classes b c Hc) | exact Hf])).
  cbv zeta in Hrow. destruct Hrow as (_ & _ & Hnd & _).
  destruct (build_cdf A (logits_row A logits num_classes b)) as [cdf tot].
  cbn [fst snd] in *.
  apply inj_le.
  apply (upper_bound_monotone A cdf _ _ b64_lt_le_trans b64_le_lt_trans Hnd Hle).
Qed.

(** ** The row total *)

(** X4.  In binary64, with an [exp] that has the properties of [ExpLaws]:
    the total of a row that holds a finite logit is finite, at least 1 (the
    maximum contributes [exp(0)]) and at most the class count, and every
    entry of the buffer lies between 0 and the total. *)
Theorem row_total_between_one_and_class_count
    (exp : float -> float) (HE : ExpLaws exp)
    (logits : Z -> Z -> float) (num_classes : Z) (b : Z) :
  let A := binary64 exp in
  0 <= num_classes < 2 ^ 31 ->
  (exists c, 0 <= c < num_classes /\ b64_isfinite (logits b c) = true) ->
  let cdf := fst (build_cdf A (logits_row A logits num_classes b)) in
  let total := snd (build_cdf A (logits_row A logits num_classes b)) in
  b64_isfinite total = true /\
  PrimFloat.leb 1 total = true /\
  PrimFloat.leb total (b64_ofZ num_classes) = true /\
  forall i c, cdf !! i = Some c ->
    PrimFloat.leb 0 c = true /\ PrimFloat.leb c total = true.
Proof.
  intros A HC [c [Hc Hf]] cdf total. subst cdf total.
  set (row := logits_row A logits num_classes b).
  assert (Hfin : exists x, In x row /\ disfinite A x = true)
    by (eexists; split;
        [apply (logits_row_In A logits num_classes b c Hc) | exact Hf]).
  assert (Hlen : length row = Z.to_nat num_classes)
    by apply logits_row_length.
  pose proof (b64_laws exp HE) as L.
  pose proof (lawful_row A L row 0 0 ltac:(lia) Hfin) as Hrow.
  cbv zeta in Hrow. destruct Hrow as (_ & _ & Hnd & Hlast & _).
  rewrite build_cdf_totals in *. cbn [fst snd] in *.
  destruct (row_max_is_finite_max A L row Hfin) as [[Hin Hm] Hup].
  set (m := row_max A row) in *.
  destruct (totals_props A L m row (dzero A) 0 Hm Hup ltac:(lia) ltac:(lia)
              (law_zero A L)) as [Hent _].
  destruct (fold_total_props A L m row (dzero A) 0 Hm Hup ltac:(lia) ltac:(lia)
              (law_zero A L)) as [_ [n [Hn [Hb0 Hbn]]]].
  pose proof (total_ge_one A L m row (dzero A) 0 Hm Hin Hup ltac:(lia)
                ltac:(lia) (law_zero A L)) as Hone.
  set (total := fold_left _ row (dzero A)) in *.
  split; [apply (b64_bounded_finite total n); [lia | exact Hb0 | exact Hbn]|].
  split; [exact Hone|].
  split.
  { apply (b64_le_trans _ _ _ Hbn). apply b64_ofZ_le; lia. }
  intros i ci Hi. split.
  - destruct (Hent ci) as [H0 _]; [|exact H0].
    apply list_elem_of_In. apply (list_elem_of_lookup_2 _ i). exact Hi.
  - assert (Hi' : (i < length row)%nat).
    { rewrite <- (running_totals_length A m row (dzero A)).
      exact (lookup_lt_Some _ _ _ Hi). }
    apply (Hnd i (length row - 1)%nat ci total); [lia | exact Hi | exact Hlast].
Qed.

(** ** The cells a call fills *)

Section FilledCells.

Context (A : DoubleOps) (generate : Z -> Z -> list Z).
Context (logits : Z -> Z -> A) (num_classes num_samples : Z)
        (gen : PhiloxRandom).

Local Abbreviation Functor' :=
  (MultinomialFunctor A generate logits num_classes num_samples gen).

(** A cell of a row that some block of the plan holds is written. *)
Lemma Functor_covered plan out b j :
  0 <= j < num_samples ->
  (exists blk, blk ∈ plan /\ in_block blk b) ->
  is_Some (Functor' plan out !! (b, j)).
Proof.
  intros Hj. revert out.
  induction plan as [|blk plan IH]; intros out [blk0 [Hin Hb]].
  - inversion Hin.
  - rewrite Functor_cons.
    destruct (decide (Exists (fun blk' => in_block blk' b) plan)) as [He|He].
    + apply IH. apply Exists_exists in He. exact He.
    + rewrite Functor_miss.
      * assert (blk0 = blk) as ->.
        { apply elem_of_cons in Hin. destruct Hin as [->|Hin]; [done|].
          exfalso. apply He. apply Exists_exists. eauto. }
        rewrite DoWork_hit by (unfold in_block in Hb; lia). eauto.
      * left. intros blk' Hin' Hb'. apply He. apply Exists_exists. eauto.
Qed.

End FilledCells.

Section RowIndependence.

Context (A : DoubleOps) (generate : Z -> Z -> list Z).
Context (logits logits' : Z -> Z -> A) (num_classes num_samples : Z)
        (gen : PhiloxRandom) (b : Z).
Context (Hrow : forall c, 0 <= c < num_classes -> logits b c = logits' b c).

Lemma logits_row_ext :
  logits_row A logits num_classes b = logits_row A logits' num_classes b.
Proof.
  unfold logits_row. apply map_ext_in. intros i Hi. apply in_seq in Hi.
  apply Hrow. lia.
Qed.

Lemma sample_at_row_ext start_row j :
  sample_at A generate logits num_classes num_samples gen start_row b j =
  sample_at A generate logits' num_classes num_samples gen start_row b j.
Proof. unfold sample_at. rewrite logits_row_ext. reflexivity. Qed.

Lemma Functor_row_ext plan out out' j :
  out !! (b, j) = out' !! (b, j) ->
  MultinomialFunctor A generate logits num_classes num_samples gen plan out
    !! (b, j) =
  MultinomialFunctor A generate logits' num_classes num_samples gen plan out'
    !! (b, j).
Proof.
  revert out out'. induction plan as [|blk plan IH]; intros out out' Ho.
  - exact Ho.
  - rewrite !Functor_cons. apply IH.
    destruct (decide (blk.1 <= b < blk.2 /\ 0 <= j < num_samples))
      as [[Hb Hj]|Hn].
    + rewrite !DoWork_hit by assumption. f_equal. apply sample_at_row_ext.
    + rewrite !DoWork_miss by lia. exact Ho.
Qed.

End RowIndependence.

Lemma checks_pass_dims {V} (logits_t : Tensor V) num_samples_t :
  checks_pass logits_t num_samples_t = true ->
  int32 (dim_size logits_t 0) = dim_size logits_t 0 /\
  int32 (dim_size logits_t 1) = dim_size logits_t 1 /\
  0 < dim_size logits_t 1 /\ 0 <= scalar num_samples_t.
Proof.
  unfold checks_pass. rewrite !andb_true_iff. cbn [forallb].
  rewrite !andb_true_iff, !Z.eqb_eq, Z.leb_le, Z.ltb_lt.
  intros [[[_ HK] [H0 [H1 _]]] HC]. rewrite H1 in HC. auto.
Qed.

(** X5.  In a call that passed validation on a device whose plan splits the
    rows [0, B) into blocks that lie in that range and together hold every
    row, the cells written are exactly those of the [B] by [K] output: every
    one of them is filled and nothing else is. *)
Theorem output_filled_exactly
    (A : DoubleOps) (generate : Z -> Z -> list Z) (DoWork_cost : Z -> Z -> Z)
    ctx (logits_t : Tensor A) num_samples_t generator b j :
  tensor_wf logits_t -> ~ validation_fails logits_t num_samples_t ->
  let B := dim_size logits_t 0 in
  let K := scalar num_samples_t in
  let plan := worker_blocks ctx B (DoWork_cost K (dim_size logits_t 1)) in
  (forall blk, blk ∈ plan -> 0 <= blk.1 /\ blk.2 <= B) ->
  (forall b', 0 <= b' < B -> exists blk, blk ∈ plan /\ in_block blk b') ->
  is_Some (output_cells (fst (DoCompute A generate DoWork_cost ctx logits_t
                                num_samples_t generator)) !! (b, j)) <->
  0 <= b < B /\ 0 <= j < K.
Proof.
  intros Hwf Hv B K plan Hin Hcov.
  assert (Hc := proj2 (checks_pass_iff A logits_t num_samples_t Hwf) Hv).
  destruct (checks_pass_dims logits_t num_samples_t Hc) as (HB & HC & _ & HK).
  rewrite (DoCompute_cells A generate DoWork_cost ctx logits_t num_samples_t
             generator Hc).
  cbv zeta. rewrite HB, HC. fold B K plan.
  assert (HB0 : 0 <= B).
  { subst B. unfold dim_size. unfold tensor_wf in Hwf.
    destruct (shape logits_t) as [|d sh]; [simpl; lia|].
    apply Forall_cons in Hwf. simpl. tauto. }
  unfold NumElements. cbn [fold_right]. rewrite Z.mul_1_r.
  destruct (Z.ltb_spec 0 (B * K)) as [Hpos|Hzero].
  - split.
    + intros Hs.
      destruct (decide (0 <= b < B /\ 0 <= j < K)) as [|Hn]; [assumption|].
      exfalso. rewrite Functor_miss, lookup_empty in Hs.
      * destruct Hs as [? Hs]. discriminate.
      * destruct (decide (0 <= j < K)) as [Hj|Hj]; [left|right; exact Hj].
        intros blk Hblk Hb. destruct (Hin blk Hblk). unfold in_block in Hb. lia.
    + intros [Hb Hj]. apply Functor_covered; [exact Hj | apply Hcov, Hb].
  - rewrite lookup_empty. split; [intros [? Hs]; discriminate|].
    intros [Hb Hj]. exfalso. subst K. nia.
Qed.

(** X6.  The samples of a row do not depend on the logits of the other rows:
    two calls that differ only in other rows of the logits write the same
    index to every cell of the row (and fail alike if validation fails). *)
Theorem row_samples_ignore_other_rows
    (A : DoubleOps) (generate : Z -> Z -> list Z) (DoWork_cost : Z -> Z -> Z)
    ctx (logits_t logits_t' : Tensor A) num_samples_t generator b j :
  shape logits_t = shape logits_t' ->
  (forall c, 0 <= c < dim_size logits_t 1 ->
     matrix logits_t b c = matrix logits_t' b c) ->
  output_cells (fst (DoCompute A generate DoWork_cost ctx logits_t
                       num_samples_t generator)) !! (b, j) =
  output_cells (fst (DoCompute A generate DoWork_cost ctx logits_t'
                       num_samples_t generator)) !! (b, j).
Proof.
  intros Hsh Hrow.
  assert (Hd : forall i, dim_size logits_t' i = dim_size logits_t i)
    by (intros i; unfold dim_size; rewrite Hsh; reflexivity).
  assert (Hcp : checks_pass logits_t' num_samples_t =
                checks_pass logits_t num_samples_t).
  { unfold checks_pass. cbn [forallb]. rewrite !Hd, Hsh. reflexivity. }
  destruct (checks_pass logits_t num_samples_t) eqn:Hc.
  - destruct (checks_pass_dims logits_t num_samples_t Hc) as (_ & HC & _).
    rewrite !DoCompute_cells by congruence. cbv zeta. rewrite !Hd.
    destruct (0 <? NumElements _); [|reflexivity].
    apply Functor_row_ext; [|reflexivity].
    intros c Hcr. apply Hrow. rewrite <- HC. exact Hcr.
  - destruct (DoCompute_rejects A generate DoWork_cost ctx logits_t
                num_samples_t generator Hc) as [msg ->].
    destruct (DoCompute_rejects A generate DoWork_cost ctx logits_t'
                num_samples_t generator ltac:(congruence)) as [msg' ->].
    reflexivity.
Qed.

(** ** The reservation covers what the shards draw *)

Lemma uint64_small x : 0 <= x < 2 ^ 64 -> uint64 x = x.
Proof. intros H. unfold uint64. apply Z.mod_small. exact H. Qed.

(** The double number [n] of the stream that starts [skip] blocks after
    [g] comes from the block [skip + n / 2] blocks after [g]. *)
Lemma double_at_offset (A : DoubleOps) (generate : Z -> Z -> list Z)
    (g : PhiloxRandom) (skip : Z) (n : nat) :
  0 <= skip -> skip + Z.of_nat (n / 2) < 2 ^ 64 ->
  double_at A generate (Skip g skip) n =
  double_at A generate (Skip g (skip + Z.of_nat (n / 2))) (n mod 2).
Proof.
  intros H0 H1. unfold double_at, Skip. cbn [key_ counter_].
  assert (Hm : (n mod 2 < 2)%nat) by (apply Nat.mod_upper_bound; lia).
  rewrite (Nat.div_small (n mod 2) 2 Hm), (Nat.mod_small (n mod 2) 2 Hm).
  rewrite !uint64_small by lia.
  rewrite Z.add_0_r, Z.mod_mod by lia.
  rewrite Z.add_mod_idemp_l by lia.
  rewrite Z.add_assoc. reflexivity.
Qed.

(** X7.  A stateful call with a non-empty output in which no [int] product
    overflows moves the kernel's generator [reserved] blocks ahead, and
    every double any shard [start_row, limit_row) of the call draws comes
    from a block less than [reserved] blocks after the generator the call
    began with: the next call draws from other blocks. *)
Theorem reservation_covers_every_shard
    (A : DoubleOps) (generate : Z -> Z -> list Z) (DoWork_cost : Z -> Z -> Z)
    generator_ ctx (logits_t : Tensor A) num_samples_t
    (start_row limit_row n : Z) :
  checks_pass logits_t num_samples_t = true ->
  let B := dim_size logits_t 0 in
  let K := scalar num_samples_t in
  let g := guarded_generator generator_ in
  let reserved := B * ((K + 3) / 4 * 4 * 2) * 256 in
  0 < B -> 0 < K -> B * ((K + 3) / 4 * 4 * 2) < 2 ^ 31 ->
  0 <= start_row <= limit_row -> limit_row <= B ->
  0 <= n < (limit_row - start_row) * K ->
  let offset := skip_count K start_row + n / 2 in
  snd (StatefulCompute A generate DoWork_cost generator_ ctx logits_t
         num_samples_t) = mkGuarded (Skip g reserved) /\
  nth_double A generate (Z.to_nat n)
    (SimplePhilox_new (Skip g (skip_count K start_row))) =
  double_at A generate (Skip g offset) (Z.to_nat n mod 2) /\
  0 <= offset < reserved.
Proof.
  intros Hc B K g reserved.
  assert (EB : B = dim_size logits_t 0) by reflexivity.
  assert (EK : K = scalar num_samples_t) by reflexivity.
  assert (Eg : g = guarded_generator generator_) by reflexivity.
  assert (Er : reserved = B * ((K + 3) / 4 * 4 * 2) * 256) by reflexivity.
  clearbody reserved g. clearbody B K.
  intros HB HK Hno Hs Hl Hn offset.
  assert (Eo : offset = skip_count K start_row + n / 2) by reflexivity.
  clearbody offset.
  destruct (checks_pass_dims logits_t num_samples_t Hc) as (HB32 & _ & _ & _).
  rewrite <- EB in HB32.
  remember ((K + 3) / 4) as q eqn:Eq.
  assert (Hq : 4 * q <= K + 3 < 4 * q + 4).
  { subst q. pose proof (Z.div_mod (K + 3) 4 ltac:(lia)).
    pose proof (Z.mod_pos_bound (K + 3) 4 ltac:(lia)). lia. }
  assert (Hq1 : 1 <= q) by lia.
  assert (Hq8 : 8 * q <= B * (q * 4 * 2)) by nia.
  assert (HK30 : K < 2 ^ 30) by lia.
  assert (HB31 : B < 2 ^ 31) by nia.
  assert (Hskip : skip_count K start_row = start_row * (K + 3) / 4)
    by (apply skip_count_small; lia).
  assert (Hsk : 0 <= skip_count K start_row <= start_row * q + start_row).
  { rewrite Hskip. split; [apply Z.div_pos; nia|].
    apply Z.div_le_upper_bound; [lia|]. nia. }
  assert (Hn2 : 0 <= n / 2 <= n).
  { split; [apply Z.div_pos; lia|]. apply Z.div_le_upper_bound; lia. }
  assert (Hoff : 0 <= offset < reserved) by nia.
  split; [|split; [|exact Hoff]].
  - rewrite stateful_advances_generator; [|exact Hc|].
    + cbv zeta. rewrite <- EB, <- EK, <- Eg. do 2 f_equal. rewrite HB32.
      assert (E1 : int32 (K + 3) = K + 3)
        by (apply int32_fits; unfold fits_int; lia).
      rewrite E1, Z.quot_div_nonneg by lia. rewrite <- Eq.
      assert (E2 : int32 (q * 4) = q * 4)
        by (apply int32_fits; unfold fits_int; nia).
      assert (E3 : int32 (q * 4 * 2) = q * 4 * 2)
        by (apply int32_fits; unfold fits_int; nia).
      assert (E4 : int32 (B * (q * 4 * 2)) = B * (q * 4 * 2))
        by (apply int32_fits; unfold fits_int; nia).
      rewrite E2, E3, E4, Er. apply int64_small. nia.
    + cbv zeta. rewrite <- EB, <- EK, HB32. unfold NumElements.
      cbn [fold_right]. nia.
  - rewrite nth_double_fresh
      by (unfold Skip; cbn [counter_]; apply Z.mod_pos_bound; lia).
    assert (Hdiv : Z.of_nat (Z.to_nat n / 2) = n / 2).
    { rewrite Nat2Z.inj_div, Z2Nat.id by lia. reflexivity. }
    rewrite double_at_offset; rewrite ?Hdiv; try lia.
    rewrite <- Eo. reflexivity.
Qed.

(** ** Shards of at most two samples per row *)

(** X8.  With at most two samples per row, a shard [start_row, limit_row) is
    done before its generator reaches the block at which a shard that starts
    at [limit_row] or later begins: the skip formula keeps such shards on
    separate blocks. *)
Theorem shards_apart_up_to_two_samples
    (A : DoubleOps) (generate : Z -> Z -> list Z) (logits : Z -> Z -> A)
    (num_classes num_samples : Z) (gen : PhiloxRandom)
    (start_row limit_row next_start : Z) (out : gmap (Z * Z) Z) :
  0 <= num_samples <= 2 ->
  0 <= start_row <= limit_row -> limit_row <= next_start < 2 ^ 31 ->
  0 <= counter_ gen ->
  counter_ gen + skip_count num_samples next_start < 2 ^ 128 ->
  counter_ (Skip gen (skip_count num_samples start_row)) <=
  counter_ (generator_ (fst (DoWork_run A generate logits num_classes
                               num_samples gen start_row limit_row out))) <=
  counter_ (Skip gen (skip_count num_samples next_start)).
Proof.
  intros HK Hs Hn Hc Hw.
  rewrite DoWork_counter by lia.
  pose proof (skip_covers_two_samples A generate logits num_samples
                start_row limit_row HK Hs
                ltac:(lia)) as Hcov.
  assert (Hmono : skip_count num_samples limit_row <=
                  skip_count num_samples next_start).
  { rewrite !skip_count_small by lia. apply Z.div_le_mono; [lia|]. nia. }
  assert (H0 : 0 <= skip_count num_samples start_row).
  { rewrite skip_count_small by lia. apply Z.div_pos; nia. }
  assert (Hb : 0 <= blocks_consumed ((limit_row - start_row) * num_samples)).
  { unfold blocks_consumed. apply Z.div_pos; nia. }
  assert (H64 : skip_count num_samples next_start < 2 ^ 64).
  { rewrite skip_count_small by lia.
    apply Z.div_lt_upper_bound; [lia|].
    apply (Z.le_lt_trans _ (2 ^ 31 * 5)); [nia|reflexivity]. }
  unfold Skip. cbn [counter_].
  rewrite !uint64_small by lia.
  rewrite (Z.mod_small (counter_ gen + skip_count num_samples start_row))
    by lia.
  rewrite (Z.mod_small (counter_ gen + skip_count num_samples next_start))
    by lia.
  rewrite Z.mod_small by lia. lia.
Qed.

(** ** A row of equal logits *)

(** Two valid values at the same position above zero are the same. *)
Lemma rank_inj_pos x y :
  valid x -> valid y -> is_nan_sf x = false -> is_nan_sf y = false ->
  0 < rank x < mag_infinity -> rank x = rank y -> x = y.
Proof.
  unfold valid, valid_binary. intros Vx Vy Nx Ny Hx Heq.
  pose proof mag_infinity_pos as Hinf.
  assert (Hy : 0 < rank y < mag_infinity) by lia.
  destruct x as [sx|sx| |sx mx ex]; try discriminate;
    try (unfold rank in Hx; cbn [sign_of mag] in Hx; destruct sx; lia).
  destruct y as [sy|sy| |sy my ey]; try discriminate;
    try (unfold rank in Hy; cbn [sign_of mag] in Hy; destruct sy; lia).
  cbn [SpecFloat.valid_binary] in *.
  assert (sx = false) by (apply (rank_nonneg_finite _ _ _ Vx); lia).
  assert (sy = false) by (apply (rank_nonneg_finite _ _ _ Vy); lia).
  subst sx sy. rewrite !rank_finite in Heq. cbn [cond_Zopp] in Heq.
  destruct (mag_inj _ _ _ _ Vx Vy Heq) as [-> ->]. reflexivity.
Qed.

(** Adding one to a small integer is exact. *)
Lemma b64_succ n :
  0 <= n -> n + 1 < 2 ^ 53 ->
  (b64_ofZ n + 1)%float = b64_ofZ (n + 1).
Proof.
  intros Hn Hn1. apply Prim2SF_inj.
  destruct (b64_ofZ_rank n ltac:(lia)) as [Nx Rx].
  destruct (b64_ofZ_rank (n + 1) ltac:(lia)) as [Nz Rz].
  pose proof (sc_pos 0 ltac:(lia)) as Hs0.
  destruct (representable_small (n + 1) 0 ltac:(lia) ltac:(lia))
    as [[_ Hsm] Hbig].
  assert (Hsum : is_nan_sf (Prim2SF (b64_ofZ n + 1)) = false /\
                 fr (b64_ofZ n + 1)%float = (n + 1) * sc 0).
  { unfold fr in *. rewrite add_spec. unfold SF64add.
    pose proof (Prim2SF_valid (b64_ofZ n)) as Vx. unfold valid_binary in Vx.
    pose proof fr_one as R1. unfold fr in R1.
    change (Prim2SF 1) with (S754_finite false 4503599627370496 (-52)) in *.
    destruct (Prim2SF (b64_ofZ n)) as [s|s| |s m e]; try discriminate.
    - cbn [SFadd is_nan_sf]. rewrite rank_zero in Rx. rewrite R1.
      split; [reflexivity|]. nia.
    - exfalso. unfold rank in Rx. cbn [sign_of mag] in Rx.
      pose proof mag_infinity_pos. destruct s; nia.
    - cbn [SpecFloat.valid_binary] in Vx.
      pose proof (SFadd_finite s m e false 4503599627370496 (-52) Vx eq_refl)
        as HR.
      rewrite Rx, R1 in HR.
      replace (n * sc 0 + sc 0) with ((n + 1) * sc 0) in HR by lia.
      apply (rounds_signed_exact _ _ (n + 1) 0 HR); lia. }
  destruct Hsum as [Ns Rs]. unfold fr in *.
  apply rank_inj_pos; try apply Prim2SF_valid; try assumption; [nia|lia].
Qed.

Section EqualLogits.

Context (exp : float -> float) (Hexp : exp 0%float = 1%float).
Context (x : float) (Hx : b64_isfinite x = true).

Local Abbreviation A := (binary64 exp).

Lemma max_loop_equal k (m : float) :
  m = b64_lowest \/ m = x ->
  max_loop A (replicate (S k) x) m = x.
Proof.
  revert m. induction k as [|k IH]; intros m Hm.
  - cbn [replicate max_loop disfinite binary64]. rewrite Hx.
    unfold std_max. cbn [dlt binary64].
    destruct Hm as [->| ->].
    + destruct (PrimFloat.ltb b64_lowest x) eqn:E; [reflexivity|].
      symmetry. apply b64_lowest_least; assumption.
    + rewrite b64_lt_irrefl. reflexivity.
  - change (replicate (S (S k)) x) with (x :: replicate (S k) x).
    cbn [max_loop disfinite binary64]. rewrite Hx. apply IH.
    unfold std_max. cbn [dlt binary64].
    destruct Hm as [->| ->].
    + destruct (PrimFloat.ltb b64_lowest x) eqn:E; [right; reflexivity|].
      right. symmetry. apply b64_lowest_least; assumption.
    + rewrite b64_lt_irrefl. right. reflexivity.
Qed.

Lemma shifted_exp_equal : shifted_exp A x x = 1%float.
Proof.
  unfold shifted_exp. cbn [dexp dsub binary64].
  destruct (b64_sub_spec x x Hx Hx) as (_ & _ & H).
  rewrite (H eq_refl). exact Hexp.
Qed.

Lemma running_totals_equal k n :
  0 <= n -> n + Z.of_nat k < 2 ^ 53 ->
  running_totals A x (replicate k x) (b64_ofZ n) =
  map (fun i => b64_ofZ (n + 1 + Z.of_nat i)) (seq 0 k).
Proof.
  revert n. induction k as [|k IH]; intros n Hn Hk; [reflexivity|].
  cbn [replicate running_totals disfinite binary64]. rewrite Hx.
  rewrite shifted_exp_equal. cbn [dadd binary64].
  rewrite b64_succ by lia. cbn [seq map].
  rewrite Z.add_0_r. f_equal.
  rewrite IH by lia. rewrite <- seq_shift, map_map.
  apply map_ext. intros i. f_equal. lia.
Qed.

Lemma logits_row_equal (logits : Z -> Z -> float) num_classes b :
  (forall c, 0 <= c < num_classes -> logits b c = x) ->
  logits_row A logits num_classes b = replicate (Z.to_nat num_classes) x.
Proof.
  intros Hrow. unfold logits_row.
  rewrite (map_ext_in _ (fun _ => x))
    by (intros i Hi; apply in_seq in Hi; apply Hrow; lia).
  generalize 0%nat. induction (Z.to_nat num_classes) as [|k IH]; intros s;
    [reflexivity|].
  cbn [seq map replicate]. f_equal. apply IH.
Qed.

End EqualLogits.

(** X9.  In binary64, with an [exp] that is 1 at 0: for a row whose logits
    are all the same finite value the buffer is exactly 1, 2, ..., C and the
    total C, so that the classes get draw intervals of equal width. *)
Theorem equal_logits_give_uniform_cdf
    (exp : float -> float) (logits : Z -> Z -> float) (num_classes b : Z)
    (x : float) :
  exp 0%float = 1%float ->
  0 < num_classes < 2 ^ 31 -> b64_isfinite x = true ->
  (forall c, 0 <= c < num_classes -> logits b c = x) ->
  let row := logits_row (binary64 exp) logits num_classes b in
  row_max (binary64 exp) row = x /\
  (forall i, 0 <= i < num_classes ->
     fst (build_cdf (binary64 exp) row) !! Z.to_nat i = Some (b64_ofZ (i + 1)))
  /\ snd (build_cdf (binary64 exp) row) = b64_ofZ num_classes.
Proof.
  intros Hexp HC Hx Hrow row. subst row.
  rewrite (logits_row_equal exp x logits num_classes b Hrow).
  assert (Hmax : row_max (binary64 exp) (replicate (Z.to_nat num_classes) x)
                 = x).
  { unfold row_max. destruct (Z.to_nat num_classes) as [|k] eqn:E; [lia|].
    apply (max_loop_equal exp x Hx). left. reflexivity. }
  split; [exact Hmax|].
  assert (Hp : 2 ^ 31 < 2 ^ 53) by reflexivity.
  pose proof (running_totals_equal exp Hexp x Hx (Z.to_nat num_classes) 0
                ltac:(lia) ltac:(lia)) as Htot.
  change (b64_ofZ 0) with (dzero (binary64 exp)) in Htot.
  split.
  - intros i Hi. rewrite build_cdf_totals. cbn [fst]. rewrite Hmax, Htot.
    rewrite list_lookup_fmap, lookup_seq_lt by lia. cbn [fmap option_fmap option_map].
    do 2 f_equal. lia.
  - rewrite build_cdf_totals. cbn [snd]. rewrite Hmax.
    pose proof (running_totals_last (binary64 exp) x
                  (replicate (Z.to_nat num_classes) x)
                  (dzero (binary64 exp))) as Hlast.
    rewrite Htot, length_replicate in Hlast.
    rewrite list_lookup_fmap, lookup_seq_lt in Hlast by lia.
    assert (Hne : replicate (Z.to_nat num_classes) x <> []).
    { destruct (Z.to_nat num_classes) eqn:E; [lia|discriminate]. }
    specialize (Hlast Hne). injection Hlast as Hlast.
    etransitivity; [symmetry; exact Hlast|]. f_equal. lia.
Qed.

(** ** The use of the generator does not depend on the data *)

(** X10.  A shard leaves its private generator in a state that is fixed by
    the generator it copied, its rows and the sample count: every row takes
    [num_samples] doubles, whatever the logits, the class count and the
    output are (a row without any finite logit draws as many as the others). *)
Theorem generator_use_is_data_independent
    (A : DoubleOps) (generate : Z -> Z -> list Z)
    (logits logits' : Z -> Z -> A) (num_classes num_classes' num_samples : Z)
    (gen : PhiloxRandom) (start_row limit_row : Z)
    (out out' : gmap (Z * Z) Z) :
  fst (DoWork_run A generate logits num_classes num_samples gen
         start_row limit_row out) =
  advance A generate
    (Z.to_nat (limit_row - start_row) * Z.to_nat num_samples)
    (SimplePhilox_new (Skip gen (skip_count num_samples start_row))) /\
  fst (DoWork_run A generate logits num_classes num_samples gen
         start_row limit_row out) =
  fst (DoWork_run A generate logits' num_classes' num_samples gen
         start_row limit_row out').
Proof.
  unfold DoWork_run. rewrite !rows_loop_state. split; reflexivity.
Qed.

(** ** The further properties at concrete calls *)

Lemma minus_infinity_cell :
  output_cells (fst (DoCompute b64 counting_blocks flat_cost
                       (fresh_ctx [(0, 1)]) minus_infinity_logit
                       (scalar_tensor 1) gen0)) !! (0, 0) = Some 1.
Proof. vm_compute. reflexivity. Qed.

(** The bound at the call of one row with the single logit -infinity,
    where it is attained. *)
Lemma written_index_fits_witness :
  0 <= 1 <= dim_size minus_infinity_logit 1 /\ int32 1 = 1 /\ int64 1 = 1.
Proof.
  refine (written_index_fits_output_type b64 counting_blocks flat_cost
            (fresh_ctx [(0, 1)]) minus_infinity_logit (scalar_tensor 1) gen0
            0 0 1 _ _ minus_infinity_cell).
  - unfold tensor_wf; simpl; repeat constructor; lia.
  - passes_validation.
Defined.

Lemma one_hot_cell :
  output_cells (fst (DoCompute (binary64 exp_steps) counting_blocks flat_cost
                       (fresh_ctx [(0, 1)]) one_hot_logits (scalar_tensor 3)
                       gen0)) !! (0, 0) = Some 1.
Proof. vm_compute. reflexivity. Qed.

(** One-hot logits: the class drawn is the one with the finite logit. *)
Lemma sampled_class_witness :
  b64_isfinite (matrix one_hot_logits 0 1) = true.
Proof.
  refine (sampled_class_has_finite_logit exp_steps exp_steps_laws
            counting_blocks flat_cost (fresh_ctx [(0, 1)]) one_hot_logits
            (scalar_tensor 3) gen0 0 0 1 _ _ _ one_hot_cell).
  - unfold tensor_wf; simpl; repeat constructor; lia.
  - passes_validation.
  - exists 1. split; [unfold dim_size, one_hot_logits; simpl; lia|].
    reflexivity.
Defined.

(** Samples 0 and 2 of the first of two rows of equal logits. *)
Lemma samples_ordered_witness :
  exists v1 v2,
    DoWork (binary64 exp_steps) counting_blocks (matrix even_logits) 2 3
           (mkPhilox 0 0) 0 2 ∅ !! (0, 0) = Some v1 /\
    DoWork (binary64 exp_steps) counting_blocks (matrix even_logits) 2 3
           (mkPhilox 0 0) 0 2 ∅ !! (0, 2) = Some v2 /\
    v1 <= v2.
Proof.
  refine (samples_ordered_as_draws exp_steps exp_steps_laws counting_blocks
            (matrix even_logits) 2 3 (mkPhilox 0 0) 0 2 ∅ 0 0 2
            _ _ _ _ _ _); try lia.
  - exists 0. split; [lia | reflexivity].
  - vm_compute. reflexivity.
Defined.

(** The total of a row of two equal logits. *)
Lemma row_total_witness :
  PrimFloat.leb 1
    (snd (build_cdf (binary64 exp_steps)
            (logits_row (binary64 exp_steps) (matrix even_logits) 2 0))) = true.
Proof.
  refine (proj1 (proj2 (row_total_between_one_and_class_count exp_steps
            exp_steps_laws (matrix even_logits) 2 0 _ _))); [lia|].
  exists 0. split; [lia | reflexivity].
Defined.

(** The last cell of a two by three output on a device that runs one
    block. *)
Lemma output_filled_witness :
  is_Some (output_cells (fst (DoCompute b64 counting_blocks flat_cost
                                (fresh_ctx [(0, 2)]) even_logits
                                (scalar_tensor 3) gen0)) !! (1, 2)) <->
  0 <= 1 < dim_size even_logits 0 /\ 0 <= 2 < scalar (scalar_tensor 3).
Proof.
  refine (output_filled_exactly b64 counting_blocks flat_cost
            (fresh_ctx [(0, 2)]) even_logits (scalar_tensor 3) gen0 1 2
            _ _ _ _).
  - unfold tensor_wf; simpl; repeat constructor; lia.
  - passes_validation.
  - intros blk Hin. apply list_elem_of_singleton in Hin. subst blk.
    split; [simpl; lia | unfold dim_size, even_logits; simpl; lia].
  - intros b' Hb. exists (0, 2). split; [apply list_elem_of_singleton; done|].
    unfold in_block, dim_size, even_logits in *. simpl in *. lia.
Defined.

(** The first row of two calls whose second rows differ. *)
Lemma row_independence_witness :
  output_cells (fst (DoCompute b64 counting_blocks flat_cost
                       (fresh_ctx [(0, 2)]) even_logits (scalar_tensor 3)
                       gen0)) !! (0, 2) =
  output_cells (fst (DoCompute b64 counting_blocks flat_cost
                       (fresh_ctx [(0, 2)]) uneven_logits (scalar_tensor 3)
                       gen0)) !! (0, 2).
Proof.
  refine (row_samples_ignore_other_rows b64 counting_blocks flat_cost
            (fresh_ctx [(0, 2)]) even_logits uneven_logits (scalar_tensor 3)
            gen0 0 2 _ _).
  - reflexivity.
  - intros c Hc. unfold dim_size, even_logits in Hc. simpl in Hc.
    assert (Hcases : c = 0 \/ c = 1) by lia.
    destruct Hcases as [-> | ->]; reflexivity.
Defined.

(** Double 2 of the shard of row 1, in a call of two rows and three
    samples: block 2 of the 4096 reserved. *)
Lemma reservation_witness :
  snd (StatefulCompute b64 counting_blocks flat_cost gen0 (fresh_ctx [(0, 2)])
         even_logits (scalar_tensor 3)) =
    mkGuarded (Skip (mkPhilox 0 0) 4096) /\
  nth_double b64 counting_blocks 2
    (SimplePhilox_new (Skip (mkPhilox 0 0) (skip_count 3 1))) =
    double_at b64 counting_blocks (Skip (mkPhilox 0 0) 2) 0 /\
  0 <= 2 < 4096.
Proof.
  refine (reservation_covers_every_shard b64 counting_blocks flat_cost gen0
            (fresh_ctx [(0, 2)]) even_logits (scalar_tensor 3) 1 2 2
            _ _ _ _ _ _ _); vm_compute; repeat split; congruence.
Defined.

(** Two samples per row: the shard of row 0 and a shard that starts at
    row 1. *)
Lemma shards_apart_witness :
  counter_ (Skip (mkPhilox 0 0) (skip_count 2 0)) <=
  counter_ (generator_ (fst (DoWork_run b64 counting_blocks
                               (matrix even_logits) 2 2 (mkPhilox 0 0)
                               0 1 ∅))) <=
  counter_ (Skip (mkPhilox 0 0) (skip_count 2 1)).
Proof.
  refine (shards_apart_up_to_two_samples b64 counting_blocks
            (matrix even_logits) 2 2 (mkPhilox 0 0) 0 1 1 ∅ _ _ _ _ _);
    try lia; try (simpl; lia).
  vm_compute. reflexivity.
Defined.

(** Two equal logits: the buffer is 1, 2. *)
Lemma equal_logits_witness :
  snd (build_cdf (binary64 exp_steps)
         (logits_row (binary64 exp_steps) (matrix even_logits) 2 0)) =
  b64_ofZ 2.
Proof.
  refine (proj2 (proj2 (equal_logits_give_uniform_cdf exp_steps
            (matrix even_logits) 2 0 0%float _ _ _ _))); try reflexivity;
    try lia.
  intros c Hc. assert (Hcases : c = 0 \/ c = 1) by lia.
  destruct Hcases as [-> | ->]; reflexivity.
Defined.
